(** * VidyaTid: the Gemini client wrapper and the admin seeder

    A shallow embedding of [services/gemini_ai.py] (class [GeminiAI]) and
    of [init_admin.py] ([create_admin_user]), with the properties of the
    key rotation, the retry loop, the fallback and the seeder.

    Conventions.
    - Python [str] is [string]: the bytes of its UTF-8 encoding.  The text
      the code looks for is ASCII (the rate-limit terms, the role labels,
      [',']), except for white space, which [strip()] and [split()] take as
      Unicode has it: a white-space character is its UTF-8 bytes, one to
      three of them.
    - [time.time()] is a [Z] (a number of seconds); the code only subtracts
      two readings and compares the difference with the cooldown.
    - A Python exception is a [pyexn]: its class, as far as the handlers of
      the code tell classes apart, and the text [str(e)] gives.  All of them
      derive from [Exception].
    - Methods of [GeminiAI] run in the monad [M]: they thread the instance
      and the log of the calls made to the outside, and they either return
      or raise. *)

From Stdlib Require Import Ascii QArith.
From stdpp Require Import gmap strings list fin_maps.

Local Open Scope string_scope.
Local Open Scope Z_scope.

(** ** Python strings *)

Module PyStr.

(** [c.lower()] on one ASCII character. *)
Definition lower_ascii (c : ascii) : ascii :=
  let n := nat_of_ascii c in
  if ((65 <=? n)%nat && (n <=? 90)%nat)%bool then ascii_of_nat (n + 32) else c.

(** [s.lower()] *)
Fixpoint lower (s : string) : string :=
  match s with
  | EmptyString => EmptyString
  | String c s' => String (lower_ascii c) (lower s')
  end.

(** [s.startswith(p)] *)
Fixpoint startswith (p s : string) : bool :=
  match p, s with
  | EmptyString, _ => true
  | String _ _, EmptyString => false
  | String a p', String b s' => if Ascii.eqb a b then startswith p' s' else false
  end.

(** [p in s] *)
Fixpoint contains (p s : string) : bool :=
  startswith p s ||
  match s with
  | EmptyString => false
  | String _ s' => contains p s'
  end.

(** The code points Python 3 takes for white space ([str.isspace()], and
    with it [str.strip()] and [str.split()] without argument): the ASCII
    controls TAB, LF, VT, FF, CR and 0x1c..0x1f, the blank, NEL, the
    no-break space, and the Unicode spaces and line separators. *)
Definition whitespace_code_points : list N :=
  [0x09; 0x0A; 0x0B; 0x0C; 0x0D; 0x1C; 0x1D; 0x1E; 0x1F; 0x20; 0x85; 0xA0; 0x1680;
   0x2000; 0x2001; 0x2002; 0x2003; 0x2004; 0x2005; 0x2006; 0x2007; 0x2008; 0x2009;
   0x200A; 0x2028; 0x2029; 0x202F; 0x205F; 0x3000]%N.

(** The UTF-8 encoding of a code point below 0x10000. *)
Definition utf8 (cp : N) : string :=
  let byte n := String (ascii_of_N n) EmptyString in
  (if cp <? 0x80 then byte cp
   else if cp <? 0x800 then byte (0xC0 + cp / 0x40) +:+ byte (0x80 + cp mod 0x40)
   else byte (0xE0 + cp / 0x1000) +:+ byte (0x80 + (cp / 0x40) mod 0x40) +:+
        byte (0x80 + cp mod 0x40))%N.

(** The white-space characters, as they stand in a string. *)
Definition whitespace : list string := map utf8 whitespace_code_points.

(** The number of bytes of the white-space character [s] begins with; 0
    when it begins with none. *)
Definition space_width (s : string) : nat :=
  match List.find (fun w => startswith w s) whitespace with
  | Some w => String.length w
  | None => 0
  end.

(** [s.lstrip()]; [skip] counts the bytes still to pass of the white-space
    character being dropped. *)
Fixpoint lstrip_aux (skip : nat) (s : string) : string :=
  match s with
  | EmptyString => EmptyString
  | String c s' =>
      match skip with
      | S k => lstrip_aux k s'
      | O =>
          match space_width s with
          | O => s
          | S k => lstrip_aux k s'
          end
      end
  end.

Definition lstrip (s : string) : string := lstrip_aux 0 s.

(** [s.isspace() or not s]: white-space characters and nothing else. *)
Definition all_space (s : string) : bool :=
  match lstrip s with EmptyString => true | _ => false end.

(** [s.rstrip()]: [s] up to where only white space follows. *)
Fixpoint rstrip (s : string) : string :=
  match s with
  | EmptyString => EmptyString
  | String c s' => if all_space s then EmptyString else String c (rstrip s')
  end.

(** [s.strip()] *)
Definition strip (s : string) : string := rstrip (lstrip s).

(** [s.split(sep)] for a one-character separator: the fields between the
    separators, empty ones included; never the empty list. *)
Fixpoint split_on (sep : ascii) (s : string) : list string :=
  match s with
  | EmptyString => [EmptyString]
  | String c s' =>
      if Ascii.eqb c sep then EmptyString :: split_on sep s'
      else match split_on sep s' with
           | [] => [String c EmptyString]
           | w :: ws => String c w :: ws
           end
  end.

(** [s.split()]: the maximal runs without a white-space character.  [cur]
    is the word being read, reversed; [skip] counts the bytes still to
    pass of the white-space character that ended the last word. *)
Fixpoint split_ws_aux (skip : nat) (cur : list ascii) (s : string) : list string :=
  match s with
  | EmptyString =>
      match cur with [] => [] | _ => [String.string_of_list_ascii (rev cur)] end
  | String c s' =>
      match skip with
      | S k => split_ws_aux k cur s'
      | O =>
          match space_width s with
          | O => split_ws_aux 0 (c :: cur) s'
          | S k =>
              match cur with
              | [] => split_ws_aux k [] s'
              | _ => String.string_of_list_ascii (rev cur) :: split_ws_aux k [] s'
              end
          end
      end
  end.

Definition split_ws (s : string) : list string := split_ws_aux 0 [] s.

(** [sep.join(l)] *)
Fixpoint join (sep : string) (l : list string) : string :=
  match l with
  | [] => EmptyString
  | [x] => x
  | x :: l' => x +:+ sep +:+ join sep l'
  end.

(** Truth value of a string: [bool(s)]. *)
Definition truthy (s : string) : bool :=
  match s with EmptyString => false | _ => true end.

Definition LF : string := String (ascii_of_nat 10) EmptyString.

End PyStr.

(** ** Python values the wrapper handles *)

(** Exception classes, as far as the handlers tell them apart: the three
    the extraction of the text names, and every other subclass of
    [Exception]. *)
Inductive exn_class := IndexError | AttributeError | ValueError | OtherException.

(** An exception: its class and [str(e)]. *)
Record pyexn := PyExn { exn_cls : exn_class; exn_str : string }.

(** The outcome of evaluating Python code: a value or a raised exception. *)
Inductive result (A : Type) : Type :=
| Ret (a : A)
| Raise (e : pyexn).
Arguments Ret {A} a.
Arguments Raise {A} e.

Definition rbind {A B} (r : result A) (k : A -> result B) : result B :=
  match r with
  | Ret a => k a
  | Raise e => Raise e
  end.

(** What reading an attribute [o.name] does: there is no such attribute,
    its accessor raises, or it gives a value. *)
Inductive attr (A : Type) : Type :=
| Absent
| Fails (e : pyexn)
| Has (a : A).
Arguments Absent {A}.
Arguments Fails {A} e.
Arguments Has {A} a.

(** [hasattr(o, name)]: false when the attribute is missing or its accessor
    raises [AttributeError]; any other exception of the accessor goes
    through. *)
Definition hasattr {A} (a : attr A) : result bool :=
  match a with
  | Absent => Ret false
  | Fails e =>
      match exn_cls e with
      | AttributeError => Ret false
      | _ => Raise e
      end
  | Has _ => Ret true
  end.

(** [o.name] *)
Definition getattr {A} (name : string) (a : attr A) : result A :=
  match a with
  | Absent => Raise (PyExn AttributeError ("object has no attribute '" +:+ name +:+ "'"))
  | Fails e => Raise e
  | Has v => Ret v
  end.

(** [l[0]] *)
Definition index0 {A} (l : list A) : result A :=
  match l with
  | [] => Raise (PyExn IndexError "list index out of range")
  | x :: _ => Ret x
  end.

(** The response of [generate_content], by the attributes the wrapper
    reads. *)
Record Part := { part_text : attr string }.
Record Content := { content_parts : attr (list Part) }.
Record Candidate := { candidate_content : attr Content }.
Record Response := {
  response_text : attr string;
  response_candidates : attr (list Candidate) }.

(** [genai.types.GenerationConfig] *)
Record GenerationConfig := {
  temperature : Q;
  max_output_tokens : Z;
  stop_sequences : option (list string) }.

(** The dictionary [generate] returns: ['text'], ['success'],
    ['tokens_used'], ['error']. *)
Record GenResult := {
  text : string;
  success : bool;
  tokens_used : nat;
  error : option string }.

(** A chat message: a dictionary that may lack ['role'] or ['content']. *)
Record Message := { role : option string; content : option string }.

(** The dictionary [get_status] returns. *)
Record Status := {
  st_enabled : bool;
  st_model : string;
  st_provider : string;
  st_tier : string;
  st_rate_limit : string;
  st_quality : string;
  st_api_keys_count : nat;
  st_current_key_index : nat;
  st_key_rotation : string }.

(** What [_configure_current_key] leaves behind: the credential [genai] is
    configured with and the model built on it. *)
Record Model := { configured_api_key : string; configured_model_name : string }.

(** An instance of [GeminiAI]. *)
Record GeminiAI := {
  api_keys : list string;
  current_key_index : nat;
  key_cooldowns : gmap nat Z;
  cooldown_duration : Z;
  model_name : string;
  model : Model;
  enabled : bool }.

Definition set_current_key_index (i : nat) (s : GeminiAI) : GeminiAI :=
  {| api_keys := api_keys s; current_key_index := i;
     key_cooldowns := key_cooldowns s; cooldown_duration := cooldown_duration s;
     model_name := model_name s; model := model s; enabled := enabled s |}.

Definition set_key_cooldowns (c : gmap nat Z) (s : GeminiAI) : GeminiAI :=
  {| api_keys := api_keys s; current_key_index := current_key_index s;
     key_cooldowns := c; cooldown_duration := cooldown_duration s;
     model_name := model_name s; model := model s; enabled := enabled s |}.

Definition set_model (m : Model) (s : GeminiAI) : GeminiAI :=
  {| api_keys := api_keys s; current_key_index := current_key_index s;
     key_cooldowns := key_cooldowns s; cooldown_duration := cooldown_duration s;
     model_name := model_name s; model := m; enabled := enabled s |}.

(** ** The outside world *)

(** The calls [generate] makes to the outside, in order.  [EvRotate] marks
    an invocation of [_rotate_key]. *)
Inductive event :=
| EvGenerateContent (m : Model) (prompt : string) (cfg : GenerationConfig)
| EvRotate
| EvFallback (prompt : string) (temperature : Q) (max_tokens : Z)
    (stop : option (list string)).

(** The behaviour of the outside: the clock, the provider and the secondary
    provider.  Each answer may depend on everything that happened before. *)
Record Env := {
  env_time : list event -> Z;
  env_generate_content :
    list event -> Model -> string -> GenerationConfig -> result Response;
  (** [from services.cloudflare_ai import ...] and
      [is_cloudflare_ai_enabled()] *)
  env_is_cloudflare_ai_enabled : list event -> result bool;
  (** [get_cloudflare_ai()] *)
  env_get_cloudflare_ai : list event -> result unit;
  (** [cf_ai.generate(prompt, temperature, max_tokens, stop=stop)] *)
  env_cloudflare_generate :
    list event -> string -> Q -> Z -> option (list string) -> result GenResult }.

(** ** The monad of the methods *)

(** A computation over a state [S] that returns or raises. *)
Definition ST (S A : Type) : Type := S -> result A * S.

Definition ret {S A} (a : A) : ST S A := fun m => (Ret a, m).
Definition raise {S A} (e : pyexn) : ST S A := fun m => (Raise e, m).
Definition bind {S A B} (c : ST S A) (k : A -> ST S B) : ST S B :=
  fun m =>
    match c m with
    | (Ret a, m') => k a m'
    | (Raise e, m') => (Raise e, m')
    end.
Definition lift {S A} (r : result A) : ST S A := fun m => (r, m).

(** [try: body except Exception as e: handler e] *)
Definition try_except {S A} (body : ST S A) (handler : pyexn -> ST S A) : ST S A :=
  fun m =>
    match body m with
    | (Ret a, m') => (Ret a, m')
    | (Raise e, m') => handler e m'
    end.

(** [try: body finally: final] *)
Definition try_finally {S A} (body : ST S A) (final : ST S unit) : ST S A :=
  fun m =>
    match body m with
    | (r, m') =>
        match final m' with
        | (Ret _, m'') => (r, m'')
        | (Raise e, m'') => (Raise e, m'')
        end
    end.

(** The state of the methods of [GeminiAI]: the instance and the calls made
    so far. *)
Record machine := { self : GeminiAI; trace : list event }.

Definition M (A : Type) : Type := ST machine A.

Definition get_self : M GeminiAI := fun m => (Ret (self m), m).
Definition modify_self (f : GeminiAI -> GeminiAI) : M unit :=
  fun m => (Ret tt, {| self := f (self m); trace := trace m |}).
Definition emit (ev : event) : M unit :=
  fun m => (Ret tt, {| self := self m; trace := trace m ++ [ev] |}).
Definition ask {A} (f : list event -> A) : M A := fun m => (Ret (f (trace m)), m).
Definition ask_result {A} (f : list event -> result A) : M A := fun m => (f (trace m), m).

Declare Scope py_scope.
Delimit Scope py_scope with py.
Notation "'let!' x ':=' c 'in' k" := (bind c (fun x => k))
  (at level 10, x pattern, c at level 100, k at level 200) : py_scope.
Notation "'let?' x ':=' c 'in' k" := (rbind c (fun x => k))
  (at level 10, x pattern, c at level 100, k at level 200) : py_scope.
Local Open Scope py_scope.

(** ** Extraction of the text of a response (lines 123-147 of the source) *)

(** The classes the two inner handlers catch:
    [except (IndexError, AttributeError, ValueError)]. *)
Definition caught_by_extraction (e : pyexn) : bool :=
  match exn_cls e with
  | IndexError | AttributeError | ValueError => true
  | OtherException => false
  end.

(** [try: body except (IndexError, AttributeError, ValueError): pass], where
    the body may assign [text]: on a caught exception [text] keeps the value
    it had. *)
Definition try_assign (text : string) (body : result string) : result string :=
  match body with
  | Ret t => Ret t
  | Raise e => if caught_by_extraction e then Ret text else Raise e
  end.

(** [if hasattr(response, 'text'): text = response.text] *)
Definition direct_text (response : Response) (text : string) : result string :=
  let? h := hasattr (response_text response) in
  if h then getattr "text" (response_text response) else Ret text.

(** The descent [response.candidates[0].content.parts[0].text], with its
    guards. *)
Definition nested_text (response : Response) (text : string) : result string :=
  let? h := hasattr (response_candidates response) in
  if negb h then Ret text else
  let? cs := getattr "candidates" (response_candidates response) in
  match cs with
  | [] => Ret text
  | _ :: _ =>
      if negb (0 <? length cs)%nat then Ret text else
      let? candidate := index0 cs in
      let? h := hasattr (candidate_content candidate) in
      if negb h then Ret text else
      let? content := getattr "content" (candidate_content candidate) in
      let? h := hasattr (content_parts content) in
      if negb h then Ret text else
      let? ps := getattr "parts" (content_parts content) in
      match ps with
      | [] => Ret text
      | _ :: _ =>
          if negb (0 <? length ps)%nat then Ret text else
          let? part := index0 ps in
          let? h := hasattr (part_text part) in
          if negb h then Ret text else
          getattr "text" (part_text part)
      end
  end.

Definition extract_text (response : Response) : result string :=
  let text := "" in
  let? text := try_assign text (direct_text response text) in
  if negb (PyStr.truthy text) then try_assign text (nested_text response text)
  else Ret text.

(** ** The methods of [GeminiAI] *)

Definition rate_limit_terms : list string :=
  ["rate limit"; "quota"; "429"; "resource exhausted"; "too many requests"; "rate_limit"].

(** [any(term in error_str for term in [...])] *)
Definition is_rate_limit_error (error_str : string) : bool :=
  existsb (fun term => PyStr.contains term error_str) rate_limit_terms.

(** The result returned when no text could be extracted. *)
Definition empty_response_result : GenResult :=
  {| text := ""; success := false; tokens_used := 0; error := Some "Empty response from API" |}.

(** [str(last_error)]; [last_error] is [None] until an attempt failed. *)
Definition str_last_error (last_error : option pyexn) : string :=
  match last_error with
  | Some e => exn_str e
  | None => "None"
  end.

(** The result returned when the retry loop and the fallback failed. *)
Definition failure_result (last_error : option pyexn) : GenResult :=
  {| text := ""; success := false; tokens_used := 0;
     error := Some (str_last_error last_error) |}.

(** How one turn of the retry loop ends. *)
Inductive loop_ctl :=
| Return (r : GenResult)
| Continue
| Break.

(** [api_key = self.api_keys[self.current_key_index]],
    [genai.configure(api_key=api_key)] and
    [genai.GenerativeModel(self.model_name)]. *)
Definition configure (keys : list string) (index : nat) (name : string) : result Model :=
  match keys !! index with
  | None => Raise (PyExn IndexError "list index out of range")
  | Some api_key => Ret {| configured_api_key := api_key; configured_model_name := name |}
  end.

(** [_configure_current_key] *)
Definition _configure_current_key : M unit :=
  let! s := get_self in
  let! m := lift (configure (api_keys s) (current_key_index s) (model_name s)) in
  modify_self (set_model m).

(** [__init__], from the values of the environment variables
    [GEMINI_API_KEYS] and [GEMINI_API_KEY] ([None] when unset). *)
Definition __init__ (GEMINI_API_KEYS GEMINI_API_KEY : option string) : result GeminiAI :=
  let api_keys_str := default "" GEMINI_API_KEYS in
  let keys := List.filter PyStr.truthy (map PyStr.strip (PyStr.split_on "," api_keys_str)) in
  let keys :=
    match keys with
    | [] =>
        let single_key := default "" GEMINI_API_KEY in
        if PyStr.truthy single_key then [single_key] else keys
    | _ => keys
    end in
  match keys with
  | [] =>
      Raise (PyExn ValueError
               ("No Gemini API keys found. Set GEMINI_API_KEYS (comma-separated) or GEMINI_API_KEY in .env"
                +:+ PyStr.LF +:+
                "Get free key from: https://makersuite.google.com/app/apikey"))
  | _ =>
      let name := "gemini-2.0-flash" in
      let? m := configure keys 0 name in
      Ret {| api_keys := keys; current_key_index := 0; key_cooldowns := ∅;
             cooldown_duration := 60; model_name := name; model := m;
             enabled := true |}
  end.

(** [_messages_to_prompt] *)
Definition prompt_part (msg : Message) : list string :=
  let r := default "user" (role msg) in
  let c := default "" (content msg) in
  if String.eqb r "system" then ["System Instructions: " +:+ c +:+ PyStr.LF]
  else if String.eqb r "user" then ["User: " +:+ c +:+ PyStr.LF]
  else if String.eqb r "assistant" then ["Assistant: " +:+ c +:+ PyStr.LF]
  else [].

Definition _messages_to_prompt (messages : list Message) : string :=
  let prompt_parts := (concat (map prompt_part messages) ++ ["Assistant: "])%list in
  PyStr.join PyStr.LF prompt_parts.

(** [get_status] *)
Definition get_status : M Status :=
  let! s := get_self in
  ret {| st_enabled := enabled s;
         st_model := model_name s;
         st_provider := "Google Gemini";
         st_tier := "Free";
         st_rate_limit := "15 requests/minute, 1500 requests/day";
         st_quality := "Excellent";
         st_api_keys_count := length (api_keys s);
         st_current_key_index := (current_key_index s + 1)%nat;
         st_key_rotation := if (1 <? length (api_keys s))%nat then "enabled" else "disabled" |}.

Section Methods.

Variable E : Env.

(** The loop of [_rotate_key], [n] turns being left: [true] when a turn
    returned [True]. *)
Fixpoint _rotate_key_scan (n : nat) (current_time : Z) : M bool :=
  match n with
  | O => ret false
  | S n' =>
      let! s := get_self in
      let! _ := modify_self (set_current_key_index
                   ((current_key_index s + 1) mod length (api_keys s))%nat) in
      let! s := get_self in
      let cooldown_time := default 0 (key_cooldowns s !! current_key_index s) in
      if cooldown_duration s <=? current_time - cooldown_time then
        let! _ := _configure_current_key in
        ret true
      else _rotate_key_scan n' current_time
  end.

(** [_rotate_key] *)
Definition _rotate_key : M bool :=
  let! s := get_self in
  if (length (api_keys s) <=? 1)%nat then ret false else
  let! current_time := ask (env_time E) in
  let original_index := current_key_index s in
  let! _ := modify_self (fun s =>
              set_key_cooldowns (<[current_key_index s := current_time]> (key_cooldowns s)) s) in
  let! found := _rotate_key_scan (length (api_keys s)) current_time in
  if found then ret true else
  let! _ := modify_self (set_current_key_index original_index) in
  ret false.

(** [self.model.generate_content(prompt, generation_config=...)] *)
Definition generate_content (prompt : string) (cfg : GenerationConfig) : M Response :=
  let! s := get_self in
  let! r := ask (fun h => env_generate_content E h (model s) prompt cfg) in
  let! _ := emit (EvGenerateContent (model s) prompt cfg) in
  lift r.

(** [stop if stop else None] *)
Definition stop_or_none (stop : option (list string)) : option (list string) :=
  match stop with
  | Some (_ :: _) => stop
  | _ => None
  end.

(** One turn of the retry loop of [generate]: the [try] block and its
    handler.  [last_error] is the local variable of that name. *)
Definition generate_attempt (prompt : string) (temperature : Q) (max_tokens : Z)
    (stop : option (list string)) (last_error : option pyexn)
    : M (loop_ctl * option pyexn) :=
  try_except
    (let generation_config :=
       {| temperature := temperature; max_output_tokens := max_tokens;
          stop_sequences := stop_or_none stop |} in
     let! response := generate_content prompt generation_config in
     let! text := lift (extract_text response) in
     if negb (PyStr.truthy text) then ret (Return empty_response_result, last_error)
     else
       let tokens_used :=
         (length (PyStr.split_ws text) + length (PyStr.split_ws prompt))%nat in
       let result :=
         {| text := text; success := true; tokens_used := tokens_used; error := None |} in
       ret (Return result, last_error))
    (fun e =>
       let error_str := PyStr.lower (exn_str e) in
       let last_error := Some e in
       let is_rate_limit := is_rate_limit_error error_str in
       let! rotated :=
         (if is_rate_limit then let! _ := emit EvRotate in _rotate_key else ret false) in
       if rotated then ret (Continue, last_error) else ret (Break, last_error)).

(** [for attempt in range(max_retries)], [n] turns being left: the result
    returned from inside the loop, if any, and [last_error]. *)
Fixpoint generate_loop (n : nat) (prompt : string) (temperature : Q) (max_tokens : Z)
    (stop : option (list string)) (last_error : option pyexn)
    : M (option GenResult * option pyexn) :=
  match n with
  | O => ret (None, last_error)
  | S n' =>
      let! (ctl, last_error) :=
        generate_attempt prompt temperature max_tokens stop last_error in
      match ctl with
      | Return r => ret (Some r, last_error)
      | Continue => generate_loop n' prompt temperature max_tokens stop last_error
      | Break => ret (None, last_error)
      end
  end.

(** The fallback to Cloudflare AI (lines 191-202): the result to return,
    if the fallback gave one. *)
Definition cloudflare_fallback (prompt : string) (temperature : Q) (max_tokens : Z)
    (stop : option (list string)) : M (option GenResult) :=
  try_except
    (let! on := ask_result (env_is_cloudflare_ai_enabled E) in
     if on then
       let! cf_ai := ask_result (env_get_cloudflare_ai E) in
       let! r := ask (fun h => env_cloudflare_generate E h prompt temperature max_tokens stop) in
       let! _ := emit (EvFallback prompt temperature max_tokens stop) in
       let! result := lift r in
       if success result then ret (Some result) else ret None
     else ret None)
    (fun fallback_error => ret None).

(** [generate] *)
Definition generate (prompt : string) (temperature : Q) (max_tokens : Z)
    (stop : option (list string)) : M GenResult :=
  let! s := get_self in
  let max_retries := length (api_keys s) in
  let! (returned, last_error) :=
    generate_loop max_retries prompt temperature max_tokens stop None in
  match returned with
  | Some result => ret result
  | None =>
      let! fb := cloudflare_fallback prompt temperature max_tokens stop in
      match fb with
      | Some result => ret result
      | None => ret (failure_result last_error)
      end
  end.

(** [str(x)] for the value under ['error']. *)
Definition str_error (x : option string) : string := default "None" x.

(** [chat]; the default of [stop] in [generate] is [None]. *)
Definition chat (messages : list Message) (temperature : Q) (max_tokens : Z) : M string :=
  try_except
    (let prompt := _messages_to_prompt messages in
     let! result := generate prompt temperature max_tokens None in
     if success result then ret (text result)
     else raise (PyExn OtherException (str_error (error result))))
    (fun e => raise e).

End Methods.

(** ** The admin seeder ([init_admin.py]) *)

Module InitAdmin.

(** A value of the [preferences] dictionary. *)
Inductive pref := PStr (s : string) | PBool (b : bool).

(** Modelled from the spec: the user entity of [models/user.py], which is
    not among the sources.  The spec says the seeder constructs "a new
    user record with a fixed username, password, email, and a preferences
    payload"; the record keeps the four values it is built from, and the
    lookups compare [email] and [username] with what was given. *)
Record User := {
  username : string;
  password : string;
  email : string;
  preferences : list (string * pref) }.

(** The calls made on the session, in order. *)
Inductive db_call :=
| QueryByEmail (e : string)
| QueryByUsername (u : string)
| Add (u : User)
| Commit
| Rollback
| Close.

(** The user store seen through one session: the rows stored, the rows
    added and not yet committed, the calls made, and the lines printed. *)
Record db := {
  rows : list User;
  pending : list User;
  calls : list db_call;
  stdout : list string }.

(** Which calls of the session fail: a lookup or a commit may raise,
    depending on the calls made before. *)
Record Faults := {
  query_raises : list db_call -> option pyexn;
  commit_raises : list db_call -> option pyexn }.

Definition called (c : db_call) (d : db) : db :=
  {| rows := rows d; pending := pending d; calls := calls d ++ [c]; stdout := stdout d |}.

Definition print (line : string) : ST db unit :=
  fun d => (Ret tt, {| rows := rows d; pending := pending d; calls := calls d;
                       stdout := stdout d ++ [line] |}).

Section Session.

Variable F : Faults.

(** [db.query(User).filter_by(...).first()] *)
Definition query_first (c : db_call) (p : User -> bool) : ST db (option User) :=
  fun d =>
    match query_raises F (calls d) with
    | Some e => (Raise e, called c d)
    | None => (Ret (List.find p (rows d)), called c d)
    end.

(** [db.add(u)] *)
Definition add (u : User) : ST db unit :=
  fun d => (Ret tt, called (Add u)
              {| rows := rows d; pending := pending d ++ [u]; calls := calls d;
                 stdout := stdout d |}).

(** [db.commit()] *)
Definition commit : ST db unit :=
  fun d =>
    match commit_raises F (calls d) with
    | Some e => (Raise e, called Commit d)
    | None => (Ret tt, called Commit
                 {| rows := rows d ++ pending d; pending := []; calls := calls d;
                    stdout := stdout d |})
    end.

(** [db.rollback()] *)
Definition rollback : ST db unit :=
  fun d => (Ret tt, called Rollback
              {| rows := rows d; pending := []; calls := calls d; stdout := stdout d |}).

(** [db.close()] *)
Definition close : ST db unit :=
  fun d => (Ret tt, called Close
              {| rows := rows d; pending := []; calls := calls d; stdout := stdout d |}).

Definition admin_user : User :=
  {| username := "admin";
     password := "Admin@123";
     email := "admin@test.com";
     preferences :=
       [("role", PStr "admin"); ("tier", PStr "premium"); ("is_admin", PBool true);
        ("unlimited_access", PBool true); ("all_features_enabled", PBool true)] |}.

(** [create_admin_user], on the session [SessionLocal()] gave. *)
Definition create_admin_user : ST db unit :=
  try_finally
    (try_except
       (let! admin := query_first (QueryByEmail "admin@test.com")
                        (fun u => String.eqb (email u) "admin@test.com") in
        match admin with
        | Some _ => print "Admin user already exists!"
        | None =>
            let! admin := query_first (QueryByUsername "admin")
                            (fun u => String.eqb (username u) "admin") in
            match admin with
            | Some _ => print "Admin user (by username) already exists!"
            | None =>
                let! _ := add admin_user in
                let! _ := commit in
                let! _ := print "✅ Admin user created successfully!" in
                let! _ := print "   Email: admin@test.com" in
                print "   Password: Admin@123"
            end
        end)
       (fun e =>
          let! _ := rollback in
          print ("❌ Error creating admin: " +:+ exn_str e)))
    close.

End Session.

(** [SessionLocal()]: a new session on the rows stored. *)
Definition SessionLocal (stored : list User) : db :=
  {| rows := stored; pending := []; calls := []; stdout := [] |}.

(** One run of the script's [create_admin_user()] on the rows stored: the
    session at its end. *)
Definition run (F : Faults) (stored : list User) : db :=
  snd (create_admin_user F (SessionLocal stored)).

Definition is_insert (c : db_call) : bool :=
  match c with Add _ | Commit => true | _ => false end.

Definition no_faults : Faults :=
  {| query_raises := fun _ => None; commit_raises := fun _ => None |}.

End InitAdmin.

(** ** What the properties speak of *)

(** The test of [_rotate_key] on a candidate [j]: the time since its last
    mark is at least the cooldown; an index never marked counts as marked at
    time 0. *)
Definition eligible (s : GeminiAI) (current_time : Z) (j : nat) : bool :=
  cooldown_duration s <=? current_time - default 0 (key_cooldowns s !! j).

(** The candidates of one full cycle from index [i] in a pool of [n] keys:
    [i+1], [i+2], ..., wrapping around, [i] itself last. *)
Definition candidates (n i : nat) : list nat :=
  map (fun k => ((i + k) mod n)%nat) (seq 1 n).

(** The instance after [_rotate_key] marked the active index at
    [current_time]. *)
Definition marked (current_time : Z) (s : GeminiAI) : GeminiAI :=
  set_key_cooldowns (<[current_key_index s := current_time]> (key_cooldowns s)) s.

(** The instance after index [j], holding the credential [api_key], was
    selected. *)
Definition selected (j : nat) (api_key : string) (s : GeminiAI) : GeminiAI :=
  set_model {| configured_api_key := api_key; configured_model_name := model_name s |}
    (set_current_key_index j s).

(** The invariant of the active index. *)
Definition valid_index (s : GeminiAI) : Prop :=
  (current_key_index s < length (api_keys s))%nat.

Definition is_rotate (ev : event) : bool :=
  match ev with EvRotate => true | _ => false end.

Definition is_fallback (ev : event) : bool :=
  match ev with EvFallback _ _ _ _ => true | _ => false end.

Definition is_generate_content (ev : event) : bool :=
  match ev with EvGenerateContent _ _ _ => true | _ => false end.

(** How often [_rotate_key] was invoked in a log. *)
Definition rotations (tr : list event) : nat := length (List.filter is_rotate tr).

(** How often the secondary provider was called in a log. *)
Definition fallback_calls (tr : list event) : nat := length (List.filter is_fallback tr).

(** How often the provider was called in a log. *)
Definition provider_calls (tr : list event) : nat :=
  length (List.filter is_generate_content tr).

Section Reach.

Variable E : Env.

(** [rotated s s']: [s'] is [s] after some invocations of [_rotate_key],
    and nothing else. *)
Inductive rotated : GeminiAI -> GeminiAI -> Prop :=
| rotated_refl s : rotated s s
| rotated_step s tr b m' s'' :
    _rotate_key E {| self := s; trace := tr |} = (Ret b, m') ->
    rotated (self m') s'' ->
    rotated s s''.

End Reach.

(** The provider raises a rate-limit error whatever it is called with. *)
Definition always_rate_limited (E : Env) : Prop :=
  forall h m prompt cfg,
    exists e, env_generate_content E h m prompt cfg = Raise e /\
              is_rate_limit_error (PyStr.lower (exn_str e)) = true.

(** The configuration [generate] builds. *)
Definition generation_config (temperature : Q) (max_tokens : Z)
    (stop : option (list string)) : GenerationConfig :=
  {| temperature := temperature; max_output_tokens := max_tokens;
     stop_sequences := stop_or_none stop |}.

(** The result of a successful generation of [text] for [prompt]. *)
Definition success_result (prompt text : string) : GenResult :=
  {| text := text; success := true;
     tokens_used := (length (PyStr.split_ws text) + length (PyStr.split_ws prompt))%nat;
     error := None |}.

(** The machine after an event. *)
Definition after (ev : event) (m : machine) : machine :=
  {| self := self m; trace := trace m ++ [ev] |}.

(** What the [try] block of a turn of the retry loop comes to on machine
    [m]: the text extracted from the provider's response, or the exception
    raised on the way (by the provider, or by an accessor of the response
    outside the classes the extraction catches). *)
Definition attempt_text (E : Env) (m : machine) (prompt : string)
    (cfg : GenerationConfig) : result string :=
  let? response := env_generate_content E (trace m) (model (self m)) prompt cfg in
  extract_text response.

(** The result a turn returns once the extraction gave [text]. *)
Definition result_of_text (prompt text : string) : GenResult :=
  if PyStr.truthy text then success_result prompt text else empty_response_result.

Section Runs.

Variable E : Env.
Variables (prompt : string) (temperature : Q) (max_tokens : Z)
          (stop : option (list string)).

Let cfg := generation_config temperature max_tokens stop.
Let called (m : machine) := after (EvGenerateContent (model (self m)) prompt cfg) m.

(** [loop_run n le m out m']: the retry loop with [n] turns left, started
    on machine [m] with [last_error = le], ends on machine [m'] with
    outcome [out] (the result returned from inside the loop, if any, and
    [last_error]). *)
Inductive loop_run :
  nat -> option pyexn -> machine -> option GenResult * option pyexn -> machine -> Prop :=
| run_exhausted le m :
    loop_run 0 le m (None, le) m
| run_return n le m text :
    attempt_text E m prompt cfg = Ret text ->
    loop_run (S n) le m (Some (result_of_text prompt text), le) (called m)
| run_other_error n le m e :
    attempt_text E m prompt cfg = Raise e ->
    is_rate_limit_error (PyStr.lower (exn_str e)) = false ->
    loop_run (S n) le m (None, Some e) (called m)
| run_no_key_left n le m e m2 :
    attempt_text E m prompt cfg = Raise e ->
    is_rate_limit_error (PyStr.lower (exn_str e)) = true ->
    _rotate_key E (after EvRotate (called m)) = (Ret false, m2) ->
    loop_run (S n) le m (None, Some e) m2
| run_rotated n le m e m2 out m' :
    attempt_text E m prompt cfg = Raise e ->
    is_rate_limit_error (PyStr.lower (exn_str e)) = true ->
    _rotate_key E (after EvRotate (called m)) = (Ret true, m2) ->
    loop_run n (Some e) m2 out m' ->
    loop_run (S n) le m out m'.

End Runs.

(** What the fallback block comes to on machine [m]: the result of the
    secondary provider when it was called and reported success. *)
Definition fallback_result (E : Env) (m : machine) (prompt : string) (temperature : Q)
    (max_tokens : Z) (stop : option (list string)) : option GenResult :=
  match env_cloudflare_generate E (trace m) prompt temperature max_tokens stop with
  | Ret r => if success r then Some r else None
  | Raise _ => None
  end.

(** The secondary provider is configured and enabled on machine [m]: the
    import and [is_cloudflare_ai_enabled()] give [True], and
    [get_cloudflare_ai()] gives the client. *)
Definition fallback_available (E : Env) (m : machine) : bool :=
  match env_is_cloudflare_ai_enabled E (trace m), env_get_cloudflare_ai E (trace m) with
  | Ret true, Ret _ => true
  | _, _ => false
  end.

(** ** The extraction of the text, as the specification words it *)

(** The value of an attribute that is there and readable. *)
Definition readable {A} (a : attr A) : option A :=
  match a with
  | Has v => Some v
  | _ => None
  end.

(** The text of the direct field, when it yields one. *)
Definition spec_direct_text (r : Response) : option string :=
  match readable (response_text r) with
  | Some s => if PyStr.truthy s then Some s else None
  | None => None
  end.

(** The text at the end of the path candidates[0].content.parts[0].text,
    when the path is there and yields one. *)
Definition spec_nested_text (r : Response) : option string :=
  cs ← readable (response_candidates r);
  c ← head cs;
  ct ← readable (candidate_content c);
  ps ← readable (content_parts ct);
  p ← head ps;
  s ← readable (part_text p);
  if PyStr.truthy s then Some s else None.

(** "Attempt a direct text field first; if absent or inaccessible, attempt
    to descend into the candidate/content/parts path; if both fail": the
    text, or the empty string. *)
Definition spec_extract_text (r : Response) : string :=
  match spec_direct_text r with
  | Some s => s
  | None => default "" (spec_nested_text r)
  end.

(** The direct field yields no text: it is absent, its accessor raises one
    of the exceptions the extraction catches, or it is empty. *)
Definition direct_unavailable (r : Response) : Prop :=
  match response_text r with
  | Absent => True
  | Fails e => caught_by_extraction e = true
  | Has s => s = ""
  end.

(** An attribute that is inaccessible is so by one of the exceptions the
    extraction catches. *)
Definition tolerable {A} (a : attr A) : bool :=
  match a with
  | Fails e => caught_by_extraction e
  | _ => true
  end.

(** Every attribute on the two paths is there, absent, or inaccessible by
    one of the exceptions the extraction catches. *)
Definition tolerated (r : Response) : bool :=
  tolerable (response_text r) && tolerable (response_candidates r) &&
  match response_candidates r with
  | Has (c :: _) =>
      tolerable (candidate_content c) &&
      match candidate_content c with
      | Has ct =>
          tolerable (content_parts ct) &&
          match content_parts ct with
          | Has (p :: _) => tolerable (part_text p)
          | _ => true
          end
      | _ => true
      end
  | _ => true
  end.

(** What the [try] block of a turn comes to when the provider is called with
    the model [mdl] after the calls [h]: [attempt_text E m] is
    [attempt_outcome E (trace m) (model (self m))]. *)
Definition attempt_outcome (E : Env) (h : list event) (mdl : Model) (prompt : string)
    (cfg : GenerationConfig) : result string :=
  let? response := env_generate_content E h mdl prompt cfg in
  extract_text response.

(** ** The module-level accessors of [gemini_ai.py] *)

(** [get_gemini_ai], over the module's global [_gemini_ai] ([None] while the
    name is not among [globals()]) and the values the two environment
    variables have when it is called. *)
Definition get_gemini_ai (GEMINI_API_KEYS GEMINI_API_KEY : option string)
    : ST (option GeminiAI) GeminiAI :=
  let! _ :=
    (fun g : option GeminiAI =>
       match g with
       | None =>
           match __init__ GEMINI_API_KEYS GEMINI_API_KEY with
           | Ret s => (Ret tt, Some s)
           | Raise e => (Raise e, g)
           end
       | Some _ => (Ret tt, g)
       end) in
  fun g =>
    match g with
    | Some s => (Ret s, g)
    | None => (Raise (PyExn OtherException "name '_gemini_ai' is not defined"), g)
    end.

(** [is_gemini_enabled], from the value of [USE_GEMINI] ([None] when
    unset). *)
Definition is_gemini_enabled (USE_GEMINI : option string) : bool :=
  String.eqb (PyStr.lower (default "false" USE_GEMINI)) "true".

(** ** More of what the properties speak of *)

(** The model is the one [_configure_current_key] builds for the active
    index. *)
Definition coherent (s : GeminiAI) : Prop :=
  api_keys s !! current_key_index s = Some (configured_api_key (model s)) /\
  configured_model_name (model s) = model_name s.

(** The credentials the provider was called with in a log, in order. *)
Fixpoint credentials (tr : list event) : list string :=
  match tr with
  | [] => []
  | EvGenerateContent m _ _ :: tr' => configured_api_key m :: credentials tr'
  | _ :: tr' => credentials tr'
  end.

(** An event [generate] may log for the request
    [(prompt, temperature, max_tokens, stop)] on an instance with the pool
    [keys] and the model name [name]: a provider call with a credential of
    the pool, the prompt and the configuration built from the request; a
    rotation; a call of the secondary provider with the request as given. *)
Definition event_of_request (keys : list string) (name : string) (prompt : string)
    (temperature : Q) (max_tokens : Z) (stop : option (list string)) (ev : event) : Prop :=
  match ev with
  | EvGenerateContent mdl p cfg =>
      In (configured_api_key mdl) keys /\ configured_model_name mdl = name /\
      p = prompt /\ cfg = generation_config temperature max_tokens stop
  | EvRotate => True
  | EvFallback p t mt st =>
      p = prompt /\ t = temperature /\ mt = max_tokens /\ st = stop
  end.

(** The roles [_messages_to_prompt] gives a line to. *)
Definition role_label (msg : Message) : option string :=
  let r := default "user" (role msg) in
  if String.eqb r "system" then Some "System Instructions: "
  else if String.eqb r "user" then Some "User: "
  else if String.eqb r "assistant" then Some "Assistant: "
  else None.

(** *** White space, in the words of the Python documentation *)

(** A string of white-space characters and nothing else (the empty string
    included). *)
Inductive blank : string -> Prop :=
| blank_empty : blank ""
| blank_space w s : In w PyStr.whitespace -> blank s -> blank (w +:+ s).

(** [s] has a white-space character at its start; at its end. *)
Definition starts_with_space (s : string) : Prop :=
  exists w r, In w PyStr.whitespace /\ s = w +:+ r.

Definition ends_with_space (s : string) : Prop :=
  exists p w, In w PyStr.whitespace /\ s = p +:+ w.

(** What [f.strip()] is to give: [k] is [f] with the leading and the trailing
    white space removed. *)
Definition trimmed (f k : string) : Prop :=
  exists l r, f = l +:+ k +:+ r /\ blank l /\ blank r /\
              ~ starts_with_space k /\ ~ ends_with_space k.

(** What [s.split(',')] is to give: the fields [s] is made of, in order,
    with a comma between two of them and none inside; at least one field. *)
Definition comma_free (f : string) : Prop :=
  ~ In ","%char (String.list_ascii_of_string f).

Definition fields_of (s : string) (fields : list string) : Prop :=
  fields <> [] /\ Forall comma_free fields /\ s = PyStr.join "," fields.

(** A word: not empty, and no white-space character in it. *)
Definition word (w : string) : Prop :=
  w <> "" /\ forall x, In x PyStr.whitespace -> PyStr.contains x w = false.

(** What [s.split()] is to give: [s] is white space, a word, white space,
    a word, ..., with white space between two words; leading and trailing
    white space gives no word. *)
Inductive words_of : string -> list string -> Prop :=
| words_none b : blank b -> words_of b []
| words_cons b w s ws :
    blank b -> word w -> (s <> "" -> starts_with_space s) -> words_of s ws ->
    words_of (b +:+ w +:+ s) (w :: ws).

(** A continuation byte of UTF-8. *)
Definition is_continuation (c : ascii) : bool :=
  let n := nat_of_ascii c in ((128 <=? n)%nat && (n <? 192)%nat)%bool.

(** No white-space character begins inside [w], when [s] follows. *)
Definition clean (w s : string) : Prop :=
  forall p1 p2, w = p1 +:+ p2 -> p2 <> "" -> ~ starts_with_space (p2 +:+ s).

(** The no-break space U+00A0, as it stands in a string. *)
Definition nbsp : string := PyStr.utf8 0xA0.

(** A row the lookups of the seeder match. *)
Definition is_admin_row (u : InitAdmin.User) : bool :=
  String.eqb (InitAdmin.email u) "admin@test.com" ||
  String.eqb (InitAdmin.username u) "admin".

(** The run met a failure of the store: a lookup or the commit raised. *)
Definition run_failed (d : InitAdmin.db) : bool :=
  existsb (fun c => match c with InitAdmin.Rollback => true | _ => false end)
    (InitAdmin.calls d).

(** [k] runs of the seeder in sequence, the [i]-th (counting down) under the
    faults [F i]. *)
Fixpoint runs (F : nat -> InitAdmin.Faults) (k : nat) (stored : list InitAdmin.User)
    : list InitAdmin.User :=
  match k with
  | O => stored
  | S k' => runs F k' (InitAdmin.rows (InitAdmin.run (F k') stored))
  end.

(** ** Concrete instances, environments and responses *)

Definition flash : string := "gemini-2.0-flash".

(** An instance as [__init__] builds it from [keys], the first of which is
    [key0]. *)
Definition fresh (key0 : string) (keys : list string) : GeminiAI :=
  {| api_keys := keys; current_key_index := 0; key_cooldowns := ∅;
     cooldown_duration := 60; model_name := flash;
     model := {| configured_api_key := key0; configured_model_name := flash |};
     enabled := true |}.

Definition one_key : GeminiAI := fresh "k1" ["k1"].
Definition two_keys : GeminiAI := fresh "k1" ["k1"; "k2"].
Definition three_keys : GeminiAI := fresh "k1" ["k1"; "k2"; "k3"].

Definition start (s : GeminiAI) : machine := {| self := s; trace := [] |}.

Definition quota_error : pyexn :=
  PyExn OtherException "429 Resource exhausted: Quota exceeded".
Definition network_error : pyexn :=
  PyExn OtherException "503 Service Unavailable".

Definition cloudflare_answer : GenResult :=
  {| text := "from cloudflare"; success := true; tokens_used := 3; error := None |}.

(** The clock stands at 1000 s; the provider answers every call with a quota
    error; the secondary provider is disabled. *)
Definition E_rate_limited : Env :=
  {| env_time := fun _ => 1000;
     env_generate_content := fun _ _ _ _ => Raise quota_error;
     env_is_cloudflare_ai_enabled := fun _ => Ret false;
     env_get_cloudflare_ai := fun _ => Ret tt;
     env_cloudflare_generate := fun _ _ _ _ _ => Raise network_error |}.

(** The provider answers every call with [r]; the secondary provider is
    enabled and answers [cloudflare_answer]. *)
Definition E_answers (r : result Response) : Env :=
  {| env_time := fun _ => 1000;
     env_generate_content := fun _ _ _ _ => r;
     env_is_cloudflare_ai_enabled := fun _ => Ret true;
     env_get_cloudflare_ai := fun _ => Ret tt;
     env_cloudflare_generate := fun _ _ _ _ _ => Ret cloudflare_answer |}.

(** A response with the text on the nested path only. *)
Definition nested_only (s : string) : Response :=
  {| response_text := Absent;
     response_candidates :=
       Has [{| candidate_content :=
                 Has {| content_parts := Has [{| part_text := Has s |}] |} |}] |}.

(** A response as the SDK gives it when the answer was blocked: its [text]
    accessor raises [ValueError] and it has no candidate. *)
Definition blocked_response : Response :=
  {| response_text := Fails (PyExn ValueError "response.text requires a valid Part");
     response_candidates := Has [] |}.

(** As [E_rate_limited], but a minute passes between two invocations of
    [_rotate_key]. *)
Definition E_slow_rate_limited : Env :=
  {| env_time := fun h => 1000 + 60 * Z.of_nat (rotations h);
     env_generate_content := fun _ _ _ _ => Raise quota_error;
     env_is_cloudflare_ai_enabled := fun _ => Ret false;
     env_get_cloudflare_ai := fun _ => Ret tt;
     env_cloudflare_generate := fun _ _ _ _ _ => Raise network_error |}.

(** Three keys, the second active, the third marked at time 990. *)
Definition three_keys_cooling : GeminiAI :=
  {| api_keys := ["k1"; "k2"; "k3"]; current_key_index := 1;
     key_cooldowns := {[ 2%nat := 990 ]};
     cooldown_duration := 60; model_name := flash;
     model := {| configured_api_key := "k2"; configured_model_name := flash |};
     enabled := true |}.

(** * Properties *)

Ltac unfold_st :=
  unfold bind, ret, raise, lift, try_except, try_finally,
         get_self, modify_self, emit, ask, ask_result in *.

(** ** Strings *)

Lemma startswith_spec p s :
  PyStr.startswith p s = true <-> exists b, s = p +:+ b.
Proof.
  revert s. induction p as [|a p IH]; intros s; simpl.
  - split; [intros _; by exists s | done].
  - destruct s as [|c s].
    + split; [done | intros [b Hb]; discriminate].
    + destruct (Ascii.eqb a c) eqn:Hac.
      * apply Ascii.eqb_eq in Hac as ->. rewrite IH. split.
        -- intros [b ->]. by exists b.
        -- intros [b Hb]. injection Hb as ->. by exists b.
      * apply Ascii.eqb_neq in Hac. split; [done|].
        intros [b Hb]. injection Hb as -> _. done.
Qed.

Lemma contains_spec p s :
  PyStr.contains p s = true <-> exists a b, s = a +:+ p +:+ b.
Proof.
  induction s as [|c s IH]; simpl.
  - rewrite orb_false_r, startswith_spec. split.
    + intros [b Hb]. by exists "", b.
    + intros [a [b Hab]]. destruct a; simpl in Hab; [by exists b | discriminate].
  - rewrite orb_true_iff, startswith_spec, IH. split.
    + intros [[b Hb] | [a [b Hab]]].
      * by exists "", b.
      * exists (String c a), b. simpl. by rewrite Hab.
    + intros [a [b Hab]]. destruct a as [|c' a]; simpl in Hab.
      * left. by exists b.
      * right. injection Hab as _ ->. by exists a, b.
Qed.

(** ** Rotation *)

Lemma eligible_set_index s t i j :
  eligible (set_current_key_index i s) t j = eligible s t j.
Proof. reflexivity. Qed.

Lemma candidate_shift (n i : nat) (l : list nat) :
  map (fun k => (((i + 1) mod n + k) mod n)%nat) l =
  map (fun k => ((i + k) mod n)%nat) (map S l).
Proof.
  rewrite map_map. apply map_ext. intros k.
  destruct n as [|n]; [simpl; lia|].
  rewrite Nat.Div0.add_mod_idemp_l. f_equal. lia.
Qed.

(** The scan of [_rotate_key]: it stops at the first eligible candidate,
    which it selects and configures; with none among the [n] it tried, it
    only moved the index. *)
Lemma rotate_scan_spec n t m :
  (0 < length (api_keys (self m)))%nat ->
  match List.find (eligible (self m) t)
          (map (fun k => ((current_key_index (self m) + k) mod length (api_keys (self m)))%nat)
               (seq 1 n)) with
  | Some j =>
      exists api_key, api_keys (self m) !! j = Some api_key /\
        _rotate_key_scan n t m =
          (Ret true, {| self := selected j api_key (self m); trace := trace m |})
  | None =>
      exists i, _rotate_key_scan n t m =
          (Ret false, {| self := set_current_key_index i (self m); trace := trace m |}) /\
        (i = current_key_index (self m) \/ (i < length (api_keys (self m)))%nat)
  end.
Proof.
  revert m. induction n as [|n IH]; intros [s tr] Hlen; simpl in *.
  - exists (current_key_index s). split; [|by left]. by destruct s.
  - unfold_st. simpl.
    set (i1 := ((current_key_index s + 1) mod length (api_keys s))%nat).
    change (cooldown_duration s <=? t - default 0 (key_cooldowns s !! i1))
      with (eligible s t i1).
    destruct (eligible s t i1) eqn:Hel.
    + assert (Hi1 : (i1 < length (api_keys s))%nat) by (apply Nat.mod_upper_bound; lia).
      destruct (lookup_lt_is_Some_2 _ _ Hi1) as [key Hkey].
      exists key. split; [done|].
      unfold _configure_current_key, configure. unfold_st. simpl. fold i1. by rewrite Hkey.
    + specialize (IH {| self := set_current_key_index i1 s; trace := tr |} Hlen).
      simpl in IH. unfold i1 in IH at 2.
      rewrite candidate_shift, seq_shift in IH.
      destruct (List.find _ _) as [j|].
      * destruct IH as [key [Hkey Hscan]]. exists key. split; [done|].
        rewrite Hscan. reflexivity.
      * destruct IH as [i [Hscan Hi]]. exists i. rewrite Hscan. split; [reflexivity|].
        right. destruct Hi as [-> | Hi]; [|done].
        apply Nat.mod_upper_bound; lia.
Qed.

Lemma find_seq_first {A} (p : A -> bool) (f : nat -> A) (a n : nat) :
  match List.find p (map f (seq a n)) with
  | Some x =>
      exists k, (a <= k < a + n)%nat /\ x = f k /\ p x = true /\
                forall k', (a <= k' < k)%nat -> p (f k') = false
  | None => forall k, (a <= k < a + n)%nat -> p (f k) = false
  end.
Proof.
  revert a. induction n as [|n IH]; intros a; simpl.
  - intros k Hk. lia.
  - destruct (p (f a)) eqn:Hpa.
    + exists a. repeat split; [lia | lia | done | intros k' Hk'; lia].
    + specialize (IH (S a)). destruct (List.find p (map f (seq (S a) n))) as [x|].
      * destruct IH as [k [Hk [-> [Hp Hfirst]]]]. exists k.
        repeat split; [lia | lia | done |].
        intros k' Hk'. destruct (decide (k' = a)) as [-> | Hne]; [done|].
        apply Hfirst. lia.
      * intros k Hk. destruct (decide (k = a)) as [-> | Hne]; [done|].
        apply IH. lia.
Qed.

(** Every index of the pool is a candidate of the cycle. *)
Lemma candidate_cover (n i j : nat) :
  (j < n)%nat -> exists k, (1 <= k < 1 + n)%nat /\ j = ((i + k) mod n)%nat.
Proof.
  intros Hj.
  set (d := ((j + n - i mod n) mod n)%nat).
  assert (Hi : (i mod n < n)%nat) by (apply Nat.mod_upper_bound; lia).
  assert (Hd : (d < n)%nat) by (apply Nat.mod_upper_bound; lia).
  assert (Hjd : j = ((i + d) mod n)%nat).
  { unfold d. rewrite Nat.Div0.add_mod_idemp_r.
    rewrite <- Nat.Div0.add_mod_idemp_l.
    replace (i mod n + (j + n - i mod n))%nat with (j + 1 * n)%nat by lia.
    rewrite Nat.Div0.mod_add. symmetry. apply Nat.mod_small. done. }
  destruct (decide (d = 0%nat)) as [Hd0 | Hd0].
  - exists n. split; [lia|]. rewrite Hjd, Hd0.
    replace (i + n)%nat with (i + 1 * n)%nat by lia.
    rewrite Nat.Div0.mod_add. f_equal. lia.
  - exists d. split; [lia | done].
Qed.

(** [_rotate_key] on a pool of more than one key, by the first eligible
    candidate of the cycle. *)
Lemma rotate_key_find E m :
  (1 < length (api_keys (self m)))%nat ->
  let s1 := marked (env_time E (trace m)) (self m) in
  match List.find (eligible s1 (env_time E (trace m)))
          (candidates (length (api_keys (self m))) (current_key_index (self m))) with
  | Some j =>
      exists api_key, api_keys (self m) !! j = Some api_key /\
        _rotate_key E m = (Ret true, {| self := selected j api_key s1; trace := trace m |})
  | None =>
      _rotate_key E m = (Ret false, {| self := s1; trace := trace m |})
  end.
Proof.
  intros Hlen s1. destruct m as [s tr]. simpl in *.
  unfold _rotate_key. unfold_st. simpl.
  destruct (length (api_keys s) <=? 1)%nat eqn:Hle; [apply Nat.leb_le in Hle; lia|].
  cbn [self trace]. fold (marked (env_time E tr) s). fold s1.
  pose proof (rotate_scan_spec (length (api_keys s)) (env_time E tr)
                {| self := s1; trace := tr |}) as Hscan.
  simpl in Hscan. unfold candidates.
  destruct (List.find _ _) as [j|].
  - destruct Hscan as [key [Hkey Hs]]; [lia|]. exists key. split; [done|].
    by rewrite Hs.
  - destruct Hscan as [i [Hs _]]; [lia|]. rewrite Hs. simpl.
    unfold s1, marked. by destruct s.
Qed.

(** [_rotate_key] on a pool of at most one key. *)
Lemma rotate_key_single E m :
  (length (api_keys (self m)) <= 1)%nat -> _rotate_key E m = (Ret false, m).
Proof.
  intros Hlen. unfold _rotate_key. unfold_st.
  apply Nat.leb_le in Hlen. by rewrite Hlen.
Qed.

(** [_rotate_key] returns, and leaves the pool, the log, the cooldown
    duration and the model name as they were. *)
Lemma rotate_key_returns E m :
  exists b m', _rotate_key E m = (Ret b, m') /\
    trace m' = trace m /\
    api_keys (self m') = api_keys (self m) /\
    (valid_index (self m) -> valid_index (self m')).
Proof.
  destruct (decide (length (api_keys (self m)) <= 1)%nat) as [Hle | Hgt].
  - exists false, m. by rewrite rotate_key_single.
  - pose proof (rotate_key_find E m ltac:(lia)) as H. simpl in H.
    destruct (List.find _ _) as [j|].
    + destruct H as [key [Hkey ->]]. eexists _, _. split; [done|]. simpl.
      repeat split. intros _. unfold valid_index. simpl.
      by eapply lookup_lt_Some.
    + rewrite H. eexists _, _. split; [done|]. simpl. done.
Qed.

(** C2: on a pool of more than one key, whatever the cooldown table,
    [_rotate_key] first marks the active index with the current time, then
    tries the candidates [i+1], [i+2], ... (with wraparound, at most one full
    cycle) and selects the first whose time since its last mark is at least
    the cooldown duration, a key never marked being tested against the
    timestamp 0; the key it selects is never in cooldown, and it succeeds
    whenever some key of the pool is eligible; when no candidate of the cycle
    is eligible it puts the original index back and returns [False]. *)
Theorem rotate_key_spec (E : Env) (m : machine) :
  (1 < length (api_keys (self m)))%nat ->
  let s := self m in
  let n := length (api_keys s) in
  let i := current_key_index s in
  let now := env_time E (trace m) in
  exists b m',
    _rotate_key E m = (Ret b, m') /\
    trace m' = trace m /\
    key_cooldowns (self m') = <[i := now]> (key_cooldowns s) /\
    (b = true ->
       exists k api_key,
         (1 <= k <= n)%nat /\
         current_key_index (self m') = ((i + k) mod n)%nat /\
         eligible (self m') now ((i + k) mod n) = true /\
         (forall k', (1 <= k' < k)%nat -> eligible (self m') now ((i + k') mod n) = false) /\
         api_keys s !! ((i + k) mod n)%nat = Some api_key /\
         self m' = selected ((i + k) mod n) api_key (marked now s)) /\
    (b = false ->
       (forall k, (1 <= k <= n)%nat -> eligible (self m') now ((i + k) mod n) = false) /\
       current_key_index (self m') = i /\
       self m' = marked now s) /\
    (b = true <-> exists j, (j < n)%nat /\ eligible (marked now s) now j = true) /\
    (forall j, key_cooldowns (self m') !! j = None ->
       eligible (self m') now j = (cooldown_duration s <=? now - 0)).
Proof.
  intros Hlen s n i now.
  pose proof (rotate_key_find E m Hlen) as Hfind. simpl in Hfind.
  fold s n i now in Hfind. unfold candidates in Hfind.
  pose proof (find_seq_first (eligible (marked now s) now)
                (fun k => ((i + k) mod n)%nat) 1 n) as Hfirst.
  destruct (List.find _ _) as [j|].
  - destruct Hfind as [key [Hkey Hrot]].
    destruct Hfirst as [k [Hk [-> [Hel Hbefore]]]].
    exists true, {| self := selected ((i + k) mod n) key (marked now s); trace := trace m |}.
    split; [done|]. simpl. split; [done|]. split; [done|].
    split; [|split; [done|split]].
    + intros _. exists k, key. repeat split; try done; try lia.
    + split; [|done]. intros _. exists ((i + k) mod n)%nat. split; [|done].
      apply Nat.mod_upper_bound. lia.
    + intros j Hj. unfold eligible. simpl. by rewrite Hj.
  - exists false, {| self := marked now s; trace := trace m |}.
    split; [done|]. simpl. split; [done|]. split; [done|].
    split; [done|split; [|split]].
    + intros _. split; [|done]. intros k Hk. apply Hfirst. lia.
    + split; [done|]. intros [j [Hj Hel]].
      destruct (candidate_cover n i j Hj) as [k [Hk ->]].
      by rewrite Hfirst in Hel.
    + intros j Hj. unfold eligible. simpl. by rewrite Hj.
Qed.

Lemma rotate_key_spec_witness :
  exists m', _rotate_key E_rate_limited (start two_keys) = (Ret true, m') /\
             current_key_index (self m') = 1%nat /\
             key_cooldowns (self m') !! 0%nat = Some 1000.
Proof.
  destruct (rotate_key_spec E_rate_limited (start two_keys)) as (b & m' & Hrot & _);
    [simpl; lia|].
  vm_compute in Hrot. injection Hrot as <- <-.
  eexists. split; [vm_compute; reflexivity|]. split; reflexivity.
Defined.

(** C8: on a pool of one key (or none) [_rotate_key] returns [False] at
    once and changes nothing: the active index, the cooldown table, the
    configured model and the log of calls are as before. *)
Theorem rotate_key_single_pool (E : Env) (m : machine) :
  (length (api_keys (self m)) <= 1)%nat ->
  _rotate_key E m = (Ret false, m).
Proof. apply rotate_key_single. Qed.

Lemma rotate_key_single_pool_witness :
  _rotate_key E_rate_limited (start one_key) = (Ret false, start one_key).
Proof. apply (rotate_key_single_pool E_rate_limited (start one_key)). simpl. lia. Defined.

(** ** The retry loop *)

(** One turn of the retry loop, by what its [try] block comes to. *)
Lemma generate_attempt_cases E prompt temperature max_tokens stop le m :
  let cfg := generation_config temperature max_tokens stop in
  let m1 := after (EvGenerateContent (model (self m)) prompt cfg) m in
  generate_attempt E prompt temperature max_tokens stop le m =
    match attempt_text E m prompt cfg with
    | Ret text => (Ret (Return (result_of_text prompt text), le), m1)
    | Raise e =>
        if is_rate_limit_error (PyStr.lower (exn_str e)) then
          match _rotate_key E (after EvRotate m1) with
          | (Ret b, m2) => (Ret (if b then Continue else Break, Some e), m2)
          | (Raise e', m2) => (Raise e', m2)
          end
        else (Ret (Break, Some e), m1)
    end.
Proof.
  intros cfg m1. subst cfg m1.
  unfold generate_attempt, generate_content, attempt_text, generation_config, after.
  unfold_st. cbn [self trace].
  destruct (env_generate_content E _ _ _ _) as [r | e]; cbn [rbind].
  - destruct (extract_text r) as [text | e].
    + unfold result_of_text, success_result. by destruct (PyStr.truthy text).
    + destruct (is_rate_limit_error _); [|done].
      by destruct (_rotate_key E _) as [[[] | ] m2].
  - destruct (is_rate_limit_error _); [|done].
    by destruct (_rotate_key E _) as [[[] | ] m2].
Qed.

(** The retry loop returns, and [loop_run] tells how. *)
Lemma generate_loop_run E prompt temperature max_tokens stop n le m :
  exists out m',
    generate_loop E n prompt temperature max_tokens stop le m = (Ret out, m') /\
    loop_run E prompt temperature max_tokens stop n le m out m'.
Proof.
  revert le m. induction n as [|n IH]; intros le m.
  - exists (None, le), m. split; [done | constructor].
  - cbn [generate_loop]. unfold bind at 1.
    rewrite generate_attempt_cases.
    destruct (attempt_text E m prompt _) as [text | e] eqn:Htry.
    + eexists _, _. split; [done|]. by apply run_return.
    + destruct (is_rate_limit_error _) eqn:Hrl.
      * destruct (rotate_key_returns E
                    (after EvRotate (after (EvGenerateContent (model (self m)) prompt
                       (generation_config temperature max_tokens stop)) m)))
          as (b & m2 & Hrot & _).
        rewrite Hrot. destruct b.
        -- destruct (IH (Some e) m2) as (out & m' & Hloop & Hrun).
           exists out, m'. split; [done|]. by eapply run_rotated.
        -- eexists _, _. split; [done|]. by eapply run_no_key_left.
      * eexists _, _. split; [done|]. by apply run_other_error.
Qed.

(** The fallback block, case by case. *)
Lemma cloudflare_fallback_cases E prompt temperature max_tokens stop m :
  cloudflare_fallback E prompt temperature max_tokens stop m =
    if fallback_available E m then
      (Ret (fallback_result E m prompt temperature max_tokens stop),
       after (EvFallback prompt temperature max_tokens stop) m)
    else (Ret None, m).
Proof.
  unfold cloudflare_fallback, fallback_available, fallback_result. unfold_st.
  destruct (env_is_cloudflare_ai_enabled E (trace m)) as [[] | e]; [|done|done].
  destruct (env_get_cloudflare_ai E (trace m)) as [[] | e]; [|done].
  unfold after.
  destruct (env_cloudflare_generate E (trace m) prompt temperature max_tokens stop)
    as [r | e]; [|done].
  by destruct (success r).
Qed.

(** [generate], by how its retry loop ended. *)
Lemma generate_cases E prompt temperature max_tokens stop m out m1 :
  generate_loop E (length (api_keys (self m))) prompt temperature max_tokens stop None m
    = (Ret out, m1) ->
  generate E prompt temperature max_tokens stop m =
    match out with
    | (Some result, _) => (Ret result, m1)
    | (None, last_error) =>
        if fallback_available E m1 then
          (Ret (default (failure_result last_error)
                  (fallback_result E m1 prompt temperature max_tokens stop)),
           after (EvFallback prompt temperature max_tokens stop) m1)
        else (Ret (failure_result last_error), m1)
    end.
Proof.
  intros Hloop. unfold generate. unfold bind at 1. unfold get_self at 1.
  unfold bind at 1. rewrite Hloop. destruct out as [[r |] le]; [done|].
  unfold bind. rewrite cloudflare_fallback_cases.
  destruct (fallback_available E m1); [|done].
  by destruct (fallback_result E m1 prompt temperature max_tokens stop).
Qed.

(** ** What a run of the retry loop does to the log and to the instance *)

Lemma rotations_app tr1 tr2 : rotations (tr1 ++ tr2) = (rotations tr1 + rotations tr2)%nat.
Proof. unfold rotations. by rewrite List.filter_app, length_app. Qed.

Lemma fallback_calls_app tr1 tr2 :
  fallback_calls (tr1 ++ tr2) = (fallback_calls tr1 + fallback_calls tr2)%nat.
Proof. unfold fallback_calls. by rewrite List.filter_app, length_app. Qed.

Lemma provider_calls_app tr1 tr2 :
  provider_calls (tr1 ++ tr2) = (provider_calls tr1 + provider_calls tr2)%nat.
Proof. unfold provider_calls. by rewrite List.filter_app, length_app. Qed.

Lemma rotated_trans E s1 s2 s3 : rotated E s1 s2 -> rotated E s2 s3 -> rotated E s1 s3.
Proof.
  induction 1 as [|s tr b m' s'' Hrot _ IH]; [done|].
  intros H3. eapply rotated_step; [exact Hrot | by apply IH].
Qed.

Lemma rotated_valid E s s' :
  rotated E s s' ->
  api_keys s' = api_keys s /\ (valid_index s -> valid_index s').
Proof.
  induction 1 as [|s tr b m' s'' Hrot _ IH]; [done|].
  destruct (rotate_key_returns E {| self := s; trace := tr |})
    as (b' & m2 & Hrot' & _ & Hkeys & Hvalid).
  rewrite Hrot in Hrot'. injection Hrot' as <- <-. simpl in *.
  destruct IH as [IHk IHv]. split; [congruence | tauto].
Qed.

(** The events of a run: provider calls and rotations only, at most one of
    each per turn, and a rotation after every provider call but possibly the
    last; without a rotation the instance is untouched. *)
Lemma loop_run_trace E prompt temperature max_tokens stop n le m out m' :
  loop_run E prompt temperature max_tokens stop n le m out m' ->
  exists tl,
    trace m' = (trace m ++ tl)%list /\
    fallback_calls tl = 0%nat /\
    (rotations tl <= provider_calls tl <= n)%nat /\
    (provider_calls tl <= rotations tl + 1)%nat /\
    (rotations tl = 0%nat -> self m' = self m).
Proof.
  induction 1 as [le m | n le m text Htry | n le m e Htry Hrl
                 | n le m e m2 Htry Hrl Hrot
                 | n le m e m2 out m' Htry Hrl Hrot Hrun IH].
  - exists []. rewrite app_nil_r. repeat split; done || (cbn; lia).
  - eexists [_]. repeat split; done || (cbn; lia).
  - eexists [_]. repeat split; done || (cbn; lia).
  - destruct (rotate_key_returns E
       (after EvRotate (after (EvGenerateContent (model (self m)) prompt
          (generation_config temperature max_tokens stop)) m)))
      as (b & m3 & Hrot' & Htr & _).
    rewrite Hrot in Hrot'. injection Hrot' as <- <-.
    exists [EvGenerateContent (model (self m)) prompt
              (generation_config temperature max_tokens stop); EvRotate].
    rewrite Htr. cbn [after trace]. rewrite <- app_assoc.
    repeat split; done || (cbn; lia).
  - destruct (rotate_key_returns E
       (after EvRotate (after (EvGenerateContent (model (self m)) prompt
          (generation_config temperature max_tokens stop)) m)))
      as (b & m3 & Hrot' & Htr & _).
    rewrite Hrot in Hrot'. injection Hrot' as <- <-.
    destruct IH as (tl & Htl & Hfb & Hcount & Hlast & _).
    exists (EvGenerateContent (model (self m)) prompt
              (generation_config temperature max_tokens stop) :: EvRotate :: tl).
    rewrite Htl, Htr. cbn [after trace]. rewrite <- !app_assoc.
    split; [done|].
    unfold rotations, provider_calls, fallback_calls in *.
    cbn [List.filter is_rotate is_generate_content is_fallback length].
    repeat split; try lia.
Qed.

(** A run changes the instance by rotations only. *)
Lemma loop_run_rotated E prompt temperature max_tokens stop n le m out m' :
  loop_run E prompt temperature max_tokens stop n le m out m' ->
  rotated E (self m) (self m').
Proof.
  induction 1 as [le m | n le m text Htry | n le m e Htry Hrl
                 | n le m e m2 Htry Hrl Hrot
                 | n le m e m2 out m' Htry Hrl Hrot Hrun IH];
    try apply rotated_refl.
  - eapply rotated_step; [exact Hrot | apply rotated_refl].
  - eapply rotated_step; [exact Hrot | exact IH].
Qed.

(** The result a run returns from inside the loop is built from the text of
    a response of the provider. *)
Lemma loop_run_returned E prompt temperature max_tokens stop n le m r le' m' :
  loop_run E prompt temperature max_tokens stop n le m (Some r, le') m' ->
  exists m0 text,
    attempt_text E m0 prompt (generation_config temperature max_tokens stop) = Ret text /\
    r = result_of_text prompt text.
Proof.
  remember (Some r, le') as out eqn:Hout.
  induction 1 as [le m | n le m text Htry | n le m e Htry Hrl
                 | n le m e m2 Htry Hrl Hrot
                 | n le m e m2 out m' Htry Hrl Hrot Hrun IH];
    try discriminate.
  - injection Hout as <- _. by exists m, text.
  - by apply IH.
Qed.

(** When every provider call is rate limited, a run of at least one turn
    falls through with a rate-limit error as [last_error], after one rotation
    per provider call. *)
Lemma loop_run_rate_limited E prompt temperature max_tokens stop n le m out m' :
  always_rate_limited E ->
  loop_run E prompt temperature max_tokens stop n le m out m' ->
  out.1 = None /\
  (n <> 0%nat ->
     exists e, out.2 = Some e /\ is_rate_limit_error (PyStr.lower (exn_str e)) = true) /\
  exists tl, trace m' = (trace m ++ tl)%list /\ rotations tl = provider_calls tl /\
             (n <> 0%nat -> (1 <= rotations tl)%nat).
Proof.
  intros Hall.
  assert (Hraise : forall m0 cfg, exists e,
            attempt_text E m0 prompt cfg = Raise e /\
            is_rate_limit_error (PyStr.lower (exn_str e)) = true).
  { intros m0 cfg. destruct (Hall (trace m0) (model (self m0)) prompt cfg) as (e & He & Hrl).
    exists e. unfold attempt_text. by rewrite He. }
  induction 1 as [le m | n le m text Htry | n le m e Htry Hrl
                 | n le m e m2 Htry Hrl Hrot
                 | n le m e m2 out m' Htry Hrl Hrot Hrun IH].
  - split; [done|]. split; [done|]. exists []. by rewrite app_nil_r.
  - destruct (Hraise m (generation_config temperature max_tokens stop)) as (e & He & _).
    congruence.
  - destruct (Hraise m (generation_config temperature max_tokens stop)) as (e' & He & Hrl').
    congruence.
  - destruct (rotate_key_returns E
       (after EvRotate (after (EvGenerateContent (model (self m)) prompt
          (generation_config temperature max_tokens stop)) m)))
      as (b & m3 & Hrot' & Htr & _).
    rewrite Hrot in Hrot'. injection Hrot' as <- <-.
    split; [done|]. split; [intros _; by exists e|].
    exists [EvGenerateContent (model (self m)) prompt
              (generation_config temperature max_tokens stop); EvRotate].
    rewrite Htr. cbn [after trace]. rewrite <- app_assoc.
    split; [done|]. split; [done | intros _; cbn; lia].
  - destruct (rotate_key_returns E
       (after EvRotate (after (EvGenerateContent (model (self m)) prompt
          (generation_config temperature max_tokens stop)) m)))
      as (b & m3 & Hrot' & Htr & _).
    rewrite Hrot in Hrot'. injection Hrot' as <- <-.
    destruct IH as (Hnone & Herr & tl & Htl & Hcount & _).
    split; [done|]. split.
    + intros _. destruct n as [|n].
      * inversion Hrun; subst. by exists e.
      * by apply Herr.
    + exists (EvGenerateContent (model (self m)) prompt
                (generation_config temperature max_tokens stop) :: EvRotate :: tl).
      rewrite Htl, Htr. cbn [after trace]. rewrite <- !app_assoc.
      split; [done|].
      unfold rotations, provider_calls in *.
      cbn [List.filter is_rotate is_generate_content length]. lia.
Qed.

(** ** The provider calls of a run, one by one *)

Lemma lookup_two {A} (a b : A) (l : list A) (k : nat) :
  (a :: b :: l) !! S (S k) = l !! k.
Proof. reflexivity. Qed.

Lemma loop_run_starts_with_call E prompt temperature max_tokens stop n le m out m' :
  loop_run E prompt temperature max_tokens stop n le m out m' ->
  n <> 0%nat ->
  exists tl,
    trace m' = (trace m ++
                  EvGenerateContent (model (self m)) prompt
                    (generation_config temperature max_tokens stop) :: tl)%list.
Proof.
  induction 1 as [le m | n le m text Htry | n le m e Htry Hrl
                 | n le m e m2 Htry Hrl Hrot
                 | n le m e m2 out m' Htry Hrl Hrot Hrun IH]; intros Hn; try done.
  - by exists [].
  - by exists [].
  - exists [EvRotate].
    destruct (rotate_key_returns E
      (after EvRotate (after (EvGenerateContent (model (self m)) prompt
         (generation_config temperature max_tokens stop)) m))) as (b & m3 & Hrot' & Htr & _).
    rewrite Hrot in Hrot'. injection Hrot' as <- <-.
    rewrite Htr. cbn [after trace]. by rewrite <- app_assoc.
  - destruct (loop_run_trace _ _ _ _ _ _ _ _ _ _ Hrun) as (tl & Htl & _).
    exists (EvRotate :: tl).
    destruct (rotate_key_returns E
      (after EvRotate (after (EvGenerateContent (model (self m)) prompt
         (generation_config temperature max_tokens stop)) m))) as (b & m3 & Hrot' & Htr & _).
    rewrite Hrot in Hrot'. injection Hrot' as <- <-.
    rewrite Htl, Htr. cbn [after trace]. by rewrite <- !app_assoc.
Qed.

(** Every provider call a run of the retry loop logs, by what it came to
    after the calls before it: a call that gave a text is the last event and
    its text is in the result the loop returns; a call that raised is
    followed by another call, or its exception is the loop's [last_error];
    and the loop's outcome comes from the last call. *)
Lemma loop_run_positions E prompt temperature max_tokens stop n le m out m' :
  loop_run E prompt temperature max_tokens stop n le m out m' ->
  let cfg := generation_config temperature max_tokens stop in
  exists tl,
    trace m' = (trace m ++ tl)%list /\
    (forall k mdl p c,
       tl !! k = Some (EvGenerateContent mdl p c) ->
       p = prompt /\ c = cfg /\
       match attempt_outcome E (trace m ++ take k tl) mdl prompt cfg with
       | Ret s => out.1 = Some (result_of_text prompt s) /\ length tl = S k
       | Raise e =>
           (exists k' mdl', (k < k')%nat /\
                            tl !! k' = Some (EvGenerateContent mdl' prompt cfg)) \/
           out = (None, Some e)
       end) /\
    (out.1 = None -> n <> 0%nat ->
       exists k mdl e,
         tl !! k = Some (EvGenerateContent mdl prompt cfg) /\
         attempt_outcome E (trace m ++ take k tl) mdl prompt cfg = Raise e /\
         out.2 = Some e /\
         forall k' ev, (k < k')%nat -> tl !! k' = Some ev -> is_generate_content ev = false) /\
    (forall res, out.1 = Some res ->
       exists k mdl s,
         tl !! k = Some (EvGenerateContent mdl prompt cfg) /\
         length tl = S k /\
         attempt_outcome E (trace m ++ take k tl) mdl prompt cfg = Ret s /\
         res = result_of_text prompt s).
Proof.
  intros Hrun cfg. subst cfg.
  induction Hrun as [le m | n le m text Htry | n le m e Htry Hrl
                    | n le m e m2 Htry Hrl Hrot
                    | n le m e m2 out m' Htry Hrl Hrot Hrun IH].
  - exists []. rewrite app_nil_r. split; [done|]. split; [|split]; done.
  - exists [EvGenerateContent (model (self m)) prompt (generation_config temperature max_tokens stop)]. split; [done|].
    split; [|split; [done|]].
    + intros [|k] mdl p c Hk; [|by rewrite lookup_cons, lookup_nil in Hk].
      injection Hk as <- <- <-. split; [done|]. split; [done|].
      cbn [take]. rewrite app_nil_r.
      change (attempt_outcome E (trace m) (model (self m)) prompt (generation_config temperature max_tokens stop))
        with (attempt_text E m prompt (generation_config temperature max_tokens stop)). by rewrite Htry.
    + intros res [= <-]. exists 0%nat, (model (self m)), text.
      cbn [take]. rewrite app_nil_r. done.
  - exists [EvGenerateContent (model (self m)) prompt (generation_config temperature max_tokens stop)]. split; [done|].
    split; [|split; [|done]].
    + intros [|k] mdl p c Hk; [|by rewrite lookup_cons, lookup_nil in Hk].
      injection Hk as <- <- <-. split; [done|]. split; [done|].
      cbn [take]. rewrite app_nil_r.
      change (attempt_outcome E (trace m) (model (self m)) prompt (generation_config temperature max_tokens stop))
        with (attempt_text E m prompt (generation_config temperature max_tokens stop)). rewrite Htry. by right.
    + intros _ _. exists 0%nat, (model (self m)), e.
      cbn [take]. rewrite app_nil_r. split; [done|]. split; [done|]. split; [done|].
      intros [|k'] ev Hlt Hk'; [lia | by rewrite lookup_cons, lookup_nil in Hk'].
  - pose proof (rotate_key_returns E
      (after EvRotate (after (EvGenerateContent (model (self m)) prompt (generation_config temperature max_tokens stop)) m)))
      as (b & m3 & Hrot' & Htr & _).
    rewrite Hrot in Hrot'. injection Hrot' as <- <-.
    exists [EvGenerateContent (model (self m)) prompt (generation_config temperature max_tokens stop); EvRotate].
    rewrite Htr. cbn [after trace]. rewrite <- app_assoc.
    split; [done|]. split; [|split; [|done]].
    + intros [|[|k]] mdl p c Hk; try done.
      injection Hk as <- <- <-. split; [done|]. split; [done|].
      cbn [take]. rewrite app_nil_r.
      change (attempt_outcome E (trace m) (model (self m)) prompt (generation_config temperature max_tokens stop))
        with (attempt_text E m prompt (generation_config temperature max_tokens stop)). rewrite Htry. by right.
    + intros _ _. exists 0%nat, (model (self m)), e.
      cbn [take]. rewrite app_nil_r. split; [done|]. split; [done|]. split; [done|].
      intros [|[|k']] ev Hlt Hk'; [lia | by injection Hk' as <- | done].
  - pose proof (rotate_key_returns E
      (after EvRotate (after (EvGenerateContent (model (self m)) prompt (generation_config temperature max_tokens stop)) m)))
      as (b & m3 & Hrot' & Htr & _).
    rewrite Hrot in Hrot'. injection Hrot' as <- <-.
    cbn [after trace] in Htr. rewrite <- app_assoc in Htr. cbn [app] in Htr.
    destruct IH as (tl & Htl & Hcalls & Hnone & Hsome).
    exists (EvGenerateContent (model (self m)) prompt (generation_config temperature max_tokens stop) :: EvRotate :: tl).
    assert (Hhist : forall k,
              (trace m ++ take (S (S k))
                 (EvGenerateContent (model (self m)) prompt (generation_config temperature max_tokens stop) :: EvRotate :: tl))%list
              = (trace m2 ++ take k tl)%list).
    { intros k. rewrite Htr. cbn [take]. by rewrite <- app_assoc. }
    assert (Hnext : n <> 0%nat ->
              exists tl', tl = EvGenerateContent (model (self m2)) prompt (generation_config temperature max_tokens stop) :: tl').
    { intros Hn. destruct (loop_run_starts_with_call _ _ _ _ _ _ _ _ _ _ Hrun Hn) as (tl' & Htl').
      exists tl'. rewrite Htl in Htl'. by apply app_inv_head in Htl'. }
    split; [rewrite Htl, Htr, <- app_assoc; reflexivity|]. split; [|split].
    + intros [|[|k]] mdl p c Hk; try done.
      * injection Hk as <- <- <-. split; [done|]. split; [done|].
        cbn [take]. rewrite app_nil_r.
        change (attempt_outcome E (trace m) (model (self m)) prompt (generation_config temperature max_tokens stop))
          with (attempt_text E m prompt (generation_config temperature max_tokens stop)). rewrite Htry.
        destruct n as [|n].
        -- inversion Hrun; subst. by right.
        -- destruct Hnext as (tl' & ->); [done|]. left.
           exists 2%nat, (model (self m2)). split; [lia | done].
      * rewrite lookup_two in Hk. destruct (Hcalls k mdl p c Hk) as (-> & -> & Hout).
        split; [done|]. split; [done|]. rewrite Hhist.
        destruct (attempt_outcome E (trace m2 ++ take k tl) mdl prompt (generation_config temperature max_tokens stop)) as [s | e'].
        -- destruct Hout as [Hres Hlen]. split; [done|]. cbn [length]. by rewrite Hlen.
        -- destruct Hout as [(k' & mdl' & Hlt & Hk') | Hout]; [left | by right].
           exists (S (S k')), mdl'. split; [lia | done].
    + intros Hout Hn. destruct n as [|n].
      * inversion Hrun; subst. exists 0%nat, (model (self m)), e.
        cbn [take]. rewrite app_nil_r. split; [done|]. split; [done|]. split; [done|].
        assert (tl = []) as ->.
        { apply (app_inv_head (trace m')). by rewrite app_nil_r. }
        intros [|[|k']] ev Hlt Hk'; [lia | by injection Hk' as <- | done].
      * destruct (Hnone Hout ltac:(done)) as (k & mdl & e' & Hk & Ho & He & Hlast).
        exists (S (S k)), mdl, e'. rewrite Hhist. split; [done|]. split; [done|].
        split; [done|].
        intros [|[|k']] ev Hlt Hk'; [lia | lia |].
        rewrite lookup_two in Hk'. apply (Hlast k'); [lia | done].
    + intros res Hres. destruct (Hsome res Hres) as (k & mdl & s & Hk & Hlen & Ho & ->).
      exists (S (S k)), mdl, s. rewrite Hhist. split; [done|].
      split; [cbn [length]; by rewrite Hlen | done].
Qed.

Lemma no_fallback_lookup tl k ev :
  fallback_calls tl = 0%nat -> tl !! k = Some ev -> is_fallback ev = false.
Proof.
  unfold fallback_calls. revert k. induction tl as [|a tl IH]; intros k Hz Hk.
  - by rewrite lookup_nil in Hk.
  - cbn [List.filter] in Hz. destruct (is_fallback a) eqn:Ha; [discriminate|].
    destruct k as [|k]; [by injection Hk as <- | by apply (IH k)].
Qed.

(** One [generate], by the calls it logs: the first is the provider call
    with the model configured on entry; a provider call that gives a text is
    the last event and decides the result; a call of the secondary provider
    that gives a successful result decides the result; and a result without
    success is the empty-response result of the last provider call, or the
    failure result made of the exception of the last provider call. *)
Lemma generate_by_calls E prompt temperature max_tokens stop m :
  let cfg := generation_config temperature max_tokens stop in
  exists r m' tl,
    generate E prompt temperature max_tokens stop m = (Ret r, m') /\
    trace m' = (trace m ++ tl)%list /\
    (api_keys (self m) <> [] ->
       exists tl', tl = EvGenerateContent (model (self m)) prompt cfg :: tl') /\
    (forall k mdl p c s,
       tl !! k = Some (EvGenerateContent mdl p c) ->
       attempt_outcome E (trace m ++ take k tl) mdl p c = Ret s ->
       r = result_of_text prompt s /\ length tl = S k) /\
    (forall k p t mt st cf,
       tl !! k = Some (EvFallback p t mt st) ->
       env_cloudflare_generate E (trace m ++ take k tl) p t mt st = Ret cf ->
       success cf = true ->
       r = cf /\ length tl = S k) /\
    (success r = true ->
       (exists k mdl s,
          tl !! k = Some (EvGenerateContent mdl prompt cfg) /\
          attempt_outcome E (trace m ++ take k tl) mdl prompt cfg = Ret s /\ s <> "") \/
       (exists k cf,
          tl !! k = Some (EvFallback prompt temperature max_tokens stop) /\
          env_cloudflare_generate E (trace m ++ take k tl) prompt temperature max_tokens stop
            = Ret cf /\ success cf = true)) /\
    (success r = false ->
       (exists k mdl,
          tl !! k = Some (EvGenerateContent mdl prompt cfg) /\ length tl = S k /\
          attempt_outcome E (trace m ++ take k tl) mdl prompt cfg = Ret "" /\
          r = empty_response_result) \/
       (exists last_error,
          r = failure_result last_error /\
          (api_keys (self m) <> [] ->
             exists k mdl e,
               tl !! k = Some (EvGenerateContent mdl prompt cfg) /\
               attempt_outcome E (trace m ++ take k tl) mdl prompt cfg = Raise e /\
               last_error = Some e /\
               forall k' ev, (k < k')%nat -> tl !! k' = Some ev ->
                             is_generate_content ev = false))).
Proof.
  intros cfg. subst cfg.
  destruct (generate_loop_run E prompt temperature max_tokens stop
              (length (api_keys (self m))) None m) as (out & m1 & Hloop & Hrun).
  destruct (loop_run_positions _ _ _ _ _ _ _ _ _ _ Hrun)
    as (tl0 & Htl0 & Hcalls & Hnone & Hsome).
  destruct (loop_run_trace _ _ _ _ _ _ _ _ _ _ Hrun) as (tl0' & Htl0' & Hfb0 & _).
  rewrite Htl0 in Htl0'. apply app_inv_head in Htl0' as <-.
  assert (Hfirst : api_keys (self m) <> [] ->
            exists tl', tl0 = EvGenerateContent (model (self m)) prompt
                                (generation_config temperature max_tokens stop) :: tl').
  { intros Hne. destruct (loop_run_starts_with_call _ _ _ _ _ _ _ _ _ _ Hrun) as (tl' & Htl').
    - by destruct (api_keys (self m)).
    - exists tl'. rewrite Htl0 in Htl'. by apply app_inv_head in Htl'. }
  assert (Hpool : api_keys (self m) <> [] -> length (api_keys (self m)) <> 0%nat)
    by (by destruct (api_keys (self m))).
  rewrite (generate_cases _ _ _ _ _ _ _ _ Hloop).
  destruct out as [[res|] le].
  - (* the loop returned a result *)
    exists res, m1, tl0. split; [done|]. split; [done|]. split; [done|].
    assert (Hcall : forall k mdl p c s,
       tl0 !! k = Some (EvGenerateContent mdl p c) ->
       attempt_outcome E (trace m ++ take k tl0)%list mdl p c = Ret s ->
       res = result_of_text prompt s /\ length tl0 = S k).
    { intros k mdl p c s Hk Ho. destruct (Hcalls k mdl p c Hk) as (-> & -> & Hout).
      rewrite Ho in Hout. destruct Hout as [[= ->] Hlen]. done. }
    split; [exact Hcall|]. split; [|split].
    + intros k p t mt st cf Hk. by apply (no_fallback_lookup _ _ _ Hfb0) in Hk.
    + intros Hs. left. destruct (Hsome res eq_refl) as (k & mdl & s & Hk & Hlen & Ho & ->).
      exists k, mdl, s. split; [done|]. split; [done|].
      unfold result_of_text in Hs. by destruct s.
    + intros Hs. left. destruct (Hsome res eq_refl) as (k & mdl & s & Hk & Hlen & Ho & ->).
      exists k, mdl. unfold result_of_text in *. destruct s; [done|discriminate].
  - (* the loop ended without a result *)
    assert (Hlast : api_keys (self m) <> [] ->
       forall tl1, (forall k, (k < length tl0)%nat -> (tl0 ++ tl1)%list !! k = tl0 !! k) ->
       (forall k ev, (length tl0 <= k)%nat -> (tl0 ++ tl1)%list !! k = Some ev ->
                     is_generate_content ev = false) ->
       exists k mdl e,
         (tl0 ++ tl1)%list !! k = Some (EvGenerateContent mdl prompt
                                     (generation_config temperature max_tokens stop)) /\
         attempt_outcome E (trace m ++ take k (tl0 ++ tl1)%list)%list mdl prompt
           (generation_config temperature max_tokens stop) = Raise e /\
         le = Some e /\
         forall k' ev, (k < k')%nat -> (tl0 ++ tl1)%list !! k' = Some ev ->
                       is_generate_content ev = false).
    { intros Hne tl1 Hl Hr.
      destruct (Hnone eq_refl (Hpool Hne)) as (k & mdl & e & Hk & Ho & He & Hafter).
      pose proof (lookup_lt_Some _ _ _ Hk) as Hlt.
      exists k, mdl, e. rewrite Hl by done. rewrite take_app_le by lia.
      split; [done|]. split; [done|]. split; [done|].
      intros k' ev Hlt' Hk'. destruct (decide (k' < length tl0)%nat) as [Hin | Hout].
      - rewrite Hl in Hk' by done. by apply (Hafter k').
      - apply (Hr k'); [lia | done]. }
    assert (Hcall0 : forall k mdl p c s,
       tl0 !! k = Some (EvGenerateContent mdl p c) ->
       attempt_outcome E (trace m ++ take k tl0)%list mdl p c = Ret s -> False).
    { intros k mdl p c s Hk Ho. destruct (Hcalls k mdl p c Hk) as (-> & -> & Hout).
      rewrite Ho in Hout. by destruct Hout as [? _]. }
    destruct (fallback_available E m1) eqn:Hav.
    + set (fb := EvFallback prompt temperature max_tokens stop).
      exists (default (failure_result le)
                (fallback_result E m1 prompt temperature max_tokens stop)),
             (after fb m1), (tl0 ++ [fb])%list.
      assert (Hin : forall k, (k < length tl0)%nat -> (tl0 ++ [fb])%list !! k = tl0 !! k)
        by (intros; by apply lookup_app_l).
      assert (Hend : forall k ev, (length tl0 <= k)%nat -> (tl0 ++ [fb])%list !! k = Some ev ->
                       ev = fb /\ k = length tl0).
      { intros k ev Hge Hk. rewrite lookup_app_r in Hk by done.
        destruct (k - length tl0)%nat as [|j] eqn:Hj; [|by rewrite lookup_cons, lookup_nil in Hk].
        injection Hk as <-. split; [done | lia]. }
      assert (Hpos : forall k ev, (tl0 ++ [fb])%list !! k = Some ev ->
                ((k < length tl0)%nat /\ tl0 !! k = Some ev) \/
                (ev = fb /\ k = length tl0)).
      { intros k ev Hk. destruct (decide (k < length tl0)%nat) as [Hlt | Hge].
        - left. split; [done|]. by rewrite <- Hin.
        - right. apply Hend; [lia | done]. }
      split; [done|]. split; [cbn [after trace]; by rewrite Htl0, app_assoc|].
      split; [intros Hne; destruct (Hfirst Hne) as (tl' & ->); by eexists|].
      assert (Hcf : forall k p t mt st cf,
         (tl0 ++ [fb])%list !! k = Some (EvFallback p t mt st) ->
         env_cloudflare_generate E (trace m ++ take k (tl0 ++ [fb])%list)%list p t mt st = Ret cf ->
         success cf = true ->
         default (failure_result le) (fallback_result E m1 prompt temperature max_tokens stop)
           = cf /\ length (tl0 ++ [fb])%list = S k).
      { intros k p t mt st cf Hk Henv Hs.
        destruct (Hpos _ _ Hk) as [[_ Hk0] | [Hev ->]].
        - by apply (no_fallback_lookup _ _ _ Hfb0) in Hk0.
        - injection Hev as -> -> -> ->. rewrite take_app_length, <- Htl0 in Henv.
          unfold fallback_result. rewrite Henv, Hs. split; [done|].
          rewrite length_app. simpl. lia. }
      split; [|split; [exact Hcf|split]].
      * intros k mdl p c s Hk Ho. exfalso.
        destruct (Hpos _ _ Hk) as [[Hlt Hk0] | [Hev _]]; [|discriminate].
        rewrite take_app_le in Ho by lia. by apply (Hcall0 k mdl p c s).
      * intros Hs. right. exists (length tl0).
        unfold fallback_result in *. rewrite take_app_length, <- Htl0.
        destruct (env_cloudflare_generate E (trace m1) prompt temperature max_tokens stop)
          as [cf|e]; [|discriminate].
        destruct (success cf) eqn:Hcfs; [|discriminate].
        exists cf. split; [|done]. rewrite lookup_app_r by done.
        by rewrite Nat.sub_diag.
      * intros Hs. right. exists le.
        assert (Hr : default (failure_result le)
                       (fallback_result E m1 prompt temperature max_tokens stop)
                     = failure_result le).
        { unfold fallback_result in *.
          destruct (env_cloudflare_generate E (trace m1) prompt temperature max_tokens stop)
            as [cf|e]; [|done].
          destruct (success cf) eqn:Hcfs; [|done]. simpl in Hs. congruence. }
        split; [done|]. intros Hne. apply (Hlast Hne); [done|].
        intros k ev Hge Hk. by destruct (Hend k ev Hge Hk) as [-> _].
    + exists (failure_result le), m1, tl0.
      split; [done|]. split; [done|]. split; [done|].
      split; [intros k mdl p c s Hk Ho; exfalso; by apply (Hcall0 k mdl p c s)|].
      split; [intros k p t mt st cf Hk; by apply (no_fallback_lookup _ _ _ Hfb0) in Hk|].
      split; [done|].
      intros _. right. exists le. split; [done|]. intros Hne.
      destruct (Hlast Hne []) as (k & mdl & e & Hk & Ho & He & Hafter).
      * intros k _. by rewrite app_nil_r.
      * intros k ev Hge Hk. rewrite app_nil_r in Hk.
        apply lookup_lt_Some in Hk. lia.
      * rewrite app_nil_r in *. by exists k, mdl, e.
Qed.

(** ** Extraction *)

(** The direct text is used when there is one. *)
Lemma extract_text_direct r s :
  response_text r = Has s -> s <> "" -> extract_text r = Ret s.
Proof.
  intros Hr Hs. unfold extract_text, direct_text. rewrite Hr. simpl.
  destruct s; [done | reflexivity].
Qed.

(** Without a direct text the extraction gives what the nested path
    gives. *)
Lemma extract_text_nested r :
  direct_unavailable r -> extract_text r = try_assign "" (nested_text r "").
Proof.
  unfold direct_unavailable, extract_text, direct_text.
  destruct (response_text r) as [|e|s]; simpl.
  - done.
  - unfold caught_by_extraction. intros He.
    destruct (exn_cls e) eqn:Hc; simpl; try done;
      unfold caught_by_extraction; by rewrite Hc.
  - by intros ->.
Qed.

(** The nested path, when every attribute on it is there. *)
Lemma nested_text_readable r c cs ct p ps s :
  response_candidates r = Has (c :: cs) ->
  candidate_content c = Has ct ->
  content_parts ct = Has (p :: ps) ->
  part_text p = Has s ->
  nested_text r "" = Ret s.
Proof.
  intros Hcs Hc Hps Hp. unfold nested_text. rewrite Hcs. simpl.
  rewrite Hc. simpl. rewrite Hps. simpl. by rewrite Hp.
Qed.

Lemma spec_nested_text_inv r s :
  spec_nested_text r = Some s ->
  s <> "" /\
  exists c cs ct p ps,
    response_candidates r = Has (c :: cs) /\ candidate_content c = Has ct /\
    content_parts ct = Has (p :: ps) /\ part_text p = Has s.
Proof.
  unfold spec_nested_text.
  destruct (response_candidates r) as [| |[|c cs]] eqn:Hcs; simpl; try done.
  destruct (candidate_content c) as [| |ct] eqn:Hc; simpl; try done.
  destruct (content_parts ct) as [| |[|p ps]] eqn:Hps; simpl; try done.
  destruct (part_text p) as [| |s'] eqn:Hp; simpl; try done.
  destruct s' as [|a s']; simpl; [done|].
  intros [= <-]. split; [done|]. by exists c, cs, ct, p, ps.
Qed.

(** On a response whose inaccessible attributes raise only what the
    extraction catches, the code extracts what the specification says. *)
Lemma extract_text_refines r :
  tolerated r = true -> extract_text r = Ret (spec_extract_text r).
Proof.
  unfold tolerated, extract_text, spec_extract_text, spec_direct_text,
    spec_nested_text, direct_text, nested_text.
  destruct r as [rt rc]; simpl.
  assert (Hclass : forall e, caught_by_extraction e = true ->
            (exn_cls e = AttributeError \/ exn_cls e = IndexError \/ exn_cls e = ValueError)).
  { intros e. unfold caught_by_extraction. destruct (exn_cls e); auto. done. }
  assert (Hnested :
    tolerable rc &&
      match rc with
      | Has (c :: _) =>
          tolerable (candidate_content c) &&
          match candidate_content c with
          | Has ct =>
              tolerable (content_parts ct) &&
              match content_parts ct with
              | Has (p :: _) => tolerable (part_text p)
              | _ => true
              end
          | _ => true
          end
      | _ => true
      end = true ->
    try_assign ""
      (let? h := hasattr rc in
       if negb h then Ret "" else
       let? cs := getattr "candidates" rc in
       match cs with
       | [] => Ret ""
       | _ :: _ =>
           if negb (0 <? length cs)%nat then Ret "" else
           let? candidate := index0 cs in
           let? h := hasattr (candidate_content candidate) in
           if negb h then Ret "" else
           let? content := getattr "content" (candidate_content candidate) in
           let? h := hasattr (content_parts content) in
           if negb h then Ret "" else
           let? ps := getattr "parts" (content_parts content) in
           match ps with
           | [] => Ret ""
           | _ :: _ =>
               if negb (0 <? length ps)%nat then Ret "" else
               let? part := index0 ps in
               let? h := hasattr (part_text part) in
               if negb h then Ret "" else getattr "text" (part_text part)
           end
       end) =
    Ret (default ""
           (cs ← readable rc; c ← head cs; ct ← readable (candidate_content c);
            ps ← readable (content_parts ct); p ← head ps; s ← readable (part_text p);
            if PyStr.truthy s then Some s else None))).
  { clear rt. intros H.
    destruct rc as [|e|[|c cs]]; simpl in *; try done.
    { rewrite ?andb_true_r in H; simpl in H;
        apply Hclass in H as [Hc | [Hc | Hc]]; rewrite Hc; simpl;
        unfold caught_by_extraction; try rewrite Hc; done. }
    destruct c as [[|e|[[|e|[|[[|e|s]] ps]]]]]; simpl in *; try done.
    - rewrite ?andb_true_r in H; simpl in H;
        apply Hclass in H as [Hc | [Hc | Hc]]; rewrite Hc; simpl;
        unfold caught_by_extraction; try rewrite Hc; done.
    - rewrite ?andb_true_r in H; simpl in H;
        apply Hclass in H as [Hc | [Hc | Hc]]; rewrite Hc; simpl;
        unfold caught_by_extraction; try rewrite Hc; done.
    - rewrite ?andb_true_r in H; simpl in H;
        apply Hclass in H as [Hc | [Hc | Hc]]; rewrite Hc; simpl;
        unfold caught_by_extraction; try rewrite Hc; done.
    - by destruct s. }
  intros H. apply andb_prop in H as [H Hrest]. apply andb_prop in H as [Hrt Hrc].
  rewrite Hrc in Hnested. simpl in Hnested. specialize (Hnested Hrest).
  destruct rt as [|e|s]; simpl in *.
  - exact Hnested.
  - apply Hclass in Hrt as [Hc | [Hc | Hc]]; rewrite Hc; simpl;
      unfold caught_by_extraction; try rewrite Hc; simpl; exact Hnested.
  - destruct s; simpl; [exact Hnested | done].
Qed.

(** ** [generate] *)

Lemma generate_loop_first_returns E prompt temperature max_tokens stop n le m text :
  attempt_text E m prompt (generation_config temperature max_tokens stop) = Ret text ->
  generate_loop E (S n) prompt temperature max_tokens stop le m =
    (Ret (Some (result_of_text prompt text), le),
     after (EvGenerateContent (model (self m)) prompt
              (generation_config temperature max_tokens stop)) m).
Proof.
  intros Htry. cbn [generate_loop]. unfold bind at 1.
  rewrite generate_attempt_cases, Htry. reflexivity.
Qed.

Lemma generate_first_returns E prompt temperature max_tokens stop m text :
  api_keys (self m) <> [] ->
  attempt_text E m prompt (generation_config temperature max_tokens stop) = Ret text ->
  generate E prompt temperature max_tokens stop m =
    (Ret (result_of_text prompt text),
     after (EvGenerateContent (model (self m)) prompt
              (generation_config temperature max_tokens stop)) m).
Proof.
  intros Hkeys Htry.
  destruct (api_keys (self m)) as [|k ks] eqn:Hk; [done|].
  erewrite generate_cases; [|rewrite Hk; simpl length;
                              by apply generate_loop_first_returns].
  reflexivity.
Qed.

Lemma E_rate_limited_always : always_rate_limited E_rate_limited.
Proof. intros h m prompt cfg. exists quota_error. split; reflexivity. Qed.

(** C1 (as amended): when every call to the provider raises a rate-limit
    error, one call of [generate] on a pool of N > 1 keys invokes
    [_rotate_key] once after each provider call, at least once and at most N
    times (not N-1); the retry loop then ends without a result, the last
    rate-limit error being [last_error], and the fallback is attempted on
    the machine the loop left. *)
Theorem rotations_bounded_by_pool (E : Env) (prompt : string) (temperature : Q)
    (max_tokens : Z) (stop : option (list string)) (m : machine) :
  always_rate_limited E ->
  (1 < length (api_keys (self m)))%nat ->
  exists e m1 tl,
    generate_loop E (length (api_keys (self m))) prompt temperature max_tokens stop None m
      = (Ret (None, Some e), m1) /\
    is_rate_limit_error (PyStr.lower (exn_str e)) = true /\
    trace m1 = (trace m ++ tl)%list /\
    (1 <= rotations tl <= length (api_keys (self m)))%nat /\
    rotations tl = provider_calls tl /\
    fallback_calls tl = 0%nat /\
    generate E prompt temperature max_tokens stop m =
      (if fallback_available E m1 then
         (Ret (default (failure_result (Some e))
                 (fallback_result E m1 prompt temperature max_tokens stop)),
          after (EvFallback prompt temperature max_tokens stop) m1)
       else (Ret (failure_result (Some e)), m1)).
Proof.
  intros Hall Hlen.
  destruct (generate_loop_run E prompt temperature max_tokens stop
              (length (api_keys (self m))) None m) as ([out le] & m1 & Hloop & Hrun).
  destruct (loop_run_rate_limited _ _ _ _ _ _ _ _ _ _ Hall Hrun)
    as (Hout & Herr & tl & Htl & Hcount & Hpos).
  destruct (loop_run_trace _ _ _ _ _ _ _ _ _ _ Hrun)
    as (tl' & Htl' & Hfb & Hbound & _).
  rewrite Htl in Htl'. apply app_inv_head in Htl' as <-.
  simpl in Hout, Herr. subst out.
  destruct Herr as (e & -> & Hrl); [lia|].
  exists e, m1, tl. split; [done|]. split; [done|]. split; [done|].
  split; [lia|]. split; [done|]. split; [done|].
  by rewrite (generate_cases _ _ _ _ _ _ _ _ Hloop).
Qed.

Lemma rotations_bounded_by_pool_witness :
  exists e m1,
    generate_loop E_rate_limited 2 "hi" (7 # 10) 2000 None None (start two_keys)
      = (Ret (None, Some e), m1) /\
    (rotations (trace m1) <= 2)%nat.
Proof.
  destruct (rotations_bounded_by_pool E_rate_limited "hi" (7 # 10) 2000 None
              (start two_keys) E_rate_limited_always)
    as (e & m1 & tl & Hloop & _ & Htl & Hrot & _); [simpl; lia|].
  exists e, m1. split; [exact Hloop|].
  simpl in Htl. rewrite Htl. simpl in Hrot. lia.
Defined.

(** C1, as stated, fails: on a pool of two keys whose provider answers
    every call with a quota error, [generate] invokes [_rotate_key] twice,
    which is more than N-1 = 1. *)
Lemma rotations_exceed_pool_minus_one :
  always_rate_limited E_rate_limited /\
  (1 < length (api_keys two_keys))%nat /\
  rotations (trace (generate E_rate_limited "hi" (7 # 10) 2000 None (start two_keys)).2)
    = 2%nat /\
  ~ (rotations (trace (generate E_rate_limited "hi" (7 # 10) 2000 None (start two_keys)).2)
       <= length (api_keys two_keys) - 1)%nat.
Proof.
  split; [apply E_rate_limited_always|].
  split; [simpl; lia|].
  split; [vm_compute; reflexivity|].
  vm_compute. lia.
Qed.

(** C10: when the provider call returns normally and no text can be
    extracted from the response, the turn returns the empty-response failure
    from inside the retry loop, whatever the turns left and the setting of
    the secondary provider: the instance is untouched (no rotation), and the
    only call made is the provider call (no fallback). *)
Theorem empty_response_returns_at_once (E : Env) (prompt : string) (temperature : Q)
    (max_tokens : Z) (stop : option (list string)) (m : machine) (r : Response) :
  env_generate_content E (trace m) (model (self m)) prompt
    (generation_config temperature max_tokens stop) = Ret r ->
  extract_text r = Ret "" ->
  let m1 := after (EvGenerateContent (model (self m)) prompt
                     (generation_config temperature max_tokens stop)) m in
  (forall n le,
     generate_loop E (S n) prompt temperature max_tokens stop le m =
       (Ret (Some empty_response_result, le), m1)) /\
  (api_keys (self m) <> [] ->
     generate E prompt temperature max_tokens stop m = (Ret empty_response_result, m1)) /\
  self m1 = self m /\
  rotations (trace m1) = rotations (trace m) /\
  fallback_calls (trace m1) = fallback_calls (trace m).
Proof.
  intros Hcall Hext m1.
  assert (Htry : attempt_text E m prompt (generation_config temperature max_tokens stop)
                 = Ret "").
  { unfold attempt_text. by rewrite Hcall. }
  split; [|split; [|split; [done|]]].
  - intros n le. by rewrite (generate_loop_first_returns _ _ _ _ _ _ _ _ _ Htry).
  - intros Hkeys. by rewrite (generate_first_returns _ _ _ _ _ _ _ Hkeys Htry).
  - unfold m1. cbn [after trace]. rewrite rotations_app, fallback_calls_app.
    cbn. lia.
Qed.

Lemma empty_response_returns_at_once_witness :
  generate (E_answers (Ret blocked_response)) "hi" (7 # 10) 2000 None (start three_keys) =
    (Ret empty_response_result,
     after (EvGenerateContent (model three_keys) "hi" (generation_config (7 # 10) 2000 None))
       (start three_keys)) /\
  fallback_available (E_answers (Ret blocked_response)) (start three_keys) = true.
Proof.
  split; [|reflexivity].
  apply (empty_response_returns_at_once (E_answers (Ret blocked_response)) "hi" (7 # 10)
           2000 None (start three_keys) blocked_response); [reflexivity | reflexivity |].
  simpl. discriminate.
Defined.

(** C3: on every response of the provider, [generate] takes the text from
    the direct field when that yields one; when the direct field is absent,
    inaccessible (its accessor raises one of the exceptions the extraction
    catches) or empty, it takes the text at the end of the path
    candidates[0].content.parts[0].text, so that a response with the text on
    that path only still yields it; and when neither yields a text it returns
    the result with [success = False], [text = ""], [tokens_used = 0] and an
    error description, without raising.  The same holds at every turn of the
    retry loop. *)
Theorem generate_extracts_text (E : Env) (prompt : string) (temperature : Q)
    (max_tokens : Z) (stop : option (list string)) (m : machine) (r : Response) :
  api_keys (self m) <> [] ->
  env_generate_content E (trace m) (model (self m)) prompt
    (generation_config temperature max_tokens stop) = Ret r ->
  let m1 := after (EvGenerateContent (model (self m)) prompt
                     (generation_config temperature max_tokens stop)) m in
  (forall s, response_text r = Has s -> s <> "" ->
     generate E prompt temperature max_tokens stop m = (Ret (success_result prompt s), m1)) /\
  (direct_unavailable r -> forall s, spec_nested_text r = Some s ->
     generate E prompt temperature max_tokens stop m = (Ret (success_result prompt s), m1)) /\
  (extract_text r = Ret "" ->
     generate E prompt temperature max_tokens stop m = (Ret empty_response_result, m1)) /\
  (tolerated r = true -> spec_direct_text r = None -> spec_nested_text r = None ->
     generate E prompt temperature max_tokens stop m = (Ret empty_response_result, m1)) /\
  (tolerated r = true ->
     generate E prompt temperature max_tokens stop m =
       (Ret (result_of_text prompt (spec_extract_text r)), m1)) /\
  (forall t n le, extract_text r = Ret t ->
     generate_loop E (S n) prompt temperature max_tokens stop le m =
       (Ret (Some (result_of_text prompt t), le), m1)) /\
  (text empty_response_result = "" /\ success empty_response_result = false /\
   tokens_used empty_response_result = 0%nat /\ error empty_response_result <> None).
Proof.
  intros Hkeys Hcall m1.
  assert (Hgen : forall t, extract_text r = Ret t ->
            generate E prompt temperature max_tokens stop m =
              (Ret (result_of_text prompt t), m1)).
  { intros t Ht. apply generate_first_returns; [done|].
    unfold attempt_text. by rewrite Hcall. }
  split; [|split; [|split; [|split; [|split; [|split]]]]].
  - intros s Hs Hne. rewrite (Hgen s); [|by apply extract_text_direct].
    unfold result_of_text. by destruct s.
  - intros Hdirect s Hs. apply spec_nested_text_inv in Hs
      as (Hne & c & cs & ct & p & ps & Hcs & Hc & Hps & Hp).
    rewrite (Hgen s).
    + unfold result_of_text. by destruct s.
    + rewrite (extract_text_nested r Hdirect).
      by rewrite (nested_text_readable r c cs ct p ps s).
  - intros Hext. by rewrite (Hgen "").
  - intros Htol Hd Hn. rewrite (Hgen "").
    + done.
    + rewrite (extract_text_refines r Htol). unfold spec_extract_text.
      by rewrite Hd, Hn.
  - intros Htol. apply Hgen. by apply extract_text_refines.
  - intros t n le Ht. apply generate_loop_first_returns.
    unfold attempt_text. by rewrite Hcall.
  - done.
Qed.

Lemma generate_extracts_text_witness :
  generate (E_answers (Ret (nested_only "42"))) "what is 6 x 7 ?" (7 # 10) 2000 None
    (start two_keys) =
    (Ret {| text := "42"; success := true; tokens_used := 7; error := None |},
     after (EvGenerateContent (model two_keys) "what is 6 x 7 ?"
              (generation_config (7 # 10) 2000 None)) (start two_keys)).
Proof.
  destruct (generate_extracts_text (E_answers (Ret (nested_only "42"))) "what is 6 x 7 ?"
              (7 # 10) 2000 None (start two_keys) (nested_only "42"))
    as (_ & Hnested & _); [simpl; discriminate | reflexivity |].
  apply (Hnested I "42"). reflexivity.
Defined.

(** C6: an exception of the provider call is classified as a rate-limit
    error exactly when its lower-cased text contains one of "rate limit",
    "quota", "429", "resource exhausted", "too many requests", "rate_limit";
    an error not so classified ends the retry loop at once, without any
    invocation of [_rotate_key]; an error so classified invokes
    [_rotate_key], and the loop goes on exactly when that returns [True]. *)
Theorem rate_limit_classification (E : Env) (prompt : string) (temperature : Q)
    (max_tokens : Z) (stop : option (list string)) (m : machine) (e : pyexn) :
  env_generate_content E (trace m) (model (self m)) prompt
    (generation_config temperature max_tokens stop) = Raise e ->
  let m1 := after (EvGenerateContent (model (self m)) prompt
                     (generation_config temperature max_tokens stop)) m in
  rate_limit_terms =
    ["rate limit"; "quota"; "429"; "resource exhausted"; "too many requests"; "rate_limit"] /\
  (is_rate_limit_error (PyStr.lower (exn_str e)) = true <->
     exists term a b, In term rate_limit_terms /\
                      PyStr.lower (exn_str e) = a +:+ term +:+ b) /\
  (is_rate_limit_error (PyStr.lower (exn_str e)) = false ->
     forall n le,
       generate_loop E (S n) prompt temperature max_tokens stop le m =
         (Ret (None, Some e), m1)) /\
  (is_rate_limit_error (PyStr.lower (exn_str e)) = true ->
     exists b m2,
       _rotate_key E (after EvRotate m1) = (Ret b, m2) /\
       forall n le,
         generate_loop E (S n) prompt temperature max_tokens stop le m =
           if b then generate_loop E n prompt temperature max_tokens stop (Some e) m2
           else (Ret (None, Some e), m2)).
Proof.
  intros Hcall m1.
  assert (Htry : attempt_text E m prompt (generation_config temperature max_tokens stop)
                 = Raise e).
  { unfold attempt_text. by rewrite Hcall. }
  split; [done|]. split; [|split].
  - unfold is_rate_limit_error. rewrite existsb_exists. split.
    + intros (term & Hin & Hc). apply contains_spec in Hc as (a & b & Hab).
      by exists term, a, b.
    + intros (term & a & b & Hin & Hab). exists term. split; [done|].
      apply contains_spec. by exists a, b.
  - intros Hrl n le. cbn [generate_loop]. unfold bind at 1.
    by rewrite generate_attempt_cases, Htry, Hrl.
  - intros Hrl.
    destruct (rotate_key_returns E (after EvRotate m1)) as (b & m2 & Hrot & _).
    exists b, m2. split; [done|].
    intros n le. cbn [generate_loop]. unfold bind at 1.
    rewrite generate_attempt_cases, Htry, Hrl. fold m1. rewrite Hrot.
    by destruct b.
Qed.

Lemma rate_limit_classification_witness :
  is_rate_limit_error (PyStr.lower (exn_str quota_error)) = true /\
  exists term a b, In term rate_limit_terms /\
                   PyStr.lower (exn_str quota_error) = a +:+ term +:+ b.
Proof.
  destruct (rate_limit_classification E_rate_limited "hi" (7 # 10) 2000 None
              (start two_keys) quota_error) as (_ & Hiff & _); [reflexivity|].
  split; [reflexivity|]. apply Hiff. reflexivity.
Defined.

(** C5: when the retry loop ends without a result, [generate] makes the
    one fallback attempt: if the secondary provider is configured and enabled
    it is called once, with the same prompt, temperature, max_tokens and
    stop, and its result is what [generate] returns when it reports success;
    when it is not available, raises or reports no success, [generate]
    returns the failure result built from the provider's last error. *)
Theorem fallback_after_exhaustion (E : Env) (prompt : string) (temperature : Q)
    (max_tokens : Z) (stop : option (list string)) (m m1 : machine)
    (last_error : option pyexn) :
  generate_loop E (length (api_keys (self m))) prompt temperature max_tokens stop None m
    = (Ret (None, last_error), m1) ->
  exists result m',
    generate E prompt temperature max_tokens stop m = (Ret result, m') /\
    self m' = self m1 /\
    trace m' = (if fallback_available E m1
                then trace m1 ++ [EvFallback prompt temperature max_tokens stop]
                else trace m1)%list /\
    fallback_calls (trace m') =
      (fallback_calls (trace m) + if fallback_available E m1 then 1 else 0)%nat /\
    result =
      (if fallback_available E m1 then
         match env_cloudflare_generate E (trace m1) prompt temperature max_tokens stop with
         | Ret cf_result => if success cf_result then cf_result else failure_result last_error
         | Raise _ => failure_result last_error
         end
       else failure_result last_error) /\
    failure_result last_error =
      {| text := ""; success := false; tokens_used := 0;
         error := Some (str_last_error last_error) |}.
Proof.
  intros Hloop.
  destruct (generate_loop_run E prompt temperature max_tokens stop
              (length (api_keys (self m))) None m) as (out & m1' & Hloop' & Hrun).
  rewrite Hloop in Hloop'. injection Hloop' as <- <-.
  destruct (loop_run_trace _ _ _ _ _ _ _ _ _ _ Hrun) as (tl & Htl & Hfb & _).
  rewrite (generate_cases _ _ _ _ _ _ _ _ Hloop).
  destruct (fallback_available E m1) eqn:Hav.
  - eexists _, _. split; [reflexivity|]. cbn [after self trace].
    split; [done|]. split; [done|]. split.
    + rewrite Htl, !fallback_calls_app, Hfb. cbn. lia.
    + split; [|done]. unfold fallback_result.
      destruct (env_cloudflare_generate E (trace m1) prompt temperature max_tokens stop)
        as [cf | e]; [|done].
      by destruct (success cf).
  - eexists _, _. split; [reflexivity|].
    split; [done|]. split; [done|]. split; [|done].
    rewrite Htl, fallback_calls_app, Hfb. lia.
Qed.

Lemma fallback_after_exhaustion_witness :
  generate (E_answers (Raise network_error)) "hi" (7 # 10) 2000 None (start two_keys) =
    (Ret cloudflare_answer,
     {| self := two_keys;
        trace := [EvGenerateContent (model two_keys) "hi" (generation_config (7 # 10) 2000 None);
                  EvFallback "hi" (7 # 10) 2000 None] |}).
Proof.
  destruct (fallback_after_exhaustion (E_answers (Raise network_error)) "hi" (7 # 10) 2000
              None (start two_keys)
              (after (EvGenerateContent (model two_keys) "hi"
                        (generation_config (7 # 10) 2000 None)) (start two_keys))
              (Some network_error))
    as (result & m' & Hgen & _); [reflexivity|].
  rewrite Hgen. vm_compute in Hgen. injection Hgen as <- <-. reflexivity.
Defined.

(** [generate] returns, and what it leaves behind. *)
Lemma generate_returns E prompt temperature max_tokens stop m :
  exists out m1 r m',
    generate_loop E (length (api_keys (self m))) prompt temperature max_tokens stop None m
      = (Ret out, m1) /\
    loop_run E prompt temperature max_tokens stop (length (api_keys (self m))) None m out m1 /\
    generate E prompt temperature max_tokens stop m = (Ret r, m') /\
    self m' = self m1 /\
    rotations (trace m') = rotations (trace m1) /\
    match out with
    | (Some result, _) => r = result
    | (None, le) =>
        r = failure_result le \/
        (fallback_available E m1 = true /\ success r = true /\
         env_cloudflare_generate E (trace m1) prompt temperature max_tokens stop = Ret r)
    end.
Proof.
  destruct (generate_loop_run E prompt temperature max_tokens stop
              (length (api_keys (self m))) None m) as (out & m1 & Hloop & Hrun).
  exists out, m1. rewrite (generate_cases _ _ _ _ _ _ _ _ Hloop).
  destruct out as [[result |] le].
  - by exists result, m1.
  - destruct (fallback_available E m1) eqn:Hav.
    + eexists _, _. split; [done|]. split; [done|]. split; [reflexivity|].
      cbn [after self trace]. split; [done|]. split.
      * rewrite rotations_app. cbn. lia.
      * unfold fallback_result.
        destruct (env_cloudflare_generate E (trace m1) prompt temperature max_tokens stop)
          as [cf | e]; [|by left].
        destruct (success cf) eqn:Hs; [by right | by left].
    + eexists _, _. split; [done|]. split; [done|]. split; [reflexivity|].
      split; [done|]. split; [done | by left].
Qed.

(** [chat], by what [generate] returns. *)
Lemma chat_cases E messages temperature max_tokens m r m' :
  generate E (_messages_to_prompt messages) temperature max_tokens None m = (Ret r, m') ->
  chat E messages temperature max_tokens m =
    if success r then (Ret (text r), m')
    else (Raise (PyExn OtherException (str_error (error r))), m').
Proof.
  intros Hgen. unfold chat. unfold_st. rewrite Hgen. by destruct (success r).
Qed.

(** C4: whatever the prompt and whatever the provider and the secondary
    provider do (return anything, raise anything), [generate] does not raise:
    it returns a result [r], and the success flag of [r] reflects the outcome
    of the calls this very run made, which are the events [tl] the run appends
    to the trace.  With a non-empty pool the run begins with a call of the
    provider, on the model configured on entry with the prompt and the
    generation config of the request.  A provider call of the run from whose
    response a text [s] is extracted ends the run and decides the result:
    the success result of [s], or the empty-response result when [s] is
    empty.  A call of the secondary provider that gives a successful result
    ends the run with that result.  So [success = True] exactly when a
    provider call of the run gave a non-empty text or its call of the
    secondary provider gave a successful result, and a result with
    [success = False] is the empty-response result or a failure result.
    [chat] returns the text of that result when it reports success and raises
    an exception carrying its error when it does not. *)
Theorem generate_absorbs_chat_raises :
  (forall (E : Env) prompt temperature max_tokens stop (m : machine),
     exists r m' tl,
       generate E prompt temperature max_tokens stop m = (Ret r, m') /\
       trace m' = (trace m ++ tl)%list /\
       (api_keys (self m) <> [] ->
          exists tl',
            tl = EvGenerateContent (model (self m)) prompt
                   (generation_config temperature max_tokens stop) :: tl') /\
       (forall k mdl p c s,
          tl !! k = Some (EvGenerateContent mdl p c) ->
          attempt_outcome E (trace m ++ take k tl) mdl p c = Ret s ->
          r = result_of_text prompt s /\ length tl = S k) /\
       (forall k p t mt st cf,
          tl !! k = Some (EvFallback p t mt st) ->
          env_cloudflare_generate E (trace m ++ take k tl) p t mt st = Ret cf ->
          success cf = true ->
          r = cf /\ length tl = S k) /\
       (success r = true <->
          (exists k mdl s,
             tl !! k = Some (EvGenerateContent mdl prompt
                               (generation_config temperature max_tokens stop)) /\
             attempt_outcome E (trace m ++ take k tl) mdl prompt
               (generation_config temperature max_tokens stop) = Ret s /\
             s <> "") \/
          (exists k cf,
             tl !! k = Some (EvFallback prompt temperature max_tokens stop) /\
             env_cloudflare_generate E (trace m ++ take k tl) prompt temperature
               max_tokens stop = Ret cf /\
             success cf = true)) /\
       (success r = false ->
          r = empty_response_result \/ exists last_error, r = failure_result last_error)) /\
  (forall (E : Env) messages temperature max_tokens (m : machine),
     exists r m',
       generate E (_messages_to_prompt messages) temperature max_tokens None m
         = (Ret r, m') /\
       chat E messages temperature max_tokens m =
         if success r then (Ret (text r), m')
         else (Raise (PyExn OtherException (str_error (error r))), m')).
Proof.
  split.
  - intros E prompt temperature max_tokens stop m.
    destruct (generate_by_calls E prompt temperature max_tokens stop m)
      as (r & m' & tl & Hgen & Htl & Hfirst & Hcall & Hcf & Hyes & Hno).
    exists r, m', tl. do 5 (split; [done|]). split; [split|].
    + exact Hyes.
    + intros [(k & mdl & s & Hk & Ho & Hs) | (k & cf & Hk & Henv & Hs)].
      * destruct (Hcall _ _ _ _ _ Hk Ho) as [-> _].
        unfold result_of_text. by destruct s.
      * by destruct (Hcf _ _ _ _ _ _ Hk Henv Hs) as [-> _].
    + intros Hs. destruct (Hno Hs) as [(k & mdl & _ & _ & _ & ->) | (le & -> & _)].
      * by left.
      * right. by exists le.
  - intros E messages temperature max_tokens m.
    destruct (generate_returns E (_messages_to_prompt messages) temperature max_tokens None m)
      as (out & m1 & r & m' & _ & _ & Hgen & _).
    exists r, m'. split; [done|]. by apply chat_cases.
Qed.

Lemma init_valid ks k s :
  __init__ ks k = Ret s -> current_key_index s = 0%nat /\ valid_index s.
Proof.
  unfold __init__, valid_index.
  set (keys0 := List.filter PyStr.truthy _).
  set (keys := match keys0 with [] => _ | _ => _ end).
  destruct keys as [|k0 keys']; [done|].
  simpl. intros [= <-]. simpl. split; [done | lia].
Qed.

Lemma rotate_scan_valid n t m :
  valid_index (self m) -> valid_index (self (_rotate_key_scan n t m).2).
Proof.
  intros Hvalid. unfold valid_index in *.
  pose proof (rotate_scan_spec n t m ltac:(lia)) as H.
  destruct (List.find _ _) as [j|].
  - destruct H as (key & Hkey & ->). simpl. by eapply lookup_lt_Some.
  - destruct H as (i & -> & Hi). simpl. destruct Hi as [-> | Hi]; done.
Qed.

(** C7: the active index is a valid index into the pool throughout the
    life of an instance, and only [_rotate_key] changes it: [__init__] sets
    it to 0 in a pool that is not empty; every turn of the scan of
    [_rotate_key] keeps it in range, and [_rotate_key] ends on an eligible
    index of the pool or on the index it started from; [generate] and [chat]
    change the instance by invocations of [_rotate_key] only, and not at all
    when they invoke it never; [get_status] changes nothing. *)
Theorem active_index_invariant :
  (forall ks k s, __init__ ks k = Ret s -> current_key_index s = 0%nat /\ valid_index s) /\
  (forall n t m, valid_index (self m) -> valid_index (self (_rotate_key_scan n t m).2)) /\
  (forall (E : Env) m,
     exists b m',
       _rotate_key E m = (Ret b, m') /\
       api_keys (self m') = api_keys (self m) /\
       (valid_index (self m) -> valid_index (self m')) /\
       (b = true ->
          valid_index (self m') /\
          eligible (self m') (env_time E (trace m)) (current_key_index (self m')) = true) /\
       (b = false -> current_key_index (self m') = current_key_index (self m))) /\
  (forall (E : Env) prompt temperature max_tokens stop m,
     exists r m',
       generate E prompt temperature max_tokens stop m = (Ret r, m') /\
       rotated E (self m) (self m') /\
       api_keys (self m') = api_keys (self m) /\
       (valid_index (self m) -> valid_index (self m')) /\
       (rotations (trace m') = rotations (trace m) -> self m' = self m)) /\
  (forall (E : Env) messages temperature max_tokens m,
     exists r m',
       chat E messages temperature max_tokens m = (r, m') /\
       rotated E (self m) (self m') /\
       api_keys (self m') = api_keys (self m) /\
       (valid_index (self m) -> valid_index (self m')) /\
       (rotations (trace m') = rotations (trace m) -> self m' = self m)) /\
  (forall m, exists st, get_status m = (Ret st, m)).
Proof.
  assert (Hgen : forall (E : Env) prompt temperature max_tokens stop m,
     exists r m',
       generate E prompt temperature max_tokens stop m = (Ret r, m') /\
       rotated E (self m) (self m') /\
       api_keys (self m') = api_keys (self m) /\
       (valid_index (self m) -> valid_index (self m')) /\
       (rotations (trace m') = rotations (trace m) -> self m' = self m)).
  { intros E prompt temperature max_tokens stop m.
    destruct (generate_returns E prompt temperature max_tokens stop m)
      as (out & m1 & r & m' & Hloop & Hrun & Hgen & Hself & Hrot & _).
    exists r, m'. split; [done|]. rewrite Hself, Hrot.
    pose proof (loop_run_rotated _ _ _ _ _ _ _ _ _ _ Hrun) as Hrotated.
    destruct (rotated_valid _ _ _ Hrotated) as [Hkeys Hvalid].
    destruct (loop_run_trace _ _ _ _ _ _ _ _ _ _ Hrun) as (tl & Htl & _ & _ & _ & Hsame).
    repeat split; try done.
    intros Heq. apply Hsame. rewrite Htl, rotations_app in Heq. lia. }
  split; [apply init_valid|]. split; [apply rotate_scan_valid|].
  split; [|split; [exact Hgen|split]].
  - intros E m.
    destruct (rotate_key_returns E m) as (b & m' & Hrot & _ & Hkeys & Hvalid).
    exists b, m'. split; [done|]. split; [done|]. split; [done|].
    destruct (decide (length (api_keys (self m)) <= 1)%nat) as [Hle | Hgt].
    + rewrite (rotate_key_single E m Hle) in Hrot. injection Hrot as <- <-.
      split; done.
    + pose proof (rotate_key_find E m ltac:(lia)) as Hfind. simpl in Hfind.
      destruct (List.find _ _) as [j|] eqn:Hj.
      * destruct Hfind as (key & Hkey & Hrot'). rewrite Hrot in Hrot'.
        injection Hrot' as -> ->. simpl.
        apply List.find_some in Hj as [_ Hel].
        split; [|done]. intros _. split; [|exact Hel].
        unfold valid_index. simpl. by eapply lookup_lt_Some.
      * rewrite Hrot in Hfind. injection Hfind as -> ->. split; done.
  - intros E messages temperature max_tokens m.
    destruct (Hgen E (_messages_to_prompt messages) temperature max_tokens None m)
      as (r & m' & Hg & Hrest).
    rewrite (chat_cases _ _ _ _ _ _ _ Hg).
    destruct (success r); eexists _, m'; (split; [reflexivity | exact Hrest]).
  - intros m. unfold get_status. unfold_st. by eexists.
Qed.

(** ** The admin seeder *)

Import InitAdmin.

(** One run of the seeder, case by case. *)
Lemma run_cases F stored :
  let by_email := fun u => String.eqb (email u) "admin@test.com" in
  let by_username := fun u => String.eqb (username u) "admin" in
  let failed cs e :=
    {| rows := stored; pending := []; calls := cs ++ [Rollback; Close];
       stdout := ["❌ Error creating admin: " +:+ exn_str e] |} in
  run F stored =
    match query_raises F [] with
    | Some e => failed [QueryByEmail "admin@test.com"] e
    | None =>
        match List.find by_email stored with
        | Some _ =>
            {| rows := stored; pending := [];
               calls := [QueryByEmail "admin@test.com"; Close];
               stdout := ["Admin user already exists!"] |}
        | None =>
            match query_raises F [QueryByEmail "admin@test.com"] with
            | Some e => failed [QueryByEmail "admin@test.com"; QueryByUsername "admin"] e
            | None =>
                match List.find by_username stored with
                | Some _ =>
                    {| rows := stored; pending := [];
                       calls := [QueryByEmail "admin@test.com"; QueryByUsername "admin"; Close];
                       stdout := ["Admin user (by username) already exists!"] |}
                | None =>
                    match commit_raises F [QueryByEmail "admin@test.com";
                                           QueryByUsername "admin"; Add admin_user] with
                    | Some e =>
                        failed [QueryByEmail "admin@test.com"; QueryByUsername "admin";
                                Add admin_user; Commit] e
                    | None =>
                        {| rows := stored ++ [admin_user]; pending := [];
                           calls := [QueryByEmail "admin@test.com"; QueryByUsername "admin";
                                     Add admin_user; Commit; Close];
                           stdout := ["✅ Admin user created successfully!";
                                      "   Email: admin@test.com";
                                      "   Password: Admin@123"] |}
                    end
                end
            end
        end
    end.
Proof.
  intros by_email by_username failed. subst failed.
  unfold run, create_admin_user, SessionLocal, query_first, add, commit, rollback, close,
    print, called.
  unfold_st. cbn [rows pending calls stdout app].
  destruct (query_raises F []) as [e|]; [reflexivity|].
  fold by_email. destruct (List.find by_email stored) as [u|]; [reflexivity|].
  cbn [rows pending calls stdout app].
  destruct (query_raises F [QueryByEmail "admin@test.com"]) as [e|]; [reflexivity|].
  fold by_username. destruct (List.find by_username stored) as [u|]; [reflexivity|].
  cbn [rows pending calls stdout app].
  destruct (commit_raises F _) as [e|]; reflexivity.
Qed.

Lemma find_app_none {A} (p : A -> bool) (l : list A) (x : A) :
  List.find p l = None -> p x = true -> List.find p (l ++ [x]) = Some x.
Proof.
  induction l as [|y l IH]; simpl; intros Hnone Hx.
  - by rewrite Hx.
  - destruct (p y); [done | by apply IH].
Qed.

(** C9: the seeder is idempotent.  Every run queries the store by the
    email admin@test.com first and, that lookup giving nothing, by the
    username admin; if either lookup gives a match the run inserts nothing,
    leaves the store as it is and reports that the admin user already exists;
    so a second run after one that created the account finds it and inserts
    nothing. *)
Theorem seeder_idempotent :
  (forall F stored,
     exists rest, calls (run F stored) = QueryByEmail "admin@test.com" :: rest) /\
  (forall F stored u,
     query_raises F [] = None ->
     List.find (fun u => String.eqb (email u) "admin@test.com") stored = Some u ->
     run F stored =
       {| rows := stored; pending := [];
          calls := [QueryByEmail "admin@test.com"; Close];
          stdout := ["Admin user already exists!"] |}) /\
  (forall F stored u,
     query_raises F [] = None ->
     query_raises F [QueryByEmail "admin@test.com"] = None ->
     List.find (fun u => String.eqb (email u) "admin@test.com") stored = None ->
     List.find (fun u => String.eqb (username u) "admin") stored = Some u ->
     run F stored =
       {| rows := stored; pending := [];
          calls := [QueryByEmail "admin@test.com"; QueryByUsername "admin"; Close];
          stdout := ["Admin user (by username) already exists!"] |}) /\
  (forall F1 F2 stored,
     rows (run F1 stored) <> stored ->
     rows (run F1 stored) = (stored ++ [admin_user])%list /\
     rows (run F2 (rows (run F1 stored))) = rows (run F1 stored) /\
     List.filter is_insert (calls (run F2 (rows (run F1 stored)))) = [] /\
     (query_raises F2 [] = None ->
        run F2 (rows (run F1 stored)) =
          {| rows := rows (run F1 stored); pending := [];
             calls := [QueryByEmail "admin@test.com"; Close];
             stdout := ["Admin user already exists!"] |})) /\
  (forall stored,
     rows (run no_faults (rows (run no_faults stored))) = rows (run no_faults stored) /\
     List.filter is_insert (calls (run no_faults (rows (run no_faults stored)))) = []).
Proof.
  assert (Htwice : forall F1 F2 stored,
     rows (run F1 stored) <> stored ->
     rows (run F1 stored) = (stored ++ [admin_user])%list /\
     rows (run F2 (rows (run F1 stored))) = rows (run F1 stored) /\
     List.filter is_insert (calls (run F2 (rows (run F1 stored)))) = [] /\
     (query_raises F2 [] = None ->
        run F2 (rows (run F1 stored)) =
          {| rows := rows (run F1 stored); pending := [];
             calls := [QueryByEmail "admin@test.com"; Close];
             stdout := ["Admin user already exists!"] |})).
  { intros F1 F2 stored. rewrite (run_cases F1 stored). cbv zeta.
    set (by_email := fun u => String.eqb (email u) "admin@test.com").
    set (by_username := fun u => String.eqb (username u) "admin").
    destruct (query_raises F1 []) as [e|];
      [cbn [rows]; intros H; destruct (H eq_refl)|].
    destruct (List.find by_email stored) as [u|] eqn:Hemail;
      [cbn [rows]; intros H; destruct (H eq_refl)|].
    destruct (query_raises F1 [QueryByEmail "admin@test.com"]) as [e|];
      [cbn [rows]; intros H; destruct (H eq_refl)|].
    destruct (List.find by_username stored) as [u|];
      [cbn [rows]; intros H; destruct (H eq_refl)|].
    destruct (commit_raises F1 _) as [e|];
      [cbn [rows]; intros H; destruct (H eq_refl)|].
    cbn [rows]. intros _. split; [done|].
    rewrite (run_cases F2 (stored ++ [admin_user])). cbv zeta.
    fold by_email.
    rewrite (find_app_none by_email stored admin_user Hemail eq_refl).
    destruct (query_raises F2 []) as [e|]; done. }
  split; [|split; [|split; [|split; [exact Htwice|]]]].
  - intros F stored. rewrite run_cases. cbv zeta.
    set (by_email := fun u => String.eqb (email u) "admin@test.com").
    set (by_username := fun u => String.eqb (username u) "admin").
    destruct (query_raises F []) as [e|]; [by eexists|].
    destruct (List.find by_email stored) as [u|]; [by eexists|].
    destruct (query_raises F [QueryByEmail "admin@test.com"]) as [e|]; [by eexists|].
    destruct (List.find by_username stored) as [u|]; [by eexists|].
    destruct (commit_raises F _) as [e|]; by eexists.
  - intros F stored u Hq Hfind. rewrite run_cases. cbv zeta. by rewrite Hq, Hfind.
  - intros F stored u Hq1 Hq2 Hemail Hname. rewrite run_cases. cbv zeta.
    by rewrite Hq1, Hemail, Hq2, Hname.
  - intros stored.
    assert (Hcases :
      rows (run no_faults stored) = (stored ++ [admin_user])%list \/
      (rows (run no_faults stored) = stored /\
       List.filter is_insert (calls (run no_faults stored)) = [])).
    { rewrite run_cases. cbv zeta. cbn [query_raises commit_raises no_faults].
      set (by_email := fun u => String.eqb (email u) "admin@test.com").
      set (by_username := fun u => String.eqb (username u) "admin").
      destruct (List.find by_email stored) as [u|]; [by right|].
      destruct (List.find by_username stored) as [u|]; [by right | by left]. }
    destruct Hcases as [Hnew | [Hsame Hnone]].
    + assert (Hne : rows (run no_faults stored) <> stored).
      { rewrite Hnew. intros Heq. apply (f_equal length) in Heq.
        rewrite length_app in Heq. simpl in Heq. lia. }
      by destruct (Htwice no_faults no_faults stored Hne) as (_ & H1 & H2 & _).
    + by rewrite !Hsame.
Qed.

(** ** Examples *)

Example lower_429 :
  PyStr.lower "HTTP 429: Too Many Requests" = "http 429: too many requests".
Proof. reflexivity. Qed.

Example split_ws_abc : PyStr.split_ws "  a b   c " = ["a"; "b"; "c"].
Proof. reflexivity. Qed.

Example init_keys :
  __init__ (Some " k1, k2 ,,k3") (Some "single") = Ret (fresh "k1" ["k1"; "k2"; "k3"]).
Proof. reflexivity. Qed.

Example init_single_key : __init__ None (Some "single") = Ret (fresh "single" ["single"]).
Proof. reflexivity. Qed.

Example init_no_key : exists e, __init__ (Some " , ") None = Raise e /\ exn_cls e = ValueError.
Proof. eexists. split; reflexivity. Qed.

(** The token estimate for the prompt "a b c" and the response "d e". *)
Example token_estimate :
  tokens_used (success_result "a b c" "d e") = 5%nat.
Proof. reflexivity. Qed.

Example messages_prompt :
  _messages_to_prompt
    [{| role := Some "system"; content := Some "Be brief." |};
     {| role := None; content := Some "Hi" |};
     {| role := Some "tool"; content := Some "dropped" |}] =
  "System Instructions: Be brief." +:+ PyStr.LF +:+ PyStr.LF +:+
  "User: Hi" +:+ PyStr.LF +:+ PyStr.LF +:+ "Assistant: ".
Proof. reflexivity. Qed.

(** The scan wraps around: from the second of three keys, the third being
    in cooldown, the first is selected. *)
Example rotate_wraps_around :
  exists m', _rotate_key E_rate_limited (start three_keys_cooling) = (Ret true, m') /\
             current_key_index (self m') = 0%nat /\
             configured_api_key (model (self m')) = "k1" /\
             key_cooldowns (self m') !! 1%nat = Some 1000.
Proof. eexists. split; [vm_compute; reflexivity|]. split; [|split]; reflexivity. Qed.

(** When a minute passes between the attempts, both rotations of a pool of
    two keys succeed and the loop runs out on the first key again. *)
Example slow_rotations_all_succeed :
  exists r m', generate E_slow_rate_limited "hi" (7 # 10) 2000 None (start two_keys)
                 = (Ret r, m') /\
               rotations (trace m') = 2%nat /\
               current_key_index (self m') = 0%nat /\
               r = failure_result (Some quota_error).
Proof. eexists _, _. split; [vm_compute; reflexivity|]. split; [|split]; reflexivity. Qed.

(** An accessor that raises outside the classes the extraction catches ends
    the turn as an exception of the provider call does. *)
Example other_accessor_error :
  extract_text {| response_text := Fails network_error; response_candidates := Has [] |}
    = Raise network_error.
Proof. reflexivity. Qed.

Example seeder_twice :
  rows (run no_faults []) = [admin_user] /\
  run no_faults (rows (run no_faults [])) =
    {| rows := [admin_user]; pending := [];
       calls := [QueryByEmail "admin@test.com"; Close];
       stdout := ["Admin user already exists!"] |}.
Proof. split; reflexivity. Qed.

(** * White space: [strip] and [split] against their descriptions *)

(** ** Strings *)

Lemma append_nil_l (s : string) : "" +:+ s = s.
Proof. reflexivity. Qed.

Lemma append_cons (c : ascii) (s t : string) : String c s +:+ t = String c (s +:+ t).
Proof. reflexivity. Qed.

Lemma append_nil_r (s : string) : s +:+ "" = s.
Proof. induction s as [|c s IH]; [done|]. by rewrite append_cons, IH. Qed.

Lemma append_assoc (a b c : string) : (a +:+ b) +:+ c = a +:+ (b +:+ c).
Proof.
  induction a as [|x a IH]; [reflexivity|].
  by rewrite !append_cons, IH.
Qed.

Lemma append_length (a b : string) :
  String.length (a +:+ b) = (String.length a + String.length b)%nat.
Proof. induction a as [|x a IH]; [done|]. rewrite append_cons. simpl. by rewrite IH. Qed.

Lemma append_eq_nil (a b : string) : a +:+ b = "" -> a = "" /\ b = "".
Proof. destruct a; [done|]. rewrite append_cons. discriminate. Qed.

Lemma append_inv_head (a b c : string) : a +:+ b = a +:+ c -> b = c.
Proof.
  induction a as [|x a IH]; [done|]. rewrite !append_cons. intros [= H]. by apply IH.
Qed.

(** Two ways to cut the same string: one cut is before the other. *)
Lemma append_cuts (a b c d : string) :
  a +:+ b = c +:+ d ->
  (exists x, c = a +:+ x /\ b = x +:+ d) \/
  (exists x, x <> "" /\ a = c +:+ x /\ d = x +:+ b).
Proof.
  revert c. induction a as [|x a IH]; intros c H.
  - left. exists c. by rewrite append_nil_l in *.
  - destruct c as [|y c].
    + right. exists (String x a). by rewrite append_nil_l in *.
    + rewrite !append_cons in H. injection H as -> H.
      destruct (IH c H) as [(z & -> & ->) | (z & Hz & -> & ->)].
      * left. by exists z.
      * right. by exists z.
Qed.

Lemma string_length_ind (P : string -> Prop) :
  (forall s, (forall t, (String.length t < String.length s)%nat -> P t) -> P s) ->
  forall s, P s.
Proof.
  intros Hstep s. remember (String.length s) as n eqn:Hn.
  revert s Hn. induction (lt_wf n) as [n _ IH]. intros s ->.
  apply Hstep. intros t Ht. by apply (IH (String.length t)).
Qed.

(** ** The table of white-space characters *)

(** A white-space character begins with a byte that is no continuation
    byte, and continues with continuation bytes. *)
Lemma whitespace_shape w :
  In w PyStr.whitespace ->
  exists c w', w = String c w' /\ is_continuation c = false /\
               forall p a q, w' = p +:+ String a q -> is_continuation a = true.
Proof.
  intros H. vm_compute in H.
  repeat (destruct H as [<- | H];
          [eexists _, _; split; [reflexivity|]; split; [reflexivity|];
           intros p a q Hq; destruct p as [|? [|? [|? ?]]]; rewrite ?append_cons, ?append_nil_l in Hq;
           try discriminate; by simplify_eq |]).
  done.
Qed.

Lemma whitespace_not_empty w : In w PyStr.whitespace -> w <> "".
Proof. by intros (c & w' & -> & _)%whitespace_shape. Qed.

Lemma space_width_whitespace w rest :
  In w PyStr.whitespace -> PyStr.space_width (w +:+ rest) = String.length w.
Proof.
  intros H. vm_compute in H.
  repeat (destruct H as [<- | H]; [vm_compute; reflexivity|]).
  done.
Qed.

Lemma space_width_inv s k :
  PyStr.space_width s = S k ->
  exists w rest, In w PyStr.whitespace /\ s = w +:+ rest /\ String.length w = S k.
Proof.
  unfold PyStr.space_width.
  destruct (List.find _ PyStr.whitespace) as [w|] eqn:Hfind; [|done].
  apply List.find_some in Hfind as [Hin [rest ->]%startswith_spec].
  intros Hlen. by exists w, rest.
Qed.

Lemma space_width_starts s : PyStr.space_width s <> 0%nat <-> starts_with_space s.
Proof.
  split.
  - destruct (PyStr.space_width s) as [|k] eqn:Hw; [done|]. intros _.
    apply space_width_inv in Hw as (w & rest & Hin & -> & _). by exists w, rest.
  - intros (w & rest & Hin & ->). rewrite space_width_whitespace by done.
    apply whitespace_not_empty in Hin. by destruct w.
Qed.

Lemma space_width_zero s : PyStr.space_width s = 0%nat <-> ~ starts_with_space s.
Proof.
  rewrite <- space_width_starts. destruct (PyStr.space_width s); [tauto|].
  split; [done | intros H; by destruct H].
Qed.

(** A white-space character begins where a character begins: not inside
    another white-space character. *)
Lemma whitespace_no_straddle w p x rest :
  In w PyStr.whitespace -> w = p +:+ x -> p <> "" -> x <> "" ->
  ~ starts_with_space (x +:+ rest).
Proof.
  intros (c & w' & -> & _ & Hcont)%whitespace_shape Hw Hp Hx (y & r & Hy & Heq).
  apply whitespace_shape in Hy as (cy & y' & -> & Hcy & _).
  destruct p as [|cp p]; [done|]. destruct x as [|cx x]; [done|].
  rewrite !append_cons in *. injection Hw as -> Hw. injection Heq as -> _.
  rewrite (Hcont _ _ _ Hw) in Hcy. done.
Qed.

(** ** [blank] *)

Lemma blank_app a b : blank a -> blank b -> blank (a +:+ b).
Proof.
  induction 1 as [|w s Hw Hs IH]; intros Hb; [done|].
  rewrite append_assoc. constructor; [done | by apply IH].
Qed.

Lemma blank_one w : In w PyStr.whitespace -> blank w.
Proof. intros Hw. rewrite <- (append_nil_r w). constructor; [done | constructor]. Qed.

Lemma blank_starts b : blank b -> b <> "" -> starts_with_space b.
Proof. destruct 1 as [|w s Hw Hs]; [done|]. intros _. by exists w, s. Qed.

Lemma blank_ends b : blank b -> b <> "" -> ends_with_space b.
Proof.
  induction 1 as [|w s Hw Hs IH]; [done|]. intros _.
  destruct s as [|c s].
  - exists "", w. by rewrite append_nil_r, append_nil_l.
  - destruct IH as (p & w' & Hw' & Heq); [done|].
    exists (w +:+ p), w'. split; [done|]. by rewrite Heq, append_assoc.
Qed.

(** White space taken from the end of white space leaves white space. *)
Lemma blank_cancel k r : blank (k +:+ r) -> blank r -> blank k.
Proof.
  intros Hkr Hr. remember (k +:+ r) as s eqn:Hs. revert k Hs.
  induction Hkr as [|w s Hw Hblank IH]; intros k Hs.
  - symmetry in Hs. apply append_eq_nil in Hs as [-> _]. constructor.
  - destruct (append_cuts _ _ _ _ Hs) as [(x & -> & ->) | (x & Hx & -> & ->)].
    + constructor; [done|]. by apply IH.
    + destruct k as [|c k]; [constructor|]. exfalso.
      apply (whitespace_no_straddle _ _ _ s Hw eq_refl); [done | done|].
      apply blank_starts; [done|]. by destruct x.
Qed.

(** ** [lstrip], [rstrip] and [strip] *)

Lemma lstrip_aux_skip p s :
  PyStr.lstrip_aux (String.length p) (p +:+ s) = PyStr.lstrip s.
Proof.
  induction p as [|c p IH]; [done|]. rewrite append_cons. exact IH.
Qed.

Lemma lstrip_space w rest :
  In w PyStr.whitespace -> PyStr.lstrip (w +:+ rest) = PyStr.lstrip rest.
Proof.
  intros Hw. pose proof (space_width_whitespace w rest Hw) as Hwidth.
  destruct w as [|c w]; [by apply whitespace_not_empty in Hw|].
  rewrite append_cons in *. unfold PyStr.lstrip at 1. cbn [PyStr.lstrip_aux].
  rewrite Hwidth. cbn [String.length]. apply lstrip_aux_skip.
Qed.

Lemma lstrip_stop s : PyStr.space_width s = 0%nat -> PyStr.lstrip s = s.
Proof.
  intros Hw. destruct s as [|c s]; [done|].
  unfold PyStr.lstrip. cbn [PyStr.lstrip_aux]. by rewrite Hw.
Qed.

Lemma lstrip_blank b s : blank b -> PyStr.lstrip (b +:+ s) = PyStr.lstrip s.
Proof.
  induction 1 as [|w b Hw Hb IH]; [done|].
  by rewrite append_assoc, lstrip_space.
Qed.

(** [lstrip] removes leading white space, all of it. *)
Lemma lstrip_spec s :
  exists l, blank l /\ s = l +:+ PyStr.lstrip s /\ ~ starts_with_space (PyStr.lstrip s).
Proof.
  induction s as [s IH] using string_length_ind.
  destruct (PyStr.space_width s) as [|k] eqn:Hw.
  - exists "". rewrite (lstrip_stop s Hw). split; [constructor|]. split; [done|].
    by apply space_width_zero.
  - apply space_width_inv in Hw as (w & rest & Hin & -> & Hlen).
    destruct (IH rest) as (l & Hl & Hrest & Hstop).
    { rewrite append_length. lia. }
    exists (w +:+ l). rewrite lstrip_space by done.
    split; [by constructor|]. split; [|done].
    by rewrite append_assoc, <- Hrest.
Qed.

Lemma all_space_blank s : PyStr.all_space s = true <-> blank s.
Proof.
  unfold PyStr.all_space. split.
  - destruct (lstrip_spec s) as (l & Hl & Hs & _).
    destruct (PyStr.lstrip s); [|done]. intros _.
    rewrite append_nil_r in Hs. by subst.
  - intros Hb. rewrite <- (append_nil_r s), lstrip_blank by done. done.
Qed.

Lemma not_all_space s : PyStr.all_space s = false <-> ~ blank s.
Proof.
  rewrite <- all_space_blank. destruct (PyStr.all_space s).
  - split; [done | intros H; by destruct H].
  - split; [by intros _ ? | done].
Qed.

(** [rstrip] removes trailing white space, all of it. *)
Lemma rstrip_spec s :
  exists r, blank r /\ s = PyStr.rstrip s +:+ r /\ ~ ends_with_space (PyStr.rstrip s).
Proof.
  induction s as [|c s (r & Hr & Hs & Hend)]; cbn [PyStr.rstrip].
  - exists "". split; [constructor|]. split; [done|].
    intros (p & w & Hw & Heq). symmetry in Heq. apply append_eq_nil in Heq as [_ ->].
    by apply whitespace_not_empty in Hw.
  - destruct (PyStr.all_space (String c s)) eqn:Hall.
    + exists (String c s). split; [by apply all_space_blank|]. split; [done|].
      intros (p & w & Hw & Heq). symmetry in Heq. apply append_eq_nil in Heq as [_ ->].
      by apply whitespace_not_empty in Hw.
    + exists r. split; [done|]. split; [by rewrite append_cons, <- Hs|].
      intros (p & w & Hw & Heq). destruct p as [|cp p].
      * rewrite append_nil_l in Heq. apply not_all_space in Hall. apply Hall.
        rewrite Hs, <- append_cons, Heq. apply blank_app; [by apply blank_one | done].
      * rewrite append_cons in Heq. injection Heq as -> Heq.
        apply Hend. by exists p, w.
Qed.

(** What is left of [k] followed by white space, when [k] does not end with
    white space, is [k]. *)
Lemma rstrip_unique k r :
  blank r -> ~ ends_with_space k -> PyStr.rstrip (k +:+ r) = k.
Proof.
  intros Hr. induction k as [|c k IH]; intros Hend.
  - rewrite append_nil_l. destruct r as [|c r]; [done|].
    cbn [PyStr.rstrip]. by rewrite (proj2 (all_space_blank _) Hr).
  - rewrite append_cons. cbn [PyStr.rstrip].
    assert (Hall : PyStr.all_space (String c (k +:+ r)) = false).
    { apply not_all_space. rewrite <- append_cons. intros Hb.
      apply Hend, blank_ends; [|done]. by apply (blank_cancel _ r). }
    rewrite Hall, IH; [done|].
    intros (p & w & Hw & ->). apply Hend. exists (String c p), w. by rewrite append_cons.
Qed.

(** [strip] is what its description asks for, and nothing else is. *)
Lemma strip_trimmed f : trimmed f (PyStr.strip f).
Proof.
  unfold PyStr.strip.
  destruct (lstrip_spec f) as (l & Hl & Hf & Hstart).
  destruct (rstrip_spec (PyStr.lstrip f)) as (r & Hr & Hk & Hend).
  exists l, r. split; [by rewrite <- Hk|]. split; [done|]. split; [done|]. split; [|done].
  intros (w & rest & Hw & Heq). apply Hstart. exists w, (rest +:+ r).
  split; [done|]. by rewrite Hk, Heq, append_assoc.
Qed.

Lemma trimmed_unique f k : trimmed f k -> k = PyStr.strip f.
Proof.
  intros (l & r & -> & Hl & Hr & Hstart & Hend). unfold PyStr.strip.
  rewrite lstrip_blank by done.
  destruct k as [|c k].
  { rewrite append_nil_l, <- (append_nil_r r), lstrip_blank by done. done. }
  assert (Hnone : ~ starts_with_space (String c k +:+ r)).
  { intros (w & rest & Hw & Heq).
    destruct (append_cuts _ _ _ _ Heq) as [(x & -> & ->) | (x & Hx & Hk & _)].
    - destruct x as [|cx x].
      + apply Hstart. exists (String c k), "". by rewrite !append_nil_r in *.
      + apply (whitespace_no_straddle _ _ _ rest Hw eq_refl); [done | done |].
        by apply blank_starts.
    - apply Hstart. by exists w, x. }
  rewrite lstrip_stop by (by apply space_width_zero).
  by rewrite rstrip_unique.
Qed.

(** ** [split(',')] and [join] *)

Lemma join_cons sep x l :
  l <> [] -> PyStr.join sep (x :: l) = x +:+ sep +:+ PyStr.join sep l.
Proof. by destruct l. Qed.

Lemma split_on_not_nil sep s : PyStr.split_on sep s <> [].
Proof.
  destruct s as [|c s]; simpl; [done|].
  destruct (Ascii.eqb c sep); [done|]. by destruct (PyStr.split_on sep s).
Qed.

Lemma join_split_on sep s :
  PyStr.join (String sep "") (PyStr.split_on sep s) = s.
Proof.
  induction s as [|c s IH]; [done|]. cbn [PyStr.split_on].
  pose proof (split_on_not_nil sep s) as Hne.
  destruct (Ascii.eqb c sep) eqn:Hc.
  - apply Ascii.eqb_eq in Hc as ->. rewrite join_cons by done.
    by rewrite append_nil_l, append_cons, append_nil_l, IH.
  - destruct (PyStr.split_on sep s) as [|w ws]; [done|].
    destruct ws as [|w' ws].
    + simpl in *. by rewrite IH.
    + rewrite join_cons by done. rewrite join_cons in IH by done.
      by rewrite append_cons, IH.
Qed.

Lemma split_on_no_sep sep s :
  Forall (fun f => ~ In sep (String.list_ascii_of_string f)) (PyStr.split_on sep s).
Proof.
  induction s as [|c s IH]; simpl.
  - constructor; [|done]. simpl. tauto.
  - destruct (Ascii.eqb c sep) eqn:Hc.
    + constructor; [simpl; tauto | done].
    + apply Ascii.eqb_neq in Hc. destruct (PyStr.split_on sep s) as [|w ws].
      * constructor; [|done]. simpl. intuition.
      * inversion IH as [|? ? Hw Hws]; subst. constructor; [|done].
        simpl. intuition.
Qed.

Lemma split_on_field sep f :
  ~ In sep (String.list_ascii_of_string f) -> PyStr.split_on sep f = [f].
Proof.
  induction f as [|c f IH]; [done|]. simpl. intros Hnot.
  destruct (Ascii.eqb c sep) eqn:Hc; [apply Ascii.eqb_eq in Hc; tauto|].
  rewrite IH by tauto. done.
Qed.

Lemma split_on_first sep f rest :
  ~ In sep (String.list_ascii_of_string f) ->
  PyStr.split_on sep (f +:+ String sep rest) = f :: PyStr.split_on sep rest.
Proof.
  induction f as [|c f IH]; intros Hnot.
  - rewrite append_nil_l. cbn [PyStr.split_on]. by rewrite Ascii.eqb_refl.
  - rewrite append_cons. cbn [PyStr.split_on]. simpl in Hnot.
    destruct (Ascii.eqb c sep) eqn:Hc; [apply Ascii.eqb_eq in Hc; tauto|].
    rewrite IH by tauto. done.
Qed.

Lemma split_on_join sep fields :
  fields <> [] ->
  Forall (fun f => ~ In sep (String.list_ascii_of_string f)) fields ->
  PyStr.split_on sep (PyStr.join (String sep "") fields) = fields.
Proof.
  induction fields as [|f fields IH]; [done|]. intros _ Hfree.
  inversion Hfree as [|? ? Hf Hrest]; subst.
  destruct fields as [|g fields].
  - by apply split_on_field.
  - rewrite join_cons by done. rewrite append_cons, append_nil_l.
    rewrite split_on_first by done. by rewrite IH.
Qed.

(** [split(',')] gives the fields, and nothing else does. *)
Lemma split_on_fields s fields :
  fields_of s fields <-> fields = PyStr.split_on "," s.
Proof.
  split.
  - intros (Hne & Hfree & ->). by rewrite split_on_join.
  - intros ->. split; [apply split_on_not_nil|]. split; [apply split_on_no_sep|].
    by rewrite join_split_on.
Qed.

(** ** [split()] *)

Lemma string_of_rev_cons c cur :
  String.string_of_list_ascii (rev (c :: cur)) =
  String.string_of_list_ascii (rev cur) +:+ String c "".
Proof.
  simpl. generalize (rev cur) as l. induction l as [|a l IH]; [done|].
  simpl. by rewrite append_cons, IH.
Qed.

Lemma string_of_rev_not_nil cur :
  cur <> [] -> String.string_of_list_ascii (rev cur) <> "".
Proof.
  destruct cur as [|c cur]; [done|]. intros _. rewrite string_of_rev_cons.
  intros [_ ?]%append_eq_nil. discriminate.
Qed.

Lemma split_ws_aux_skip p cur s :
  PyStr.split_ws_aux (String.length p) cur (p +:+ s) = PyStr.split_ws_aux 0 cur s.
Proof.
  induction p as [|c p IH]; [done|]. rewrite append_cons. exact IH.
Qed.

Lemma split_ws_space w rest cur :
  In w PyStr.whitespace ->
  PyStr.split_ws_aux 0 cur (w +:+ rest) =
    match cur with
    | [] => PyStr.split_ws_aux 0 [] rest
    | _ => String.string_of_list_ascii (rev cur) :: PyStr.split_ws_aux 0 [] rest
    end.
Proof.
  intros Hw. pose proof (space_width_whitespace w rest Hw) as Hwidth.
  destruct w as [|c w]; [by apply whitespace_not_empty in Hw|].
  rewrite append_cons in *. cbn [PyStr.split_ws_aux].
  rewrite Hwidth. cbn [String.length]. rewrite split_ws_aux_skip. done.
Qed.

Lemma split_ws_char c s cur :
  ~ starts_with_space (String c s) ->
  PyStr.split_ws_aux 0 cur (String c s) = PyStr.split_ws_aux 0 (c :: cur) s.
Proof.
  intros Hw%space_width_zero. cbn [PyStr.split_ws_aux]. by rewrite Hw.
Qed.

Lemma split_ws_blank b s :
  blank b -> PyStr.split_ws (b +:+ s) = PyStr.split_ws s.
Proof.
  unfold PyStr.split_ws. induction 1 as [|w b Hw Hb IH]; [done|].
  by rewrite append_assoc, split_ws_space.
Qed.

Lemma clean_tail c w s : clean (String c w) s -> clean w s.
Proof.
  intros Hclean p1 p2 -> Hp2. by apply (Hclean (String c p1) p2).
Qed.

Lemma clean_snoc w c s :
  clean w (String c s) -> ~ starts_with_space (String c s) ->
  clean (w +:+ String c "") s.
Proof.
  intros Hclean Hc p1 p2 Heq Hp2.
  destruct (append_cuts _ _ _ _ Heq) as [(x & -> & Hx) | (x & Hx & -> & ->)].
  - destruct x as [|cx x].
    + rewrite append_nil_l in Hx. subst p2. by rewrite append_cons, append_nil_l.
    + rewrite append_cons in Hx. injection Hx as -> Hx.
      symmetry in Hx. apply append_eq_nil in Hx as [_ ->]. done.
  - rewrite append_assoc, append_cons, append_nil_l. by apply (Hclean p1 x).
Qed.

Lemma word_clean w s :
  word w -> (s <> "" -> starts_with_space s) -> clean w s.
Proof.
  intros [_ Hword] Hs p1 p2 -> Hp2 (x & rest & Hx & Heq).
  assert (Hin : PyStr.contains x (p1 +:+ p2) = true -> False)
    by (rewrite (Hword x Hx); discriminate).
  destruct (append_cuts _ _ _ _ Heq) as [(y & -> & ->) | (y & Hy & -> & _)].
  - destruct y as [|cy y].
    + apply Hin, contains_spec. exists p1, "". by rewrite !append_nil_r.
    + apply (whitespace_no_straddle _ _ _ rest Hx eq_refl); [done | done|].
      by apply Hs.
  - apply Hin, contains_spec. exists p1, y. done.
Qed.

Lemma clean_word w s : w <> "" -> clean w s -> word w.
Proof.
  intros Hne Hclean. split; [done|]. intros x Hx.
  destruct (PyStr.contains x w) eqn:Hin; [|done]. exfalso.
  apply contains_spec in Hin as (a & b & ->).
  apply (Hclean a (x +:+ b) eq_refl).
  - apply whitespace_not_empty in Hx. destruct x; [done|]. by rewrite append_cons.
  - exists x, (b +:+ s). by rewrite append_assoc.
Qed.

(** Reading a word: [split()] reads on to the end of the word. *)
Lemma split_ws_word w s cur :
  clean w s -> (s <> "" -> starts_with_space s) ->
  cur <> [] \/ w <> "" ->
  PyStr.split_ws_aux 0 cur (w +:+ s) =
    (String.string_of_list_ascii (rev cur) +:+ w) :: PyStr.split_ws s.
Proof.
  intros Hclean Hs. revert cur. induction w as [|c w IH]; intros cur Hne.
  - rewrite append_nil_l, append_nil_r. destruct Hne as [Hne | ?]; [|done].
    destruct s as [|c s].
    + by destruct cur.
    + destruct Hs as (x & rest & Hx & ->); [done|].
      unfold PyStr.split_ws. rewrite !split_ws_space by done. by destruct cur.
  - rewrite append_cons, split_ws_char.
    + rewrite IH; [|by apply (clean_tail c)|by left].
      by rewrite string_of_rev_cons, append_assoc.
    + rewrite <- append_cons. by apply (Hclean "" (String c w)).
Qed.

(** The words [split()] gives are the words of the string. *)
Lemma split_ws_unique s ws : words_of s ws -> PyStr.split_ws s = ws.
Proof.
  induction 1 as [b Hb | b w s ws Hb Hw Hs Hws IH].
  - rewrite <- (append_nil_r b), split_ws_blank by done. done.
  - rewrite split_ws_blank by done. unfold PyStr.split_ws.
    rewrite split_ws_word; [by rewrite IH | by apply word_clean | done |].
    right. apply Hw.
Qed.

(** Reading on from inside a word. *)
Lemma split_ws_scan s cur :
  cur <> [] ->
  clean (String.string_of_list_ascii (rev cur)) s ->
  exists u rest,
    s = u +:+ rest /\
    clean (String.string_of_list_ascii (rev cur) +:+ u) rest /\
    (rest <> "" -> starts_with_space rest) /\
    PyStr.split_ws_aux 0 cur s =
      (String.string_of_list_ascii (rev cur) +:+ u) :: PyStr.split_ws rest.
Proof.
  revert cur. induction s as [|c s IH]; intros cur Hne Hclean.
  - exists "", "". rewrite !append_nil_r. split; [done|]. split; [done|].
    split; [intros H; by destruct H|]. by destruct cur.
  - destruct (PyStr.space_width (String c s)) as [|k] eqn:Hw.
    + apply space_width_zero in Hw.
      destruct (IH (c :: cur)) as (u & rest & -> & Hclean' & Hrest & Hsplit); [done| |].
      { rewrite string_of_rev_cons. by apply clean_snoc. }
      exists (String c u), rest. rewrite string_of_rev_cons, append_assoc in *.
      split; [done|]. split; [done|]. split; [done|].
      by rewrite split_ws_char.
    + pose proof (proj1 (space_width_starts (String c s))) as Hstart.
      rewrite Hw in Hstart. specialize (Hstart ltac:(done)).
      exists "", (String c s). rewrite append_nil_r. split; [done|]. split; [done|].
      split; [done|].
      destruct Hstart as (x & rest & Hx & ->).
      unfold PyStr.split_ws. rewrite !split_ws_space by done. by destruct cur.
Qed.

Lemma words_of_space w s ws :
  In w PyStr.whitespace -> words_of s ws -> words_of (w +:+ s) ws.
Proof.
  intros Hw. destruct 1 as [b Hb | b w0 s ws Hb Hw0 Hs Hws].
  - apply words_none. by constructor.
  - rewrite <- append_assoc. apply words_cons; [by constructor | done..].
Qed.

(** [split()] gives the words of the string. *)
Lemma split_ws_words s : words_of s (PyStr.split_ws s).
Proof.
  induction s as [s IH] using string_length_ind.
  destruct s as [|c s]; [apply words_none; constructor|].
  destruct (PyStr.space_width (String c s)) as [|k] eqn:Hw.
  - apply space_width_zero in Hw. unfold PyStr.split_ws. rewrite split_ws_char by done.
    destruct (split_ws_scan s [c]) as (u & rest & -> & Hclean & Hrest & ->); [done| |].
    { intros p1 p2 Heq Hp2. destruct p1 as [|? p1].
      - rewrite append_nil_l in Heq. by subst p2.
      - rewrite append_cons in Heq. injection Heq as <- Heq. symmetry in Heq.
        by apply append_eq_nil in Heq as [_ ->]. }
    change (String.string_of_list_ascii (rev [c])) with (String c "") in *.
    rewrite append_cons, append_nil_l in *.
    rewrite <- (append_nil_l (String c (u +:+ rest))), <- append_cons.
    apply words_cons; [constructor | by apply (clean_word _ rest) | done|].
    apply IH. simpl. rewrite append_length. lia.
  - apply space_width_inv in Hw as (w & rest & Hin & Heq & Hlen). rewrite Heq.
    unfold PyStr.split_ws. rewrite split_ws_space by done.
    apply words_of_space; [done|]. apply IH.
    rewrite Heq, append_length. lia.
Qed.

(** * Further properties of the client *)

(** [_rotate_key], by its three ways out: a pool too small, every key
    cooling down, or a key selected. *)
Lemma rotate_key_shape E m :
  let s := self m in
  let now := env_time E (trace m) in
  ((length (api_keys s) <= 1)%nat /\ _rotate_key E m = (Ret false, m)) \/
  ((1 < length (api_keys s))%nat /\
   (forall j, (j < length (api_keys s))%nat -> eligible (marked now s) now j = false) /\
   _rotate_key E m = (Ret false, {| self := marked now s; trace := trace m |})) \/
  (exists j api_key,
     (1 < length (api_keys s))%nat /\
     api_keys s !! j = Some api_key /\
     eligible (marked now s) now j = true /\
     _rotate_key E m =
       (Ret true, {| self := selected j api_key (marked now s); trace := trace m |})).
Proof.
  intros s now.
  destruct (decide (length (api_keys s) <= 1)%nat) as [Hle | Hgt].
  - left. split; [done|]. by apply rotate_key_single.
  - right. pose proof (rotate_key_find E m ltac:(fold s; lia)) as Hfind.
    simpl in Hfind. fold s now in Hfind. unfold candidates in Hfind.
    pose proof (find_seq_first (eligible (marked now s) now)
                  (fun k => ((current_key_index s + k) mod length (api_keys s))%nat)
                  1 (length (api_keys s))) as Hfirst.
    destruct (List.find _ _) as [j|].
    + right. destruct Hfind as (key & Hkey & Hrot).
      destruct Hfirst as (k & _ & _ & Hel & _).
      exists j, key. repeat split; try done. lia.
    + left. split; [lia|]. split; [|done].
      intros j Hj. destruct (candidate_cover _ (current_key_index s) j Hj) as (k & Hk & ->).
      by apply Hfirst.
Qed.

Lemma generate_rotated E prompt temperature max_tokens stop m :
  rotated E (self m) (self (generate E prompt temperature max_tokens stop m).2).
Proof.
  destruct (generate_returns E prompt temperature max_tokens stop m)
    as (out & m1 & r & m' & _ & Hrun & Hgen & Hself & _).
  rewrite Hgen. simpl. rewrite Hself.
  by eapply loop_run_rotated.
Qed.

Lemma chat_machine E messages temperature max_tokens m :
  (chat E messages temperature max_tokens m).2 =
  (generate E (_messages_to_prompt messages) temperature max_tokens None m).2.
Proof.
  destruct (generate_returns E (_messages_to_prompt messages) temperature max_tokens None m)
    as (out & m1 & r & m' & _ & _ & Hgen & _).
  rewrite (chat_cases _ _ _ _ _ _ _ Hgen), Hgen. by destruct (success r).
Qed.

(** An induction over the rotations that lead from one instance to
    another. *)
Lemma rotated_preserves E (P : GeminiAI -> Prop) :
  (forall m, P (self m) -> P (self (_rotate_key E m).2)) ->
  forall s s', rotated E s s' -> P s -> P s'.
Proof.
  intros Hstep s s'. induction 1 as [|s tr b m' s'' Hrot _ IH]; [done|].
  intros Hs. apply IH.
  specialize (Hstep {| self := s; trace := tr |} Hs). by rewrite Hrot in Hstep.
Qed.

Lemma rotate_key_same_config E m :
  api_keys (self (_rotate_key E m).2) = api_keys (self m) /\
  cooldown_duration (self (_rotate_key E m).2) = cooldown_duration (self m) /\
  model_name (self (_rotate_key E m).2) = model_name (self m) /\
  enabled (self (_rotate_key E m).2) = enabled (self m).
Proof.
  destruct (rotate_key_shape E m)
    as [[_ ->] | [(_ & _ & ->) | (j & key & _ & _ & _ & ->)]]; done.
Qed.

Lemma rotate_key_coherent E m :
  coherent (self m) -> coherent (self (_rotate_key E m).2).
Proof.
  intros Hc. destruct (rotate_key_shape E m)
    as [[_ ->] | [(_ & _ & ->) | (j & key & _ & Hkey & _ & ->)]]; done.
Qed.

Lemma rotate_key_trace E m : trace (_rotate_key E m).2 = trace m.
Proof.
  destruct (rotate_key_shape E m)
    as [[_ ->] | [(_ & _ & ->) | (j & key & _ & _ & _ & ->)]]; done.
Qed.

(** X1: The pool, the cooldown duration, the model name and the enabled flag
    are set by [__init__] and never changed again: [_rotate_key], [generate]
    and [chat] leave them as they are. *)
Theorem configuration_is_frozen :
  let same (s s' : GeminiAI) :=
    api_keys s' = api_keys s /\ cooldown_duration s' = cooldown_duration s /\
    model_name s' = model_name s /\ enabled s' = enabled s in
  (forall (E : Env) m, same (self m) (self (_rotate_key E m).2)) /\
  (forall (E : Env) prompt temperature max_tokens stop m,
     same (self m) (self (generate E prompt temperature max_tokens stop m).2)) /\
  (forall (E : Env) messages temperature max_tokens m,
     same (self m) (self (chat E messages temperature max_tokens m).2)).
Proof.
  intros same.
  assert (Hrot : forall (E : Env) m, same (self m) (self (_rotate_key E m).2)).
  { intros E m. apply rotate_key_same_config. }
  assert (Hgen : forall (E : Env) prompt temperature max_tokens stop m,
     same (self m) (self (generate E prompt temperature max_tokens stop m).2)).
  { intros E prompt temperature max_tokens stop m.
    apply (rotated_preserves E (fun s' => same (self m) s')) with (s := self m).
    - intros m0 (H1 & H2 & H3 & H4). destruct (Hrot E m0) as (H1' & H2' & H3' & H4').
      unfold same. repeat split; congruence.
    - apply generate_rotated.
    - by unfold same. }
  split; [exact Hrot|]. split; [exact Hgen|].
  intros E messages temperature max_tokens m. rewrite chat_machine. apply Hgen.
Qed.

(** X2: The configured model always belongs to the active index: [__init__]
    configures the first key, and after [_rotate_key], [generate] or [chat]
    the credential configured is the key of the pool at [current_key_index],
    with the model name of the instance, also when a rotation failed and put
    the index back. *)
Theorem model_follows_active_key :
  (forall a b s, __init__ a b = Ret s -> coherent s) /\
  (forall (E : Env) m, coherent (self m) -> coherent (self (_rotate_key E m).2)) /\
  (forall (E : Env) prompt temperature max_tokens stop m,
     coherent (self m) ->
     coherent (self (generate E prompt temperature max_tokens stop m).2)) /\
  (forall (E : Env) messages temperature max_tokens m,
     coherent (self m) ->
     coherent (self (chat E messages temperature max_tokens m).2)).
Proof.
  assert (Hrot : forall (E : Env) m,
            coherent (self m) -> coherent (self (_rotate_key E m).2)).
  { intros E m. apply rotate_key_coherent. }
  assert (Hgen : forall (E : Env) prompt temperature max_tokens stop m,
     coherent (self m) ->
     coherent (self (generate E prompt temperature max_tokens stop m).2)).
  { intros E prompt temperature max_tokens stop m Hc.
    eapply (rotated_preserves E coherent); [apply Hrot | apply generate_rotated | done]. }
  split; [|split; [exact Hrot | split; [exact Hgen|]]].
  - intros a b s. unfold __init__.
    set (keys0 := List.filter PyStr.truthy _).
    set (keys := match keys0 with [] => _ | _ => _ end).
    destruct keys as [|k0 keys']; [done|].
    simpl. intros [= <-]. by split.
  - intros E messages temperature max_tokens m Hc. rewrite chat_machine. by apply Hgen.
Qed.

(** X3: With a cooldown that is positive (it is 60 s) and a valid active
    index, a rotation that succeeds moves to another index, and leaves the
    index it came from marked at the current time and in cooldown. *)
Theorem rotation_changes_key (E : Env) (m m' : machine) :
  valid_index (self m) ->
  0 < cooldown_duration (self m) ->
  _rotate_key E m = (Ret true, m') ->
  current_key_index (self m') <> current_key_index (self m) /\
  key_cooldowns (self m') !! current_key_index (self m) = Some (env_time E (trace m)) /\
  eligible (self m') (env_time E (trace m)) (current_key_index (self m)) = false.
Proof.
  intros Hvalid Hpos Hrot.
  assert (Hmark : eligible (marked (env_time E (trace m)) (self m)) (env_time E (trace m))
                    (current_key_index (self m)) = false).
  { unfold eligible, marked. simpl. rewrite lookup_insert_eq. simpl.
    apply Z.leb_gt. lia. }
  destruct (rotate_key_shape E m)
    as [[_ H] | [(_ & _ & H) | (j & key & _ & Hkey & Hel & H)]];
    rewrite Hrot in H; try discriminate.
  injection H as ->. simpl. split; [|split].
  - intros ->. congruence.
  - apply lookup_insert_eq.
  - exact Hmark.
Qed.

Lemma rotation_changes_key_witness :
  exists m', _rotate_key E_rate_limited (start three_keys_cooling) = (Ret true, m') /\
             current_key_index (self m') <> 1%nat.
Proof.
  eexists. split; [vm_compute; reflexivity|].
  apply (rotation_changes_key E_rate_limited (start three_keys_cooling));
    [unfold valid_index; simpl; lia | simpl; lia | vm_compute; reflexivity].
Defined.

(** ** The calls of one [generate] *)

(** The log [generate] leaves: what the retry loop logged, then the call of
    the secondary provider if the loop gave no result and that provider is
    available. *)
Lemma generate_trace E prompt temperature max_tokens stop m :
  exists out m1 tl,
    loop_run E prompt temperature max_tokens stop (length (api_keys (self m))) None m out m1 /\
    trace m1 = (trace m ++ tl)%list /\
    self (generate E prompt temperature max_tokens stop m).2 = self m1 /\
    trace (generate E prompt temperature max_tokens stop m).2 =
      (trace m ++ tl ++
         match out.1 with
         | Some _ => []
         | None => if fallback_available E m1
                   then [EvFallback prompt temperature max_tokens stop] else []
         end)%list.
Proof.
  destruct (generate_loop_run E prompt temperature max_tokens stop
              (length (api_keys (self m))) None m) as (out & m1 & Hloop & Hrun).
  destruct (loop_run_trace _ _ _ _ _ _ _ _ _ _ Hrun) as (tl & Htl & _).
  exists out, m1, tl. split; [done|]. split; [done|].
  rewrite (generate_cases _ _ _ _ _ _ _ _ Hloop).
  destruct out as [[r|] le]; simpl.
  - by rewrite app_nil_r.
  - destruct (fallback_available E m1); simpl.
    + by rewrite Htl, app_assoc.
    + by rewrite app_nil_r.
Qed.

Lemma loop_run_calls_first E prompt temperature max_tokens stop n le m out m' :
  loop_run E prompt temperature max_tokens stop n le m out m' ->
  n <> 0%nat ->
  exists tl,
    trace m' = (trace m ++
                  EvGenerateContent (model (self m)) prompt
                    (generation_config temperature max_tokens stop) :: tl)%list.
Proof.
  induction 1 as [le m | n le m text Htry | n le m e Htry Hrl
                 | n le m e m2 Htry Hrl Hrot
                 | n le m e m2 out m' Htry Hrl Hrot Hrun IH]; intros Hn; try done.
  - by exists [].
  - by exists [].
  - exists [EvRotate].
    pose proof (rotate_key_trace E
      (after EvRotate (after (EvGenerateContent (model (self m)) prompt
         (generation_config temperature max_tokens stop)) m))) as Htr.
    rewrite Hrot in Htr. simpl in Htr. rewrite Htr. by rewrite <- app_assoc.
  - destruct (loop_run_trace _ _ _ _ _ _ _ _ _ _ Hrun) as (tl & Htl & _).
    exists (EvRotate :: tl).
    pose proof (rotate_key_trace E
      (after EvRotate (after (EvGenerateContent (model (self m)) prompt
         (generation_config temperature max_tokens stop)) m))) as Htr.
    rewrite Hrot in Htr. simpl in Htr. rewrite Htl, Htr. by rewrite <- !app_assoc.
Qed.

(** X4: Whatever the provider and the secondary provider do, one [generate]
    only adds to the log, calls the provider at most as often as the pool has
    keys (and at least once when the pool is not empty, first with the model
    configured on entry), invokes [_rotate_key] at most once per provider
    call, and calls the secondary provider at most once, as its last call and
    only when the retry loop gave no result. *)
Theorem generate_call_bounds (E : Env) (prompt : string) (temperature : Q)
    (max_tokens : Z) (stop : option (list string)) (m : machine) :
  exists tl,
    trace (generate E prompt temperature max_tokens stop m).2 = (trace m ++ tl)%list /\
    (provider_calls tl <= length (api_keys (self m)))%nat /\
    (rotations tl <= provider_calls tl)%nat /\
    (fallback_calls tl <= 1)%nat /\
    (api_keys (self m) <> [] ->
       exists tl', tl = EvGenerateContent (model (self m)) prompt
                          (generation_config temperature max_tokens stop) :: tl') /\
    (fallback_calls tl = 1%nat ->
       exists tl' last_error m1,
         tl = (tl' ++ [EvFallback prompt temperature max_tokens stop])%list /\
         fallback_calls tl' = 0%nat /\
         generate_loop E (length (api_keys (self m))) prompt temperature max_tokens stop
           None m = (Ret (None, last_error), m1)).
Proof.
  destruct (generate_loop_run E prompt temperature max_tokens stop
              (length (api_keys (self m))) None m) as (out & m1 & Hloop & Hrun).
  destruct (loop_run_trace _ _ _ _ _ _ _ _ _ _ Hrun)
    as (tl & Htl & Hfb & Hcount & _).
  rewrite (generate_cases _ _ _ _ _ _ _ _ Hloop).
  assert (Hfirst : api_keys (self m) <> [] ->
            exists tl', tl = EvGenerateContent (model (self m)) prompt
                               (generation_config temperature max_tokens stop) :: tl').
  { intros Hne.
    destruct (loop_run_calls_first _ _ _ _ _ _ _ _ _ _ Hrun) as (tl' & Htl').
    - by destruct (api_keys (self m)).
    - exists tl'. rewrite Htl in Htl'. by apply app_inv_head in Htl'. }
  destruct out as [[r|] le].
  - exists tl. simpl. split; [done|]. split; [lia|]. split; [lia|]. split; [lia|].
    split; [done|]. rewrite Hfb. discriminate.
  - destruct (fallback_available E m1).
    + exists (tl ++ [EvFallback prompt temperature max_tokens stop])%list.
      cbn [snd after trace]. rewrite Htl, <- app_assoc.
      rewrite provider_calls_app, rotations_app, fallback_calls_app, Hfb.
      split; [done|]. split; [cbn; lia|]. split; [cbn; lia|]. split; [cbn; lia|].
      split.
      * intros Hne. destruct (Hfirst Hne) as (tl' & ->). by eexists.
      * intros _. by exists tl, le, m1.
    + exists tl. simpl. split; [done|]. split; [lia|]. split; [lia|]. split; [lia|].
      split; [done|]. rewrite Hfb. discriminate.
Qed.

Lemma coherent_key_in_pool s :
  coherent s -> In (configured_api_key (model s)) (api_keys s).
Proof. intros [Hkey _]. apply list_elem_of_In. by eapply list_elem_of_lookup_2. Qed.

Lemma loop_run_events E prompt temperature max_tokens stop n le m out m' :
  loop_run E prompt temperature max_tokens stop n le m out m' ->
  coherent (self m) ->
  exists tl,
    trace m' = (trace m ++ tl)%list /\
    Forall (event_of_request (api_keys (self m)) (model_name (self m))
              prompt temperature max_tokens stop) tl.
Proof.
  induction 1 as [le m | n le m text Htry | n le m e Htry Hrl
                 | n le m e m2 Htry Hrl Hrot
                 | n le m e m2 out m' Htry Hrl Hrot Hrun IH]; intros Hc.
  - exists []. by rewrite app_nil_r.
  - eexists [_]. split; [done|]. constructor; [|done].
    split; [by apply coherent_key_in_pool|]. by destruct Hc.
  - eexists [_]. split; [done|]. constructor; [|done].
    split; [by apply coherent_key_in_pool|]. by destruct Hc.
  - exists [EvGenerateContent (model (self m)) prompt
              (generation_config temperature max_tokens stop); EvRotate].
    pose proof (rotate_key_trace E
      (after EvRotate (after (EvGenerateContent (model (self m)) prompt
         (generation_config temperature max_tokens stop)) m))) as Htr.
    rewrite Hrot in Htr. simpl in Htr. rewrite Htr, <- app_assoc.
    split; [done|]. constructor; [|by repeat constructor].
    split; [by apply coherent_key_in_pool|]. by destruct Hc.
  - set (m1 := after EvRotate (after (EvGenerateContent (model (self m)) prompt
                 (generation_config temperature max_tokens stop)) m)) in *.
    pose proof (rotate_key_trace E m1) as Htr.
    pose proof (rotate_key_coherent E m1 Hc) as Hc2.
    pose proof (rotate_key_same_config E m1) as (Hkeys & _ & Hname & _).
    rewrite Hrot in Htr, Hc2, Hkeys, Hname. simpl in Htr, Hc2, Hkeys, Hname.
    destruct (IH Hc2) as (tl & Htl & Hall).
    exists (EvGenerateContent (model (self m)) prompt
              (generation_config temperature max_tokens stop) :: EvRotate :: tl).
    rewrite Htl, Htr. cbn [m1 after trace]. rewrite <- !app_assoc.
    split; [done|]. rewrite Hkeys, Hname in Hall.
    constructor; [|by constructor].
    split; [by apply coherent_key_in_pool|]. by destruct Hc.
Qed.

(** X5: On an instance whose model belongs to its active key, every call one
    [generate] makes carries the request it was given: each provider call
    uses a credential of the pool and the model name of the instance, the
    prompt, and the configuration built from temperature, max_tokens and
    stop (an empty list of stop sequences being passed as [None]); the call
    of the secondary provider gets prompt, temperature, max_tokens and stop
    as they came. *)
Theorem generate_passes_request (E : Env) (prompt : string) (temperature : Q)
    (max_tokens : Z) (stop : option (list string)) (m : machine) :
  coherent (self m) ->
  exists tl,
    trace (generate E prompt temperature max_tokens stop m).2 = (trace m ++ tl)%list /\
    Forall (event_of_request (api_keys (self m)) (model_name (self m))
              prompt temperature max_tokens stop) tl /\
    stop_sequences (generation_config temperature max_tokens (Some [])) = None /\
    stop_sequences (generation_config temperature max_tokens None) = None /\
    (forall x l, stop_sequences (generation_config temperature max_tokens (Some (x :: l)))
                 = Some (x :: l)).
Proof.
  intros Hc.
  destruct (generate_trace E prompt temperature max_tokens stop m)
    as (out & m1 & tl & Hrun & Htl & _ & Htrace).
  destruct (loop_run_events _ _ _ _ _ _ _ _ _ _ Hrun Hc) as (tl' & Htl' & Hall).
  rewrite Htl in Htl'. apply app_inv_head in Htl' as <-.
  eexists. split; [exact Htrace|]. split; [|done].
  apply Forall_app. split; [done|].
  destruct out.1; [done|]. destruct (fallback_available E m1); [|done].
  by repeat constructor.
Qed.

Lemma generate_passes_request_witness :
  Forall (event_of_request ["k1"; "k2"] flash "hi" (7 # 10) 2000 (Some []))
    (trace (generate (E_answers (Raise quota_error)) "hi" (7 # 10) 2000 (Some [])
              (start two_keys)).2) /\
  length (trace (generate (E_answers (Raise quota_error)) "hi" (7 # 10) 2000 (Some [])
                   (start two_keys)).2) = 5%nat.
Proof.
  destruct (generate_passes_request (E_answers (Raise quota_error)) "hi" (7 # 10) 2000
              (Some []) (start two_keys)) as (tl & Htl & Hall & _).
  - split; reflexivity.
  - simpl in Htl. rewrite Htl. split; [exact Hall|].
    rewrite <- Htl. vm_compute. reflexivity.
Defined.

(** ** The cooldown table *)

(** X6: The cooldown table only grows: [_rotate_key], and so [generate], never
    removes an entry; an entry they write is a reading of the clock; and on
    an instance whose active index and marks are indices of the pool, every
    mark stays one. *)
Theorem cooldown_table_grows (E : Env) (prompt : string) (temperature : Q)
    (max_tokens : Z) (stop : option (list string)) (m : machine) :
  let s' := self (generate E prompt temperature max_tokens stop m).2 in
  (forall j, is_Some (key_cooldowns (self m) !! j) -> is_Some (key_cooldowns s' !! j)) /\
  (forall j t, key_cooldowns s' !! j = Some t ->
     key_cooldowns (self m) !! j = Some t \/ exists h, t = env_time E h) /\
  (valid_index (self m) ->
   (forall j, is_Some (key_cooldowns (self m) !! j) -> (j < length (api_keys (self m)))%nat) ->
   forall j, is_Some (key_cooldowns s' !! j) -> (j < length (api_keys s'))%nat).
Proof.
  intros s'.
  pose proof (generate_rotated E prompt temperature max_tokens stop m) as Hrot.
  fold s' in Hrot. clearbody s'.
  split; [|split].
  - intros j Hj.
    refine (rotated_preserves E (fun s => is_Some (key_cooldowns s !! j)) _ _ _ Hrot Hj).
    intros m0 Hm0. destruct (rotate_key_shape E m0)
      as [[_ ->] | [(_ & _ & ->) | (i & key & _ & _ & _ & ->)]]; simpl; try done;
      apply lookup_insert_is_Some'; by right.
  - refine (rotated_preserves E (fun s => forall j t, key_cooldowns s !! j = Some t ->
              key_cooldowns (self m) !! j = Some t \/ exists h, t = env_time E h)
              _ _ _ Hrot _); [|by left].
    intros m0 Hm0 j t.
    destruct (rotate_key_shape E m0)
      as [[_ ->] | [(_ & _ & ->) | (i & key & _ & _ & _ & ->)]]; simpl; try apply Hm0;
      (destruct (decide (current_key_index (self m0) = j)) as [-> | Hne];
       [rewrite lookup_insert_eq; intros [= <-]; right; by eexists
       |rewrite lookup_insert_ne by done; apply Hm0]).
  - intros Hvalid Hmarks.
    refine (proj2 (rotated_preserves E (fun s => valid_index s /\
              forall j, is_Some (key_cooldowns s !! j) -> (j < length (api_keys s))%nat)
              _ _ _ Hrot (conj Hvalid Hmarks))).
    intros m0 [Hv Hm0].
    destruct (rotate_key_shape E m0)
      as [[_ ->] | [(_ & _ & ->) | (i & key & _ & Hkey & _ & ->)]]; simpl; try done.
    + split; [done|]. intros j [Hj | Hj]%lookup_insert_is_Some'; [by subst | by apply Hm0].
    + split; [unfold valid_index; simpl; by eapply lookup_lt_Some|].
      intros j [Hj | Hj]%lookup_insert_is_Some'; [by subst | by apply Hm0].
Qed.

(** ** One attempt per key *)

Lemma credentials_app tr1 tr2 :
  credentials (tr1 ++ tr2) = (credentials tr1 ++ credentials tr2)%list.
Proof.
  induction tr1 as [|[mdl p cfg| |p t mt st] tr1 IH]; simpl; [done|by rewrite IH|done|done].
Qed.

(** The invariant of the retry loop under a clock that moves less than the
    cooldown: the indices tried so far ([used]) are marked with readings of
    the clock, and the active index is none of them. *)
Lemma loop_run_distinct E prompt temperature max_tokens stop n le m out m'
    (keys : list string) (d : Z) :
  loop_run E prompt temperature max_tokens stop n le m out m' ->
  NoDup keys -> 0 < d ->
  (forall h h', env_time E h' - env_time E h < d) ->
  forall used : list nat,
    api_keys (self m) = keys -> cooldown_duration (self m) = d ->
    coherent (self m) ->
    current_key_index (self m) ∉ used ->
    (forall j, j ∈ used -> exists h, key_cooldowns (self m) !! j = Some (env_time E h)) ->
    exists tl,
      trace m' = (trace m ++ tl)%list /\
      NoDup (credentials tl) /\
      (forall j key, j ∈ used -> keys !! j = Some key -> key ∉ credentials tl).
Proof.
  intros Hrun Hnodup Hd Hclock.
  induction Hrun as [le m | n le m text Htry | n le m e Htry Hrl
                    | n le m e m2 Htry Hrl Hrot
                    | n le m e m2 out m' Htry Hrl Hrot Hrun IH];
    intros used Hkeys Hdur Hc Hcur Hused.
  - exists []. rewrite app_nil_r. split; [done|]. split; [constructor|].
    intros j key _ _. apply not_elem_of_nil.
  - eexists [_]. split; [done|]. simpl. split; [apply NoDup_singleton|].
    intros j key Hj Hkey ->%list_elem_of_singleton.
    destruct Hc as [Hc _]. rewrite Hkeys in Hc.
    by rewrite (NoDup_lookup _ _ _ _ Hnodup Hkey Hc) in Hj.
  - eexists [_]. split; [done|]. simpl. split; [apply NoDup_singleton|].
    intros j key Hj Hkey ->%list_elem_of_singleton.
    destruct Hc as [Hc _]. rewrite Hkeys in Hc.
    by rewrite (NoDup_lookup _ _ _ _ Hnodup Hkey Hc) in Hj.
  - exists [EvGenerateContent (model (self m)) prompt
              (generation_config temperature max_tokens stop); EvRotate].
    pose proof (rotate_key_trace E
      (after EvRotate (after (EvGenerateContent (model (self m)) prompt
         (generation_config temperature max_tokens stop)) m))) as Htr.
    rewrite Hrot in Htr. simpl in Htr. rewrite Htr, <- app_assoc.
    split; [done|]. simpl. split; [apply NoDup_singleton|].
    intros j key Hj Hkey ->%list_elem_of_singleton.
    destruct Hc as [Hc _]. rewrite Hkeys in Hc.
    by rewrite (NoDup_lookup _ _ _ _ Hnodup Hkey Hc) in Hj.
  - set (m1 := after EvRotate (after (EvGenerateContent (model (self m)) prompt
                 (generation_config temperature max_tokens stop)) m)) in *.
    set (now := env_time E (trace m1)).
    set (i := current_key_index (self m)).
    destruct (rotate_key_shape E m1)
      as [[_ H] | [(_ & _ & H) | (j' & key' & _ & Hkey' & Hel & H)]];
      rewrite Hrot in H; try discriminate.
    injection H as ->.
    change (self m1) with (self m) in Hkey', Hel |- *.
    change (env_time E (trace m1)) with now in Hel |- *.
    assert (Hnot : forall j t, key_cooldowns (marked now (self m)) !! j = Some t ->
              now - t < d -> j' <> j).
    { intros j t Hj Hlt ->. unfold eligible in Hel. rewrite Hj in Hel. simpl in Hel.
      apply Z.leb_le in Hel. cbn [marked set_key_cooldowns cooldown_duration] in Hel. lia. }
    assert (Hi : key_cooldowns (marked now (self m)) !! i = Some now)
      by apply lookup_insert_eq.
    destruct (IH (i :: used)) as (tl & Htl & Hnd & Hout).
    + done.
    + done.
    + split; [done | by destruct Hc].
    + simpl. apply not_elem_of_cons. split.
      * apply (Hnot i now Hi). lia.
      * intros Hin. destruct (Hused j' Hin) as (h & Hh).
        assert (j' <> i) by (intros ->; done).
        apply (Hnot j' (env_time E h)); [|apply Hclock|done].
        unfold marked. simpl. by rewrite lookup_insert_ne.
    + intros j [-> | Hj]%elem_of_cons.
      * by exists (trace m1).
      * destruct (Hused j Hj) as (h & Hh). exists h.
        simpl. rewrite lookup_insert_ne; [done|]. intros <-. done.
    + exists (EvGenerateContent (model (self m)) prompt
                (generation_config temperature max_tokens stop) :: EvRotate :: tl).
      rewrite Htl. cbn [m1 after trace]. rewrite <- !app_assoc.
      split; [done|]. simpl.
      destruct Hc as [Hc _]. rewrite Hkeys in Hc. fold i in Hc.
      split.
      * apply NoDup_cons. split; [|done].
        apply (Hout i); [apply elem_of_cons; by left | done].
      * intros j key Hj Hkey [-> | Hin]%elem_of_cons.
        -- rewrite (NoDup_lookup _ _ _ _ Hnodup Hkey Hc) in Hj. done.
        -- apply (Hout j key); [apply elem_of_cons; by right | done | done].
Qed.

(** X7: At most one attempt per key: when the keys of the pool are pairwise
    different, the cooldown is positive and the clock moves by less than the
    cooldown while [generate] runs, no credential is used for two provider
    calls of one [generate]. *)
Theorem one_attempt_per_key (E : Env) (prompt : string) (temperature : Q)
    (max_tokens : Z) (stop : option (list string)) (m : machine) :
  NoDup (api_keys (self m)) ->
  coherent (self m) ->
  0 < cooldown_duration (self m) ->
  (forall h h', env_time E h' - env_time E h < cooldown_duration (self m)) ->
  exists tl,
    trace (generate E prompt temperature max_tokens stop m).2 = (trace m ++ tl)%list /\
    NoDup (credentials tl).
Proof.
  intros Hnodup Hc Hd Hclock.
  destruct (generate_trace E prompt temperature max_tokens stop m)
    as (out & m1 & tl & Hrun & Htl & _ & Htrace).
  destruct (loop_run_distinct _ _ _ _ _ _ _ _ _ _ _ _ Hrun Hnodup Hd Hclock []
              eq_refl eq_refl Hc) as (tl' & Htl' & Hnd & _).
  { apply not_elem_of_nil. }
  { intros j Hj. by apply not_elem_of_nil in Hj. }
  rewrite Htl in Htl'. apply app_inv_head in Htl' as <-.
  eexists. split; [exact Htrace|].
  rewrite credentials_app.
  destruct out.1; [by rewrite app_nil_r|].
  destruct (fallback_available E m1); simpl; by rewrite app_nil_r.
Qed.

Lemma one_attempt_per_key_witness :
  NoDup (credentials (trace (generate E_rate_limited "hi" (7 # 10) 2000 None
                               (start three_keys)).2)) /\
  credentials (trace (generate E_rate_limited "hi" (7 # 10) 2000 None
                        (start three_keys)).2) = ["k1"; "k2"; "k3"].
Proof.
  destruct (one_attempt_per_key E_rate_limited "hi" (7 # 10) 2000 None (start three_keys))
    as (tl & Htl & Hnd).
  - compute_done.
  - split; reflexivity.
  - simpl. lia.
  - intros h h'. simpl. lia.
  - simpl in Htl. rewrite Htl. split; [exact Hnd|].
    rewrite <- Htl. vm_compute. reflexivity.
Defined.

(** * Further properties of the seeder *)

Lemma find_is_admin_row stored :
  existsb is_admin_row stored = false <->
  List.find (fun u => String.eqb (email u) "admin@test.com") stored = None /\
  List.find (fun u => String.eqb (username u) "admin") stored = None.
Proof.
  induction stored as [|u stored IH]; simpl; [done|].
  unfold is_admin_row at 1.
  destruct (String.eqb (email u) "admin@test.com"), (String.eqb (username u) "admin");
    simpl; try (split; [done | by intros [? ?]]).
  exact IH.
Qed.

(** [create_admin_user] returns, whatever the store does. *)
Lemma create_admin_user_returns F stored :
  (create_admin_user F (SessionLocal stored)).1 = Ret tt.
Proof.
  unfold create_admin_user, SessionLocal, query_first, add, commit, rollback, close,
    print, called.
  unfold_st. cbn [rows pending calls stdout app].
  destruct (query_raises F []) as [e|]; [reflexivity|].
  set (by_email := fun u => String.eqb (email u) "admin@test.com").
  destruct (List.find by_email stored) as [u|]; [reflexivity|].
  cbn [rows pending calls stdout app].
  destruct (query_raises F [QueryByEmail "admin@test.com"]) as [e|]; [reflexivity|].
  set (by_username := fun u => String.eqb (username u) "admin").
  destruct (List.find by_username stored) as [u|]; [reflexivity|].
  cbn [rows pending calls stdout app].
  destruct (commit_raises F _) as [e|]; reflexivity.
Qed.

(** X8: The seeder never raises and always closes its session: whatever the
    lookups and the commit do, [create_admin_user] returns, the last call on
    the session is [close()], made once, and nothing is left pending. *)
Theorem seeder_always_closes (F : Faults) (stored : list User) :
  create_admin_user F (SessionLocal stored) = (Ret tt, run F stored) /\
  pending (run F stored) = [] /\
  exists cs, calls (run F stored) = (cs ++ [Close])%list /\ ~ In Close cs.
Proof.
  split; [|split].
  - unfold run. rewrite <- (create_admin_user_returns F stored).
    by destruct (create_admin_user F (SessionLocal stored)).
  - rewrite run_cases. cbv zeta.
    set (by_email := fun u => String.eqb (email u) "admin@test.com").
    set (by_username := fun u => String.eqb (username u) "admin").
    destruct (query_raises F []) as [e|]; [done|].
    destruct (List.find by_email stored) as [u|]; [done|].
    destruct (query_raises F [QueryByEmail "admin@test.com"]) as [e|]; [done|].
    destruct (List.find by_username stored) as [u|]; [done|].
    by destruct (commit_raises F _) as [e|].
  - rewrite run_cases. cbv zeta.
    set (by_email := fun u => String.eqb (email u) "admin@test.com").
    set (by_username := fun u => String.eqb (username u) "admin").
    destruct (query_raises F []) as [e|];
      [eexists [_; _]; split; [reflexivity | simpl; intuition discriminate]|].
    destruct (List.find by_email stored) as [u|];
      [eexists [_]; split; [reflexivity | simpl; intuition discriminate]|].
    destruct (query_raises F [QueryByEmail "admin@test.com"]) as [e|];
      [eexists [_; _; _]; split; [reflexivity | simpl; intuition discriminate]|].
    destruct (List.find by_username stored) as [u|];
      [eexists [_; _]; split; [reflexivity | simpl; intuition discriminate]|].
    destruct (commit_raises F _) as [e|].
    + eexists [_; _; _; _; _]; split; [reflexivity | simpl; intuition discriminate].
    + eexists [_; _; _; _]; split; [reflexivity | simpl; intuition discriminate].
Qed.

Lemma find_none_existsb {A} (p : A -> bool) (l : list A) :
  List.find p l = None <-> existsb p l = false.
Proof.
  induction l as [|a l IH]; simpl; [done|]. by destruct (p a).
Qed.

Lemma error_line_head e line :
  line = "❌ Error creating admin: " +:+ exn_str e ->
  match line with String _ (String c _) => c | _ => "000"%char end = "157"%char.
Proof. by intros ->. Qed.

(** X9: A failure of the store is rolled back and reported, not raised.  At
    each of the three points where the store can raise (the lookup by email;
    the lookup by username, made when no row has the email; the commit, made
    when no row has the email or the username) the run calls [rollback()]
    right after the failing call, prints the error with the text of the
    exception, closes the session and leaves the rows as they were; in
    particular a failed commit discards the record that was added.
    Conversely every run either met one of these three failures, and then
    rolled back and printed that one error line, or met none, and then made
    no rollback and printed no error line. *)
Theorem seeder_rolls_back :
  (forall F stored e,
     query_raises F [] = Some e ->
     run F stored =
       {| rows := stored; pending := [];
          calls := [QueryByEmail "admin@test.com"; Rollback; Close];
          stdout := ["❌ Error creating admin: " +:+ exn_str e] |}) /\
  (forall F stored e,
     query_raises F [] = None ->
     existsb (fun u => String.eqb (email u) "admin@test.com") stored = false ->
     query_raises F [QueryByEmail "admin@test.com"] = Some e ->
     run F stored =
       {| rows := stored; pending := [];
          calls := [QueryByEmail "admin@test.com"; QueryByUsername "admin"; Rollback; Close];
          stdout := ["❌ Error creating admin: " +:+ exn_str e] |}) /\
  (forall F stored e,
     query_raises F [] = None ->
     query_raises F [QueryByEmail "admin@test.com"] = None ->
     existsb is_admin_row stored = false ->
     commit_raises F [QueryByEmail "admin@test.com"; QueryByUsername "admin";
                      Add admin_user] = Some e ->
     run F stored =
       {| rows := stored; pending := [];
          calls := [QueryByEmail "admin@test.com"; QueryByUsername "admin";
                    Add admin_user; Commit; Rollback; Close];
          stdout := ["❌ Error creating admin: " +:+ exn_str e] |}) /\
  (forall F stored,
     let by_email := existsb (fun u => String.eqb (email u) "admin@test.com") stored in
     let by_username := existsb (fun u => String.eqb (username u) "admin") stored in
     let at_commit := [QueryByEmail "admin@test.com"; QueryByUsername "admin";
                       Add admin_user] in
     (exists e,
        (query_raises F [] = Some e \/
         (query_raises F [] = None /\ by_email = false /\
          query_raises F [QueryByEmail "admin@test.com"] = Some e) \/
         (query_raises F [] = None /\ by_email = false /\
          query_raises F [QueryByEmail "admin@test.com"] = None /\ by_username = false /\
          commit_raises F at_commit = Some e)) /\
        In Rollback (calls (run F stored)) /\
        rows (run F stored) = stored /\
        stdout (run F stored) = ["❌ Error creating admin: " +:+ exn_str e]) \/
     (query_raises F [] = None /\
      (by_email = true \/
       (query_raises F [QueryByEmail "admin@test.com"] = None /\
        (by_username = true \/ commit_raises F at_commit = None))) /\
      ~ In Rollback (calls (run F stored)) /\
      forall e, ~ In ("❌ Error creating admin: " +:+ exn_str e) (stdout (run F stored)))).
Proof.
  split; [|split; [|split]].
  - intros F stored e Hq. rewrite run_cases. cbv zeta. by rewrite Hq.
  - intros F stored e Hq1 Hemail%find_none_existsb Hq2.
    rewrite run_cases. cbv zeta. by rewrite Hq1, Hemail, Hq2.
  - intros F stored e Hq1 Hq2 [Hemail Hname]%find_is_admin_row Hc.
    rewrite run_cases. cbv zeta. by rewrite Hq1, Hemail, Hq2, Hname, Hc.
  - intros F stored by_email by_username at_commit. subst by_email by_username at_commit.
    rewrite run_cases. cbv zeta.
    set (by_email := fun u => String.eqb (email u) "admin@test.com").
    set (by_username := fun u => String.eqb (username u) "admin").
    destruct (query_raises F []) as [e|].
    { left. exists e. split; [by left|]. simpl. tauto. }
    destruct (List.find by_email stored) as [u|] eqn:Hemail.
    { right. split; [done|]. split.
      - left. destruct (existsb by_email stored) eqn:Hex; [done|].
        apply find_none_existsb in Hex. congruence.
      - split; [simpl; intuition discriminate|].
        intros e [H%error_line_head | []]. discriminate. }
    apply find_none_existsb in Hemail.
    destruct (query_raises F [QueryByEmail "admin@test.com"]) as [e|].
    { left. exists e. split; [right; by left|]. simpl. tauto. }
    destruct (List.find by_username stored) as [u|] eqn:Hname.
    { right. split; [done|]. split.
      - right. split; [done|]. left. destruct (existsb by_username stored) eqn:Hex; [done|].
        apply find_none_existsb in Hex. congruence.
      - split; [simpl; intuition discriminate|].
        intros e [H%error_line_head | []]. discriminate. }
    apply find_none_existsb in Hname.
    destruct (commit_raises F _) as [e|].
    { left. exists e. split; [right; right; done|]. simpl. tauto. }
    right. split; [done|]. split; [right; split; [done | by right]|].
    split; [simpl; intuition discriminate|].
    intros e [H%error_line_head | [H%error_line_head | [H%error_line_head | []]]];
      discriminate.
Qed.

(** The lookup by username fails, on a store that has no row with the
    email: the run rolls back, reports the failure and adds nothing. *)
Example seeder_username_lookup_fails :
  let F := {| query_raises := fun cs => match cs with
                                        | [] => None
                                        | _ => Some network_error
                                        end;
              commit_raises := fun _ => None |} in
  run F [] =
    {| rows := []; pending := [];
       calls := [QueryByEmail "admin@test.com"; QueryByUsername "admin"; Rollback; Close];
       stdout := ["❌ Error creating admin: " +:+ exn_str network_error] |}.
Proof. vm_compute. reflexivity. Qed.

(** One run of the seeder, as far as the rows go. *)
Lemma run_rows F stored :
  (rows (run F stored) = stored) \/
  (rows (run F stored) = (stored ++ [admin_user])%list /\
   existsb is_admin_row stored = false /\
   run_failed (run F stored) = false).
Proof.
  rewrite run_cases. cbv zeta.
  set (by_email := fun u => String.eqb (email u) "admin@test.com").
  set (by_username := fun u => String.eqb (username u) "admin").
  destruct (query_raises F []) as [e|]; [by left|].
  destruct (List.find by_email stored) as [u|] eqn:Hemail; [by left|].
  destruct (query_raises F [QueryByEmail "admin@test.com"]) as [e|]; [by left|].
  destruct (List.find by_username stored) as [u|] eqn:Hname; [by left|].
  destruct (commit_raises F _) as [e|]; [by left|].
  right. split; [done|]. split; [|done]. by apply find_is_admin_row.
Qed.

(** X10: The seeder creates the account it promises and nothing else: a run
    keeps every row of the store and adds at most the one record with the
    username admin, the e-mail admin@test.com, the password Admin@123 and the
    administrator preferences; it adds it only when no row has that e-mail or
    that username; and when the store does not fail it ends with such a row
    in the store. *)
Theorem seeder_creates_admin :
  (forall F stored,
     rows (run F stored) = stored \/
     (rows (run F stored) = (stored ++ [admin_user])%list /\
      existsb is_admin_row stored = false)) /\
  (forall F stored,
     existsb is_admin_row stored = true -> rows (run F stored) = stored) /\
  (forall stored,
     existsb is_admin_row stored = false ->
     run no_faults stored =
       {| rows := stored ++ [admin_user]; pending := [];
          calls := [QueryByEmail "admin@test.com"; QueryByUsername "admin";
                    Add admin_user; Commit; Close];
          stdout := ["✅ Admin user created successfully!"; "   Email: admin@test.com";
                     "   Password: Admin@123"] |}) /\
  (forall stored, existsb is_admin_row (rows (run no_faults stored)) = true) /\
  (username admin_user = "admin" /\ email admin_user = "admin@test.com" /\
   password admin_user = "Admin@123" /\
   preferences admin_user =
     [("role", PStr "admin"); ("tier", PStr "premium"); ("is_admin", PBool true);
      ("unlimited_access", PBool true); ("all_features_enabled", PBool true)]).
Proof.
  assert (Hnew : forall stored,
     existsb is_admin_row stored = false ->
     run no_faults stored =
       {| rows := stored ++ [admin_user]; pending := [];
          calls := [QueryByEmail "admin@test.com"; QueryByUsername "admin";
                    Add admin_user; Commit; Close];
          stdout := ["✅ Admin user created successfully!"; "   Email: admin@test.com";
                     "   Password: Admin@123"] |}).
  { intros stored [Hemail Hname]%find_is_admin_row. rewrite run_cases. cbv zeta.
    cbn [query_raises commit_raises no_faults]. by rewrite Hemail, Hname. }
  split; [|split; [|split; [exact Hnew|split; [|done]]]].
  - intros F stored. destruct (run_rows F stored) as [H | (H & Hno & _)]; [by left | by right].
  - intros F stored Hadmin.
    destruct (run_rows F stored) as [H | (_ & Hno & _)]; [done | congruence].
  - intros stored. destruct (existsb is_admin_row stored) eqn:Hadmin.
    + destruct (run_rows no_faults stored) as [-> | (_ & Hno & _)]; [done | congruence].
    + rewrite (Hnew stored Hadmin). cbn [rows]. rewrite existsb_app. simpl.
      apply orb_true_r.
Qed.

(** X11: However often the seeder runs and whatever fails in each run, it
    creates at most one account: the store after [k] runs is the store before
    them, followed by nothing or by the one admin record; and once a row with
    the admin e-mail or username is there, further runs change nothing. *)
Theorem seeder_runs_add_one (F : nat -> Faults) (k : nat) (stored : list User) :
  (runs F k stored = stored \/ runs F k stored = (stored ++ [admin_user])%list) /\
  (existsb is_admin_row stored = true -> runs F k stored = stored).
Proof.
  assert (Hfix : forall k stored,
            existsb is_admin_row stored = true -> runs F k stored = stored).
  { intros k'. induction k' as [|k' IH]; intros st Hadmin; simpl; [done|].
    destruct (run_rows (F k') st) as [-> | (_ & Hno & _)]; [by apply IH | congruence]. }
  split; [|apply Hfix].
  revert stored. induction k as [|k IH]; intros stored; simpl; [by left|].
  destruct (run_rows (F k) stored) as [-> | (-> & _ & _)]; [apply IH|].
  right. apply Hfix. rewrite existsb_app. simpl. apply orb_true_r.
Qed.

(** * Construction, status and the module-level accessors *)

Lemma list_ascii_of_append a b :
  String.list_ascii_of_string (a +:+ b) =
  (String.list_ascii_of_string a ++ String.list_ascii_of_string b)%list.
Proof. induction a as [|c a IH]; [done|]. rewrite append_cons. simpl. by rewrite IH. Qed.

Lemma trimmed_comma_free f k : trimmed f k -> comma_free f -> comma_free k.
Proof.
  intros (l & r & -> & _) Hfree Hin. apply Hfree.
  rewrite !list_ascii_of_append, !in_app_iff. tauto.
Qed.

Lemma strip_fields fields : Forall2 trimmed fields (map PyStr.strip fields).
Proof. induction fields; constructor; [apply strip_trimmed | done]. Qed.

Lemma strip_fields_unique fields cores :
  Forall2 trimmed fields cores -> cores = map PyStr.strip fields.
Proof.
  induction 1 as [|f k fields cores Hk _ IH]; [done|].
  simpl. by rewrite <- (trimmed_unique f k Hk), IH.
Qed.

(** X12: What [__init__] builds.  GEMINI_API_KEYS (the empty string when
    unset) is cut at its commas into fields, every field is trimmed of the
    white space around it, Unicode white space included, and the fields of
    which nothing is left are dropped: what remains are the listed keys, in
    order.  [__init__] raises [ValueError] exactly when no key is listed and
    GEMINI_API_KEY is empty or unset.  Otherwise the pool is the listed
    keys, or GEMINI_API_KEY alone, as it is, when no key is listed; it is not
    empty and holds no empty key, the first key is active and configured, no
    key is marked and the cooldown is 60 s; a listed key has no comma in it
    and no white-space character at its start or at its end. *)
Theorem init_builds_pool (GEMINI_API_KEYS GEMINI_API_KEY : option string) :
  exists fields cores,
    fields_of (default "" GEMINI_API_KEYS) fields /\
    Forall2 trimmed fields cores /\
    (forall fields' cores',
       fields_of (default "" GEMINI_API_KEYS) fields' ->
       Forall2 trimmed fields' cores' ->
       fields' = fields /\ cores' = cores) /\
    let listed := List.filter (fun k => negb (String.eqb k "")) cores in
    ((exists e, __init__ GEMINI_API_KEYS GEMINI_API_KEY = Raise e /\ exn_cls e = ValueError) <->
     (listed = [] /\ default "" GEMINI_API_KEY = "")) /\
    (forall e, __init__ GEMINI_API_KEYS GEMINI_API_KEY = Raise e -> exn_cls e = ValueError) /\
    (forall s, __init__ GEMINI_API_KEYS GEMINI_API_KEY = Ret s ->
       api_keys s <> [] /\
       Forall (fun k => k <> "") (api_keys s) /\
       api_keys s = match listed with [] => [default "" GEMINI_API_KEY] | _ => listed end /\
       (listed <> [] ->
          Forall (fun k => comma_free k /\ ~ starts_with_space k /\ ~ ends_with_space k)
            (api_keys s)) /\
       current_key_index s = 0%nat /\ key_cooldowns s = ∅ /\ cooldown_duration s = 60 /\
       head (api_keys s) = Some (configured_api_key (model s)) /\
       model_name s = "gemini-2.0-flash" /\ enabled s = true).
Proof.
  set (fields := PyStr.split_on "," (default "" GEMINI_API_KEYS)).
  exists fields, (map PyStr.strip fields).
  assert (Hfields : fields_of (default "" GEMINI_API_KEYS) fields) by (by apply split_on_fields).
  split; [done|]. split; [apply strip_fields|]. split.
  { intros fields' cores' ->%split_on_fields ->%strip_fields_unique. done. }
  intros listed.
  assert (Hsame : listed = List.filter PyStr.truthy (map PyStr.strip fields)).
  { apply List.filter_ext. by intros [|]. }
  assert (Hlisted : Forall (fun k => k <> "" /\ comma_free k /\
                              ~ starts_with_space k /\ ~ ends_with_space k) listed).
  { rewrite Hsame. apply List.Forall_forall. intros k [Hin Htruthy]%List.filter_In.
    split; [by destruct k|].
    apply List.in_map_iff in Hin as (f & <- & Hf).
    destruct Hfields as (_ & Hfree & _). rewrite List.Forall_forall in Hfree.
    pose proof (strip_trimmed f) as Htrim.
    split; [by apply (trimmed_comma_free f), Hfree|].
    by destruct Htrim as (l & r & _ & _ & _ & ? & ?). }
  unfold __init__. fold fields. rewrite <- Hsame.
  destruct listed as [|k0 rest] eqn:Hl.
  - destruct (default "" GEMINI_API_KEY) as [|c single] eqn:Hs; simpl.
    + split; [|split; [|done]].
      * split; [done|]. intros _. by eexists.
      * by intros e [= <-].
    + split; [|split; [done|]].
      * split; [by intros (e & ? & _) | by intros [_ ?]].
      * intros s [= <-]. simpl. repeat split; try done.
        by repeat constructor.
  - simpl. split; [|split; [done|]].
    + split; [by intros (e & ? & _) | by intros [? _]].
    + intros s [= <-]. simpl. split; [done|]. split; [|split; [done|split]].
      * eapply Forall_impl; [exact Hlisted|]. by intros k (? & _).
      * intros _. eapply Forall_impl; [exact Hlisted|]. by intros k (_ & ? & ? & ?).
      * done.
Qed.

(** White space around a key is not part of the key, also when it is not
    ASCII; a variable of white space only lists no key. *)
Example init_keys_no_break_space :
  __init__ (Some ("k1" +:+ nbsp +:+ "," +:+ nbsp +:+ "k2")) None
    = Ret (fresh "k1" ["k1"; "k2"]) /\
  (exists e, __init__ (Some nbsp) None = Raise e /\ exn_cls e = ValueError).
Proof. split; [reflexivity|]. eexists. split; reflexivity. Qed.

Example init_single_key_not_stripped :
  exists s, __init__ (Some " , ") (Some " k ") = Ret s /\ api_keys s = [" k "].
Proof. eexists. split; reflexivity. Qed.

(** ** The prompt of a chat *)

Lemma prompt_part_label msg :
  prompt_part msg =
    match role_label msg with
    | Some label => [label +:+ default "" (content msg) +:+ PyStr.LF]
    | None => []
    end.
Proof.
  unfold prompt_part, role_label.
  destruct (String.eqb (default "user" (role msg)) "system"); [done|].
  destruct (String.eqb (default "user" (role msg)) "user"); [done|].
  by destruct (String.eqb (default "user" (role msg)) "assistant").
Qed.

(** X13: [_messages_to_prompt], message by message: the prompt of no message is
    the cue "Assistant: "; a message with the role system, user or assistant
    puts its label, its content and a blank line before the prompt of the
    rest; a message with any other role is dropped; a message without a role
    counts as a user message and one without content as empty.  So every
    prompt ends with the cue. *)
Theorem prompt_message_by_message :
  _messages_to_prompt [] = "Assistant: " /\
  (forall msg rest,
     _messages_to_prompt (msg :: rest) =
       match role_label msg with
       | Some label =>
           label +:+ default "" (content msg) +:+ PyStr.LF +:+ PyStr.LF +:+
           _messages_to_prompt rest
       | None => _messages_to_prompt rest
       end) /\
  (forall msg, role msg = None -> role_label msg = Some "User: ") /\
  (forall messages, exists before, _messages_to_prompt messages = before +:+ "Assistant: ").
Proof.
  assert (Hcons : forall msg rest,
     _messages_to_prompt (msg :: rest) =
       match role_label msg with
       | Some label =>
           label +:+ default "" (content msg) +:+ PyStr.LF +:+ PyStr.LF +:+
           _messages_to_prompt rest
       | None => _messages_to_prompt rest
       end).
  { intros msg rest. unfold _messages_to_prompt. cbn [map concat].
    rewrite prompt_part_label. destruct (role_label msg) as [label|]; [|done].
    cbn [app]. rewrite join_cons.
    - by rewrite !append_assoc.
    - by destruct (concat (map prompt_part rest)). }
  split; [done|]. split; [exact Hcons|]. split.
  - intros msg Hrole. unfold role_label. by rewrite Hrole.
  - intros messages. induction messages as [|msg rest (before & IH)].
    + by exists "".
    + rewrite Hcons. destruct (role_label msg) as [label|]; [|by exists before].
      exists (label +:+ default "" (content msg) +:+ PyStr.LF +:+ PyStr.LF +:+ before).
      by rewrite IH, !append_assoc.
Qed.

(** ** Status *)

(** X14: [get_status] reads and changes nothing; on an instance with a valid
    active index it reports the index counted from 1, between 1 and the size
    of the pool; and it reports key rotation as disabled exactly when the
    pool has at most one key, in which case [_rotate_key] fails without a
    change. *)
Theorem status_reports_active_key (m : machine) :
  valid_index (self m) ->
  exists st,
    get_status m = (Ret st, m) /\
    st_api_keys_count st = length (api_keys (self m)) /\
    st_current_key_index st = S (current_key_index (self m)) /\
    (1 <= st_current_key_index st <= st_api_keys_count st)%nat /\
    (st_key_rotation st = "disabled" \/ st_key_rotation st = "enabled") /\
    (st_key_rotation st = "disabled" <-> (length (api_keys (self m)) <= 1)%nat) /\
    (st_key_rotation st = "disabled" -> forall E, _rotate_key E m = (Ret false, m)).
Proof.
  intros Hvalid. unfold valid_index in Hvalid.
  eexists. split; [reflexivity|]. cbn [st_api_keys_count st_current_key_index st_key_rotation].
  split; [done|]. split; [lia|]. split; [lia|].
  destruct (1 <? length (api_keys (self m)))%nat eqn:Hlen.
  - apply Nat.ltb_lt in Hlen. split; [by right|]. split; [|done].
    split; [done | lia].
  - apply Nat.ltb_ge in Hlen. split; [by left|]. split; [done|].
    intros _ E. by apply rotate_key_single.
Qed.

Lemma status_reports_active_key_witness :
  exists st, get_status (start three_keys_cooling) = (Ret st, start three_keys_cooling) /\
             st_current_key_index st = 2%nat /\ st_key_rotation st = "enabled".
Proof.
  destruct (status_reports_active_key (start three_keys_cooling))
    as (st & Hst & _ & Hidx & _); [unfold valid_index; simpl; lia|].
  exists st. split; [exact Hst|]. split; [exact Hidx|].
  vm_compute in Hst. by injection Hst as <-.
Defined.

(** ** The module-level accessors *)

Lemma lower_ascii_t c : PyStr.lower_ascii c = "t"%char <-> c = "t"%char \/ c = "T"%char.
Proof.
  split; [|by intros [-> | ->]].
  destruct c as [[] [] [] [] [] [] [] []]; vm_compute; intros H;
    (discriminate H || (left; reflexivity) || (right; reflexivity)).
Qed.

Lemma lower_ascii_r c : PyStr.lower_ascii c = "r"%char <-> c = "r"%char \/ c = "R"%char.
Proof.
  split; [|by intros [-> | ->]].
  destruct c as [[] [] [] [] [] [] [] []]; vm_compute; intros H;
    (discriminate H || (left; reflexivity) || (right; reflexivity)).
Qed.

Lemma lower_ascii_u c : PyStr.lower_ascii c = "u"%char <-> c = "u"%char \/ c = "U"%char.
Proof.
  split; [|by intros [-> | ->]].
  destruct c as [[] [] [] [] [] [] [] []]; vm_compute; intros H;
    (discriminate H || (left; reflexivity) || (right; reflexivity)).
Qed.

Lemma lower_ascii_e c : PyStr.lower_ascii c = "e"%char <-> c = "e"%char \/ c = "E"%char.
Proof.
  split; [|by intros [-> | ->]].
  destruct c as [[] [] [] [] [] [] [] []]; vm_compute; intros H;
    (discriminate H || (left; reflexivity) || (right; reflexivity)).
Qed.

(** X15: [is_gemini_enabled] is true exactly when USE_GEMINI is set to the word
    "true" in any mix of upper and lower case, with nothing around it: it is
    false when the variable is unset, empty, "1", "yes" or " true". *)
Theorem gemini_enabled_iff (USE_GEMINI : option string) :
  is_gemini_enabled USE_GEMINI = true <->
  exists a b c d,
    USE_GEMINI = Some (String a (String b (String c (String d "")))) /\
    (a = "t" \/ a = "T")%char /\ (b = "r" \/ b = "R")%char /\
    (c = "u" \/ c = "U")%char /\ (d = "e" \/ d = "E")%char.
Proof.
  unfold is_gemini_enabled. rewrite String.eqb_eq. split.
  - destruct USE_GEMINI as [s|]; [|done]. simpl.
    destruct s as [|a [|b [|c [|d [|x s]]]]]; try done. simpl.
    intros [= Ha Hb Hc Hd]. exists a, b, c, d.
    apply lower_ascii_t in Ha. apply lower_ascii_r in Hb.
    apply lower_ascii_u in Hc. apply lower_ascii_e in Hd. done.
  - intros (a & b & c & d & -> & Ha & Hb & Hc & Hd). simpl.
    apply lower_ascii_t in Ha. apply lower_ascii_r in Hb.
    apply lower_ascii_u in Hc. apply lower_ascii_e in Hd.
    by rewrite Ha, Hb, Hc, Hd.
Qed.

Example gemini_enabled_examples :
  is_gemini_enabled (Some "TRUE") = true /\ is_gemini_enabled (Some "True") = true /\
  is_gemini_enabled None = false /\ is_gemini_enabled (Some "1") = false /\
  is_gemini_enabled (Some " true") = false /\ is_gemini_enabled (Some "yes") = false.
Proof. repeat split. Qed.

(** X16: [get_gemini_ai] builds the instance once: the first call that succeeds
    stores what [__init__] built from the variables as they are then, and
    every later call returns that instance from the global without reading
    the variables again; a call whose [__init__] raises stores nothing, so
    that the next call tries again. *)
Theorem gemini_singleton :
  (forall a b s g, get_gemini_ai a b None = (Ret s, g) ->
     __init__ a b = Ret s /\ g = Some s /\
     forall a' b', get_gemini_ai a' b' g = (Ret s, g)) /\
  (forall a b e g, get_gemini_ai a b None = (Raise e, g) ->
     __init__ a b = Raise e /\ g = None) /\
  (forall a b s, get_gemini_ai a b (Some s) = (Ret s, Some s)).
Proof.
  split; [|split].
  - intros a b s g. unfold get_gemini_ai. unfold_st.
    destruct (__init__ a b) as [s0|e]; [|done].
    by intros [= <- <-].
  - intros a b e g. unfold get_gemini_ai. unfold_st.
    destruct (__init__ a b) as [s0|e0]; [done|].
    by intros [= <- <-].
  - done.
Qed.

(** ** The token estimate *)

(** X17: The token estimate of a successful generation counts words.  When
    the first provider call of [generate] gives a text that is not empty,
    the result carries that text, and its estimate is the number of words
    of the text plus the number of words of the prompt, where the words of
    a string are what stands between its white space (Unicode white space
    included): the string is white space, a word, white space, a word and
    so on, a word being not empty and holding no white-space character.
    There is one such list of words only, so the estimate is the same for
    every way to find them. *)
Theorem token_estimate_counts_words (E : Env) (prompt : string) (temperature : Q)
    (max_tokens : Z) (stop : option (list string)) (m : machine) (s : string) :
  api_keys (self m) <> [] ->
  attempt_outcome E (trace m) (model (self m)) prompt
    (generation_config temperature max_tokens stop) = Ret s ->
  s <> "" ->
  exists res m' text_words prompt_words,
    generate E prompt temperature max_tokens stop m = (Ret res, m') /\
    success res = true /\ text res = s /\
    words_of s text_words /\ words_of prompt prompt_words /\
    tokens_used res = (length text_words + length prompt_words)%nat /\
    (forall ws ws', words_of s ws -> words_of prompt ws' ->
                    ws = text_words /\ ws' = prompt_words).
Proof.
  intros Hkeys Hout Hs.
  exists (result_of_text prompt s),
         (after (EvGenerateContent (model (self m)) prompt
                   (generation_config temperature max_tokens stop)) m),
         (PyStr.split_ws s), (PyStr.split_ws prompt).
  split; [by apply generate_first_returns|].
  unfold result_of_text. destruct s as [|a s]; [done|]. cbn [PyStr.truthy].
  cbn [success text tokens_used success_result].
  split; [done|]. split; [done|]. split; [apply split_ws_words|].
  split; [apply split_ws_words|]. split; [done|].
  intros ws ws' <-%split_ws_unique <-%split_ws_unique. done.
Qed.

Lemma token_estimate_counts_words_witness :
  exists m',
    generate (E_answers (Ret {| response_text := Has ("d" +:+ nbsp +:+ "e");
                                response_candidates := Absent |}))
      "a b c" (7 # 10) 2000 None (start one_key) =
    (Ret {| text := "d" +:+ nbsp +:+ "e"; success := true; tokens_used := 5;
            error := None |}, m').
Proof.
  destruct (token_estimate_counts_words
              (E_answers (Ret {| response_text := Has ("d" +:+ nbsp +:+ "e");
                                 response_candidates := Absent |}))
              "a b c" (7 # 10) 2000 None (start one_key) ("d" +:+ nbsp +:+ "e"))
    as (res & m' & _ & _ & Hgen & _); [simpl; discriminate | reflexivity | discriminate |].
  exists m'. rewrite Hgen. vm_compute in Hgen. by injection Hgen as <- _.
Defined.

(** X18: A text of white space only is a text: when the direct text of the
    response is not empty, [generate] reports success with that text, also
    when it holds nothing but white-space characters (Unicode white space
    included), and the estimate then counts the words of the prompt alone. *)
Theorem whitespace_text_is_success (E : Env) (prompt : string) (temperature : Q)
    (max_tokens : Z) (stop : option (list string)) (m : machine) (r : Response)
    (s : string) :
  api_keys (self m) <> [] ->
  env_generate_content E (trace m) (model (self m)) prompt
    (generation_config temperature max_tokens stop) = Ret r ->
  response_text r = Has s ->
  s <> "" ->
  blank s ->
  exists res m',
    generate E prompt temperature max_tokens stop m = (Ret res, m') /\
    success res = true /\ text res = s /\ error res = None /\
    tokens_used res = length (PyStr.split_ws prompt) /\
    (forall prompt_words, words_of prompt prompt_words ->
                          tokens_used res = length prompt_words).
Proof.
  intros Hkeys Hcall Hr Hs Hws.
  eexists _, _. split.
  - apply generate_first_returns; [done|].
    unfold attempt_text. rewrite Hcall. cbn [rbind]. by apply extract_text_direct.
  - unfold result_of_text. destruct s as [|a s]; [done|]. cbn [PyStr.truthy].
    cbn [success text error tokens_used success_result].
    assert (Hnil : PyStr.split_ws (String a s) = [])
      by (apply split_ws_unique; by constructor).
    rewrite Hnil. repeat split.
    by intros ws <-%split_ws_unique.
Qed.

Lemma whitespace_text_is_success_witness :
  exists m',
    generate (E_answers (Ret {| response_text := Has (" " +:+ nbsp);
                                response_candidates := Absent |}))
      "a b c" (7 # 10) 2000 None (start one_key) =
    (Ret {| text := " " +:+ nbsp; success := true; tokens_used := 3; error := None |}, m').
Proof.
  destruct (whitespace_text_is_success
              (E_answers (Ret {| response_text := Has (" " +:+ nbsp);
                                 response_candidates := Absent |}))
              "a b c" (7 # 10) 2000 None (start one_key)
              {| response_text := Has (" " +:+ nbsp); response_candidates := Absent |}
              (" " +:+ nbsp))
    as (res & m' & Hgen & _); [simpl; discriminate | reflexivity | reflexivity
                              | discriminate | by apply all_space_blank |].
  exists m'. rewrite Hgen. vm_compute in Hgen. by injection Hgen as <- _.
Defined.

(** ** Failover and the error reported *)

(** X19: Failover is transparent: when the active key is rate limited, the
    rotation finds another key, and the provider answers on that one,
    [generate] returns the result built from that answer, after two provider
    calls and one rotation and without calling the secondary provider; the
    instance is left on the new key, the old one marked, for the calls to
    come. *)
Theorem failover_returns_next_answer (E : Env) (prompt : string) (temperature : Q)
    (max_tokens : Z) (stop : option (list string)) (m m2 : machine) (e : pyexn)
    (answer : string) :
  let cfg := generation_config temperature max_tokens stop in
  let m1 := after EvRotate (after (EvGenerateContent (model (self m)) prompt cfg) m) in
  attempt_text E m prompt cfg = Raise e ->
  is_rate_limit_error (PyStr.lower (exn_str e)) = true ->
  _rotate_key E m1 = (Ret true, m2) ->
  attempt_text E m2 prompt cfg = Ret answer ->
  generate E prompt temperature max_tokens stop m =
    (Ret (result_of_text prompt answer),
     after (EvGenerateContent (model (self m2)) prompt cfg) m2) /\
  trace m2 = (trace m ++ [EvGenerateContent (model (self m)) prompt cfg; EvRotate])%list /\
  key_cooldowns (self m2) !! current_key_index (self m) = Some (env_time E (trace m1)).
Proof.
  intros cfg m1 Htry Hrl Hrot Htry2.
  assert (Hlen : (1 < length (api_keys (self m)))%nat).
  { destruct (decide (length (api_keys (self m1)) <= 1)%nat) as [Hle | Hgt].
    - rewrite (rotate_key_single E m1 Hle) in Hrot. discriminate.
    - change (self m1) with (self m) in Hgt. lia. }
  assert (Hloop :
    generate_loop E (length (api_keys (self m))) prompt temperature max_tokens stop None m =
      (Ret (Some (result_of_text prompt answer), Some e),
       after (EvGenerateContent (model (self m2)) prompt cfg) m2)).
  { destruct (length (api_keys (self m))) as [|[|n]]; try lia.
    cbn [generate_loop]. unfold bind at 1.
    rewrite generate_attempt_cases. fold cfg. rewrite Htry, Hrl. fold m1. rewrite Hrot.
    unfold bind at 1. rewrite generate_attempt_cases. fold cfg. by rewrite Htry2. }
  split; [by rewrite (generate_cases _ _ _ _ _ _ _ _ Hloop)|].
  destruct (rotate_key_shape E m1)
    as [[_ H] | [(_ & _ & H) | (j & key & _ & Hkey & Hel & H)]];
    rewrite Hrot in H; try discriminate.
  injection H as ->. split.
  - cbn [trace m1 after]. by rewrite <- app_assoc.
  - simpl. apply lookup_insert_eq.
Qed.

Lemma failover_returns_next_answer_witness :
  let E := {| env_time := fun _ => 1000;
              env_generate_content := fun _ mdl _ _ =>
                if String.eqb (configured_api_key mdl) "k1" then Raise quota_error
                else Ret (nested_only "ok");
              env_is_cloudflare_ai_enabled := fun _ => Ret true;
              env_get_cloudflare_ai := fun _ => Ret tt;
              env_cloudflare_generate := fun _ _ _ _ _ => Ret cloudflare_answer |} in
  exists m',
    generate E "hi" (7 # 10) 2000 None (start two_keys) =
      (Ret (success_result "hi" "ok"), m') /\
    current_key_index (self m') = 1%nat /\ provider_calls (trace m') = 2%nat /\
    fallback_calls (trace m') = 0%nat.
Proof.
  intros E.
  destruct (failover_returns_next_answer E "hi" (7 # 10) 2000 None (start two_keys)
              (_rotate_key E
                 (after EvRotate
                    (after (EvGenerateContent (model two_keys) "hi"
                              (generation_config (7 # 10) 2000 None)) (start two_keys)))).2
              quota_error "ok") as (Hgen & _);
    [reflexivity | reflexivity | vm_compute; reflexivity | reflexivity |].
  eexists. split; [exact Hgen|]. split; [|split]; vm_compute; reflexivity.
Defined.

Lemma loop_run_last_error E prompt temperature max_tokens stop n le m out m' :
  loop_run E prompt temperature max_tokens stop n le m out m' ->
  out.2 = le \/
  exists e m0,
    out.2 = Some e /\
    attempt_text E m0 prompt (generation_config temperature max_tokens stop) = Raise e.
Proof.
  induction 1 as [le m | n le m text Htry | n le m e Htry Hrl
                 | n le m e m2 Htry Hrl Hrot
                 | n le m e m2 out m' Htry Hrl Hrot Hrun IH];
    try (by left); try (right; by exists e, m).
  destruct IH as [-> | IH]; [right; by exists e, m | by right].
Qed.

Lemma loop_run_error_set E prompt temperature max_tokens stop n le m out m' :
  loop_run E prompt temperature max_tokens stop n le m out m' ->
  n <> 0%nat -> out.1 = None -> exists e, out.2 = Some e.
Proof.
  induction 1 as [le m | n le m text Htry | n le m e Htry Hrl
                 | n le m e m2 Htry Hrl Hrot
                 | n le m e m2 out m' Htry Hrl Hrot Hrun IH];
    intros Hn Hnone; try done; try by exists e.
  destruct n as [|n].
  - inversion Hrun; subst. by exists e.
  - by apply IH.
Qed.

(** X20: The error a failed call reports is that of its own last provider
    call.  On a pool that is not empty, when [generate] reports no success,
    the text is empty and no token is counted, and among the events [tl] this
    run appended to the trace either the last one is a provider call from
    whose response the empty text was extracted, and the error is "Empty
    response from API", or there is a provider call of the run that raised
    (in the call or in reading the response), no provider call follows it,
    and the error is the text of that exception; the exception [chat] then
    raises carries that same text. *)
Theorem failure_reports_provider_error (E : Env) (m : machine) :
  api_keys (self m) <> [] ->
  (forall prompt temperature max_tokens stop r m',
     generate E prompt temperature max_tokens stop m = (Ret r, m') ->
     success r = false ->
     text r = "" /\ tokens_used r = 0%nat /\
     exists tl,
       trace m' = (trace m ++ tl)%list /\
       ((exists k mdl,
           tl !! k = Some (EvGenerateContent mdl prompt
                             (generation_config temperature max_tokens stop)) /\
           length tl = S k /\
           attempt_outcome E (trace m ++ take k tl) mdl prompt
             (generation_config temperature max_tokens stop) = Ret "" /\
           error r = Some "Empty response from API") \/
        (exists k mdl e,
           tl !! k = Some (EvGenerateContent mdl prompt
                             (generation_config temperature max_tokens stop)) /\
           attempt_outcome E (trace m ++ take k tl) mdl prompt
             (generation_config temperature max_tokens stop) = Raise e /\
           (forall k' ev, (k < k')%nat -> tl !! k' = Some ev ->
                          is_generate_content ev = false) /\
           error r = Some (exn_str e)))) /\
  (forall messages temperature max_tokens e m',
     chat E messages temperature max_tokens m = (Raise e, m') ->
     exists tl,
       trace m' = (trace m ++ tl)%list /\
       ((exists k mdl,
           tl !! k = Some (EvGenerateContent mdl (_messages_to_prompt messages)
                             (generation_config temperature max_tokens None)) /\
           length tl = S k /\
           attempt_outcome E (trace m ++ take k tl) mdl (_messages_to_prompt messages)
             (generation_config temperature max_tokens None) = Ret "" /\
           exn_str e = "Empty response from API") \/
        (exists k mdl e0,
           tl !! k = Some (EvGenerateContent mdl (_messages_to_prompt messages)
                             (generation_config temperature max_tokens None)) /\
           attempt_outcome E (trace m ++ take k tl) mdl (_messages_to_prompt messages)
             (generation_config temperature max_tokens None) = Raise e0 /\
           (forall k' ev, (k < k')%nat -> tl !! k' = Some ev ->
                          is_generate_content ev = false) /\
           exn_str e = exn_str e0))).
Proof.
  intros Hkeys.
  assert (Hgen : forall prompt temperature max_tokens stop r m',
     generate E prompt temperature max_tokens stop m = (Ret r, m') ->
     success r = false ->
     text r = "" /\ tokens_used r = 0%nat /\
     exists tl,
       trace m' = (trace m ++ tl)%list /\
       ((exists k mdl,
           tl !! k = Some (EvGenerateContent mdl prompt
                             (generation_config temperature max_tokens stop)) /\
           length tl = S k /\
           attempt_outcome E (trace m ++ take k tl) mdl prompt
             (generation_config temperature max_tokens stop) = Ret "" /\
           error r = Some "Empty response from API") \/
        (exists k mdl e,
           tl !! k = Some (EvGenerateContent mdl prompt
                             (generation_config temperature max_tokens stop)) /\
           attempt_outcome E (trace m ++ take k tl) mdl prompt
             (generation_config temperature max_tokens stop) = Raise e /\
           (forall k' ev, (k < k')%nat -> tl !! k' = Some ev ->
                          is_generate_content ev = false) /\
           error r = Some (exn_str e)))).
  { intros prompt temperature max_tokens stop r m' Hg Hfail.
    destruct (generate_by_calls E prompt temperature max_tokens stop m)
      as (r0 & m0 & tl & Hg0 & Htl & _ & _ & _ & _ & Hno).
    rewrite Hg in Hg0. injection Hg0 as <- <-.
    destruct (Hno Hfail) as [(k & mdl & Hk & Hlen & Ho & ->) | (le & -> & Hlast)].
    - split; [done|]. split; [done|]. exists tl. split; [done|]. left. by exists k, mdl.
    - split; [done|]. split; [done|]. exists tl. split; [done|]. right.
      destruct (Hlast Hkeys) as (k & mdl & e & Hk & Ho & -> & Hafter).
      by exists k, mdl, e. }
  split; [exact Hgen|].
  intros messages temperature max_tokens e m' Hchat.
  destruct (generate_returns E (_messages_to_prompt messages) temperature max_tokens None m)
    as (out & m1 & r & m0 & _ & _ & Hg & _).
  rewrite (chat_cases _ _ _ _ _ _ _ Hg) in Hchat.
  destruct (success r) eqn:Hs; [discriminate|]. injection Hchat as <- <-.
  destruct (Hgen _ _ _ _ _ _ Hg Hs) as (_ & _ & tl & Htl & Hcases).
  exists tl. split; [done|].
  destruct Hcases as [(k & mdl & Hk & Hlen & Ho & Herr) | (k & mdl & e0 & Hk & Ho & Hafter & Herr)].
  - left. exists k, mdl. by rewrite Herr.
  - right. exists k, mdl, e0. by rewrite Herr.
Qed.

Lemma failure_reports_provider_error_witness :
  exists e m',
    chat E_rate_limited [] (7 # 10) 1024 (start two_keys) = (Raise e, m') /\
    exn_str e = exn_str quota_error /\
    exists tl,
      trace m' = (trace (start two_keys) ++ tl)%list /\
      ((exists k mdl,
          tl !! k = Some (EvGenerateContent mdl (_messages_to_prompt [])
                            (generation_config (7 # 10) 1024 None)) /\
          length tl = S k /\
          attempt_outcome E_rate_limited (trace (start two_keys) ++ take k tl) mdl
            (_messages_to_prompt []) (generation_config (7 # 10) 1024 None) = Ret "" /\
          exn_str e = "Empty response from API") \/
       (exists k mdl e0,
          tl !! k = Some (EvGenerateContent mdl (_messages_to_prompt [])
                            (generation_config (7 # 10) 1024 None)) /\
          attempt_outcome E_rate_limited (trace (start two_keys) ++ take k tl) mdl
            (_messages_to_prompt []) (generation_config (7 # 10) 1024 None) = Raise e0 /\
          (forall k' ev, (k < k')%nat -> tl !! k' = Some ev ->
                         is_generate_content ev = false) /\
          exn_str e = exn_str e0)).
Proof.
  eexists _, _. split; [vm_compute; reflexivity|]. split; [vm_compute; reflexivity|].
  eapply (proj2 (failure_reports_provider_error E_rate_limited (start two_keys)
                   ltac:(simpl; discriminate)) [] (7 # 10) 1024).
  vm_compute. reflexivity.
Defined.

(** ** Configuration of the active key, and rotation in turn *)

(** X21: [_configure_current_key] succeeds exactly when the active index is an
    index of the pool: it then replaces the model by the one for the key at
    that index and touches nothing else; on an index out of range it raises
    [IndexError] and leaves the instance as it was. *)
Theorem configure_current_key_bounds (m : machine) :
  (valid_index (self m) ->
     exists api_key,
       api_keys (self m) !! current_key_index (self m) = Some api_key /\
       _configure_current_key m =
         (Ret tt,
          {| self := set_model {| configured_api_key := api_key;
                                  configured_model_name := model_name (self m) |} (self m);
             trace := trace m |}) /\
       coherent (self (_configure_current_key m).2)) /\
  (~ valid_index (self m) ->
     exists e, _configure_current_key m = (Raise e, m) /\ exn_cls e = IndexError).
Proof.
  unfold valid_index, _configure_current_key, configure. unfold_st. split.
  - intros Hvalid. destruct (lookup_lt_is_Some_2 _ _ Hvalid) as [key Hkey].
    exists key. rewrite Hkey. simpl. split; [done|]. split; [done|]. by split.
  - intros Hout. rewrite (lookup_ge_None_2 (api_keys (self m))) by lia.
    by eexists.
Qed.

(** X22: Rotation goes round the pool in order: when the key after the active
    one (the first again after the last) is not in cooldown, [_rotate_key]
    selects it, whatever the state of the keys further on. *)
Theorem rotation_takes_next_key (E : Env) (m : machine) :
  let s := self m in
  let n := length (api_keys s) in
  let now := env_time E (trace m) in
  let next := ((current_key_index s + 1) mod n)%nat in
  (1 < n)%nat ->
  eligible (marked now s) now next = true ->
  exists api_key,
    api_keys s !! next = Some api_key /\
    _rotate_key E m =
      (Ret true, {| self := selected next api_key (marked now s); trace := trace m |}).
Proof.
  intros s n now next Hn Hel.
  pose proof (rotate_key_find E m Hn) as Hfind. simpl in Hfind.
  fold s n now in Hfind. unfold candidates in Hfind.
  destruct n as [|n']; [lia|]. cbn [seq map List.find] in Hfind.
  fold next in Hfind. by rewrite Hel in Hfind.
Qed.

Lemma rotation_takes_next_key_witness :
  exists m', _rotate_key E_rate_limited (start three_keys) = (Ret true, m') /\
             current_key_index (self m') = 1%nat /\
             configured_api_key (model (self m')) = "k2".
Proof.
  destruct (rotation_takes_next_key E_rate_limited (start three_keys))
    as (key & Hkey & Hrot); [simpl; lia | reflexivity |].
  eexists. split; [exact Hrot|]. split; [reflexivity|].
  simpl in Hkey. by injection Hkey as <-.
Defined.

(** X23: An accessor that raises outside [IndexError], [AttributeError] and
    [ValueError] is not tolerated by the extraction: when the [text]
    accessor of the response raises such an exception, the nested path is not
    tried and the turn ends as if the provider call had raised it, so that
    its text decides between rotation and the end of the loop. *)
Theorem accessor_error_is_provider_error (E : Env) (prompt : string) (temperature : Q)
    (max_tokens : Z) (stop : option (list string)) (m : machine) (r : Response)
    (e : pyexn) :
  env_generate_content E (trace m) (model (self m)) prompt
    (generation_config temperature max_tokens stop) = Ret r ->
  response_text r = Fails e ->
  caught_by_extraction e = false ->
  let m1 := after (EvGenerateContent (model (self m)) prompt
                     (generation_config temperature max_tokens stop)) m in
  extract_text r = Raise e /\
  (is_rate_limit_error (PyStr.lower (exn_str e)) = false ->
     forall n le,
       generate_loop E (S n) prompt temperature max_tokens stop le m =
         (Ret (None, Some e), m1)) /\
  (is_rate_limit_error (PyStr.lower (exn_str e)) = true ->
     exists b m2,
       _rotate_key E (after EvRotate m1) = (Ret b, m2) /\
       forall n le,
         generate_loop E (S n) prompt temperature max_tokens stop le m =
           if b then generate_loop E n prompt temperature max_tokens stop (Some e) m2
           else (Ret (None, Some e), m2)).
Proof.
  intros Hcall Hr Hcaught m1.
  assert (Hext : extract_text r = Raise e).
  { unfold extract_text, direct_text, hasattr. rewrite Hr.
    unfold caught_by_extraction in Hcaught.
    destruct (exn_cls e) eqn:Hc; try discriminate.
    simpl. unfold caught_by_extraction. by rewrite Hc. }
  assert (Htry : attempt_text E m prompt (generation_config temperature max_tokens stop)
                 = Raise e).
  { unfold attempt_text. by rewrite Hcall. }
  split; [done|]. split.
  - intros Hrl n le. cbn [generate_loop]. unfold bind at 1.
    by rewrite generate_attempt_cases, Htry, Hrl.
  - intros Hrl.
    destruct (rotate_key_returns E (after EvRotate m1)) as (b & m2 & Hrot & _).
    exists b, m2. split; [done|].
    intros n le. cbn [generate_loop]. unfold bind at 1.
    rewrite generate_attempt_cases, Htry, Hrl. fold m1. rewrite Hrot.
    by destruct b.
Qed.

Lemma accessor_error_is_provider_error_witness :
  extract_text {| response_text := Fails quota_error;
                  response_candidates := response_candidates (nested_only "ignored") |}
    = Raise quota_error /\
  generate_loop
    (E_answers (Ret {| response_text := Fails quota_error;
                       response_candidates := response_candidates (nested_only "ignored") |}))
    1 "hi" (7 # 10) 2000 None None (start one_key) =
  (Ret (None, Some quota_error),
   {| self := one_key;
      trace := [EvGenerateContent (model one_key) "hi" (generation_config (7 # 10) 2000 None);
                EvRotate] |}).
Proof.
  destruct (accessor_error_is_provider_error
              (E_answers (Ret {| response_text := Fails quota_error;
                                 response_candidates :=
                                   response_candidates (nested_only "ignored") |}))
              "hi" (7 # 10) 2000 None (start one_key)
              {| response_text := Fails quota_error;
                 response_candidates := response_candidates (nested_only "ignored") |}
              quota_error) as (Hext & _ & Hrl); [reflexivity | reflexivity | reflexivity |].
  split; [exact Hext|].
  destruct (Hrl eq_refl) as (b & m2 & Hrot & Hloop).
  rewrite (Hloop 0%nat None).
  vm_compute in Hrot. injection Hrot as <- <-. reflexivity.
Defined.
